(** * A DC circuit simulator (simulator.py): shallow embedding and properties

    The development follows src/simulator.py: the union-find used to lump
    wire-connected nodes, the component classes, [GridCircuit], [Circuit],
    and the [Solver] with its modified-nodal-analysis assembly and its
    threshold (LED) iteration.

    Modelling conventions.
    - Python objects live in a heap ([list Component]); a circuit holds
      references ([loc]) into it, so that the mutation [led.on = ...] and
      the identity test behind [list.index] are what they are in Python.
    - Numbers and [np.linalg.solve] are an interface ([Backend]): the
      theorems hold for every implementation of it.  [exact] instantiates
      it with rationals and exact elimination, to run concrete circuits.
    - Exceptions are values of [exn]; a Python function that can raise
      returns a [result]. *)

From Stdlib Require Import ZArith QArith Qreduction.
From stdpp Require Import base option list gmap fin_maps strings pretty.

Set Default Proof Using "Type".
Local Open Scope nat_scope.

(** ** Exceptions *)

Inductive exn : Type :=
  | KeyError
  | IndexError
  | TypeError
  | ValueError
  | ZeroDivisionError
  | AttributeError
  | LinAlgError
  | RecursionError.

Inductive result (A : Type) : Type :=
  | Ok (v : A)
  | Raise (e : exn).
Arguments Ok {A} v.
Arguments Raise {A} e.

#[global] Instance result_ret : MRet result := λ A v, Ok v.
#[global] Instance result_bind : MBind result := λ A B f m,
  match m with
  | Ok v => f v
  | Raise e => Raise e
  end.

(** [d[k]] on a dict, [l[i]] on an array. *)
Definition getitem {K A} `{Lookup K A M} (e : exn) (m : M) (k : K) : result A :=
  match m !! k with
  | Some v => Ok v
  | None => Raise e
  end.

(** [for x in l: acc = f(acc, x)], stopping at the first exception. *)
Fixpoint for_each {A S} (f : S → A → result S) (l : list A) (s : S) : result S :=
  match l with
  | [] => Ok s
  | x :: l' => s' ← f s x; for_each f l' s'
  end.

(** ** Numbers and the linear solver *)

Class Backend : Type := {
  num : Type;
  nzero : num;                      (* 0.0 *)
  none : num;                       (* 1, 1.0 *)
  nmone : num;                      (* -1 *)
  nadd : num → num → num;
  nsub : num → num → num;
  ndiv : num → num → num;           (* division that does not raise *)
  nge : num → num → bool;           (* >= *)
  nlt : num → num → bool;           (* < *)
  is_zero : num → bool;             (* == 0 *)
  r_off : num;                      (* 1e9 *)
  r_cut : num;                      (* 1e8 *)
  num_str : num → string;           (* str(x) inside an f-string *)
  linalg_solve : list (list num) → list num → option (list num)
                                    (* np.linalg.solve; None: LinAlgError *)
}.

(** ** The exact backend: rationals in lowest terms, elimination *)

Module Exact.

Definition add (x y : Q) : Q := Qred (x + y).
Definition sub (x y : Q) : Q := Qred (x - y).
Definition mul (x y : Q) : Q := Qred (x * y).
Definition div (x y : Q) : Q := Qred (x / y).
Definition ge (x y : Q) : bool := Qle_bool y x.
Definition lt (x y : Q) : bool := negb (Qle_bool y x).
Definition zerob (x : Q) : bool := Qeq_bool x 0.

Definition str (x : Q) : string :=
  match Qred x with
  | Qmake n 1 => pretty n
  | Qmake n d => pretty n +:+ "/" +:+ pretty (Zpos d)
  end.

Definition entry (r : list Q) (j : nat) : Q := nth j r 0%Q.

(** The first row of [rows] with a nonzero entry in column [j], and the
    other rows. *)
Fixpoint find_pivot (j : nat) (rows : list (list Q))
  : option (list Q * list (list Q)) :=
  match rows with
  | [] => None
  | r :: rs =>
      if zerob (entry r j) then
        match find_pivot j rs with
        | Some (p, rest) => Some (p, r :: rest)
        | None => None
        end
      else Some (r, rs)
  end.

Definition clear_col (j : nat) (p r : list Q) : list Q :=
  zip_with (λ v w, sub v (mul (entry r j) w)) r p.

(** Gauss-Jordan on the augmented rows, one column at a time. *)
Fixpoint eliminate (cols : list nat) (done todo : list (list Q))
  : option (list (list Q)) :=
  match cols with
  | [] => Some done
  | j :: cols' =>
      match find_pivot j todo with
      | None => None
      | Some (p, rest) =>
          let p' := map (λ v, div v (entry p j)) p in
          eliminate cols' (map (clear_col j p') done ++ [p'])
                    (map (clear_col j p') rest)
      end
  end.

Definition solve (A : list (list Q)) (z : list Q) : option (list Q) :=
  let n := length z in
  match eliminate (seq 0 n) [] (zip_with (λ r v, r ++ [v]) A z) with
  | Some rows => Some (map (λ r, entry r n) rows)
  | None => None
  end.

End Exact.

#[global] Instance exact : Backend := {|
  num := Q;
  nzero := 0%Q;
  none := 1%Q;
  nmone := (-1)%Q;
  nadd := Exact.add;
  nsub := Exact.sub;
  ndiv := Exact.div;
  nge := Exact.ge;
  nlt := Exact.lt;
  is_zero := Exact.zerob;
  r_off := 1000000000%Q;
  r_cut := 100000000%Q;
  num_str := Exact.str;
  linalg_solve := Exact.solve
|}.

(** ** Nodes, components, the heap *)

(** Node identities are grid positions [(x, y)]. *)
Abbreviation Node := (Z * Z)%type (only parsing).

(** References to component objects. *)
Abbreviation loc := nat (only parsing).

Section Model.
Context {B : Backend}.

Inductive kind : Type :=
  | Wire
  | Resistor (resistance : num)
  | VoltageSource (voltage : num)
  | LED (r_on threshold : num) (on : bool).

Record Component : Type := mkComponent {
  c_a : Node;
  c_b : Node;
  c_name : string;
  c_kind : kind
}.

#[global] Instance Component_inhabited : Inhabited Component :=
  populate (mkComponent (0, 0)%Z (0, 0)%Z "Wire" Wire).

(** [name or default] *)
Definition name_or (name default : string) : string :=
  if decide (name = EmptyString) then default else name.

(** Component.__init__ and the subclasses' __init__ *)
Definition Wire_init (a b : Node) (name : string) : Component :=
  mkComponent a b (name_or name "Wire") Wire.

Definition Resistor_init (a b : Node) (resistance : num) (name : string) : Component :=
  mkComponent a b
    (name_or (name_or name ("R(" +:+ num_str resistance +:+ ")")) "Resistor")
    (Resistor resistance).

Definition VoltageSource_init (a b : Node) (voltage : num) (name : string) : Component :=
  mkComponent a b
    (name_or (name_or name ("V(" +:+ num_str voltage +:+ ")")) "VoltageSource")
    (VoltageSource voltage).

Definition LED_init (a b : Node) (r_on threshold : num) (name : string) : Component :=
  mkComponent a b (name_or name "LED") (LED r_on threshold false).

(** isinstance tests *)
Definition is_Wire (c : Component) : bool :=
  match c_kind c with Wire => true | _ => false end.
Definition is_Resistor (c : Component) : bool :=
  match c_kind c with Resistor _ => true | _ => false end.
Definition is_VoltageSource (c : Component) : bool :=
  match c_kind c with VoltageSource _ => true | _ => false end.
Definition is_LED (c : Component) : bool :=
  match c_kind c with LED _ _ _ => true | _ => false end.

(** LED.effective_resistance *)
Definition effective_resistance (r_on : num) (on : bool) : num :=
  if on then r_on else r_off.

(** [led.on = v]; only an LED has the attribute read by the solver. *)
Definition set_on (v : bool) (c : Component) : Component :=
  match c_kind c with
  | LED r t _ => mkComponent (c_a c) (c_b c) (c_name c) (LED r t v)
  | _ => c
  end.

Definition get_on (c : Component) : bool :=
  match c_kind c with
  | LED _ _ on => on
  | _ => false
  end.

(** The heap of component objects; [deref] follows a reference. *)
Definition deref (heap : list Component) (l : loc) : Component := heap !!! l.

(** Allocation of a new object. *)
Definition new (c : Component) (heap : list Component) : loc * list Component :=
  (length heap, heap ++ [c]).

(** ** UnionFind *)

(** [parent.setdefault(x, x)] *)
Definition setdefault (parent : gmap Node Node) (x : Node) : gmap Node Node :=
  match parent !! x with
  | Some _ => parent
  | None => <[x := x]> parent
  end.

(** UnionFind.find; [depth] is the recursion depth still available. *)
Fixpoint find (depth : nat) (parent : gmap Node Node) (x : Node)
  : result (Node * gmap Node Node) :=
  match depth with
  | 0 => Raise RecursionError
  | S depth' =>
      let parent1 := setdefault parent x in
      let p := default x (parent1 !! x) in
      if decide (p ≠ x) then
        '(r, parent2) ← find depth' parent1 p;
        Ok (r, <[x := r]> parent2)
      else Ok (p, parent1)
  end.

(** UnionFind.union *)
Definition union (depth : nat) (parent : gmap Node Node) (a b : Node)
  : result (gmap Node Node) :=
  '(pa, parent1) ← find depth parent a;
  '(pb, parent2) ← find depth parent1 b;
  Ok (if decide (pa ≠ pb) then <[pb := pa]> parent2 else parent2).

(** ** compute_lumps *)

Definition lump_wire (depth : nat) (heap : list Component)
    (parent : gmap Node Node) (l : loc) : result (gmap Node Node) :=
  let c := deref heap l in
  if is_Wire c then union depth parent (c_a c) (c_b c) else Ok parent.

Definition lump_index (depth : nat)
    (s : gmap Node Node * gmap Node nat * gmap Node nat) (n : Node)
  : result (gmap Node Node * gmap Node nat * gmap Node nat) :=
  let '(parent, index, mapping) := s in
  '(root, parent') ← find depth parent n;
  let index' :=
    match index !! root with
    | Some _ => index
    | None => <[root := size index]> index
    end in
  i ← getitem KeyError index' root;
  Ok (parent', index', <[n := i]> mapping).

(** [nodes] is iterated twice, in the same order.  The recursion depth
    given to [find] is one more than the number of components; it is never
    exhausted (see [compute_lumps_spec]). *)
Definition compute_lumps (nodes : list Node) (heap : list Component)
    (components : list loc) : result (gmap Node nat * nat) :=
  let depth := S (length components) in
  let parent0 := foldl setdefault ∅ nodes in
  parent1 ← for_each (lump_wire depth heap) components parent0;
  '(_, index, mapping) ← for_each (lump_index depth) nodes (parent1, ∅, ∅);
  Ok (mapping, size index).

(** ** Circuit *)

(** A circuit with the objects it refers to: [components] is the list
    attribute of the Circuit object, [heap] holds the component objects. *)
Record World : Type := mkWorld {
  heap : list Component;
  components : list loc
}.

(** Circuit.add *)
Definition Circuit_add (w : World) (comp : loc) : World :=
  mkWorld (heap w) (components w ++ [comp]).

(** Circuit.nodes *)
Definition Circuit_nodes (w : World) : gset Node :=
  foldl (λ n l, n ∪ {[c_a (deref (heap w) l)]} ∪ {[c_b (deref (heap w) l)]})
        ∅ (components w).

(** ** Solver *)

Record Solver : Type := mkSolver {
  ground : Node;
  node_map : gmap Node nat;
  num_nodes : nat;
  ground_idx : nat
}.

(** Solver.__init__ *)
Definition Solver_init (w : World) (ground : Node) : result Solver :=
  '(node_map, num_nodes) ←
     compute_lumps (elements (Circuit_nodes w)) (heap w) (components w);
  ground_idx ← getitem KeyError node_map ground;
  Ok (mkSolver ground node_map num_nodes ground_idx).

Definition zeros (n : nat) : list num := replicate n nzero.
Definition zeros2 (n : nat) : list (list num) := replicate n (zeros n).

(** [A[i, j] = f(A[i, j])] *)
Definition mat_update (f : num → num) (i j : nat) (A : list (list num))
  : result (list (list num)) :=
  row ← getitem IndexError A i;
  v ← getitem IndexError row j;
  Ok (<[i := <[j := f v]> row]> A).

(** [z[i] = v] *)
Definition vec_set (i : nat) (v : num) (z : list num) : result (list num) :=
  if decide (i < length z) then Ok (<[i := v]> z) else Raise IndexError.

(** Python's [x / y] on Python numbers. *)
Definition py_div (x y : num) : result num :=
  if is_zero y then Raise ZeroDivisionError else Ok (ndiv x y).

(** [x / y] where [x] is a Python float when [x_py] holds and a NumPy
    scalar otherwise; NumPy's division does not raise. *)
Definition mixed_div (x_py : bool) (x y : num) : result num :=
  if x_py then py_div x y else Ok (ndiv x y).

Definition enumerate {A} (l : list A) : list (nat * A) :=
  zip (seq 0 (length l)) l.

(** The filter [[c for c in components if isinstance(c, VoltageSource)]]. *)
Definition voltage_sources (w : World) : list loc :=
  filter (λ l, is_VoltageSource (deref (heap w) l)) (components w).

Definition led_list (w : World) : list loc :=
  filter (λ l, is_LED (deref (heap w) l)) (components w).

(** The loop that fills [node_index] in build_matrix. *)
Definition index_nodes (num_nodes ground_idx : nat) : gmap nat nat :=
  (foldl (λ '(node_index, idx) n,
            if decide (n = ground_idx) then (node_index, idx)
            else (<[n := idx]> node_index, S idx))
         (∅, 0) (seq 0 num_nodes)).1.

Section build_matrix.
Variable s : Solver.
Variable node_index : gmap nat nat.

(** The inner function add_conductance. *)
Definition add_conductance (i j : nat) (g : num) (A : list (list num))
  : result (list (list num)) :=
  A1 ← (if decide (i ≠ ground_idx s) then
          ii ← getitem KeyError node_index i;
          mat_update (λ v, nadd v g) ii ii A
        else Ok A);
  A2 ← (if decide (j ≠ ground_idx s) then
          jj ← getitem KeyError node_index j;
          mat_update (λ v, nadd v g) jj jj A1
        else Ok A1);
  if decide (i ≠ ground_idx s ∧ j ≠ ground_idx s) then
    ii ← getitem KeyError node_index i;
    jj ← getitem KeyError node_index j;
    A3 ← mat_update (λ v, nsub v g) ii jj A2;
    mat_update (λ v, nsub v g) jj ii A3
  else Ok A2.

(** Body of [for comp in self.circuit.components]. *)
Definition stamp_component (hp : list Component) (A : list (list num))
    (l : loc) : result (list (list num)) :=
  let comp := deref hp l in
  a ← getitem KeyError (node_map s) (c_a comp);
  b ← getitem KeyError (node_map s) (c_b comp);
  match c_kind comp with
  | Resistor resistance =>
      g ← py_div none resistance;
      add_conductance a b g A
  | LED r_on _ on =>
      g ← py_div none (effective_resistance r_on on);
      add_conductance a b g A
  | _ => Ok A
  end.

(** Body of [for k, vs in enumerate(voltage_sources)]. *)
Definition stamp_source (hp : list Component) (N : nat)
    (Az : list (list num) * list num) (kvs : nat * loc)
  : result (list (list num) * list num) :=
  let '(A, z) := Az in
  let '(k, l) := kvs in
  let vs := deref hp l in
  a ← getitem KeyError (node_map s) (c_a vs);
  b ← getitem KeyError (node_map s) (c_b vs);
  let row := N + k in
  A1 ← (if decide (a ≠ ground_idx s) then
          ia ← getitem KeyError node_index a;
          A' ← mat_update (λ _, none) row ia A;
          ia' ← getitem KeyError node_index a;
          mat_update (λ _, none) ia' row A'
        else Ok A);
  A2 ← (if decide (b ≠ ground_idx s) then
          ib ← getitem KeyError node_index b;
          A' ← mat_update (λ _, nmone) row ib A1;
          ib' ← getitem KeyError node_index b;
          mat_update (λ _, nmone) ib' row A'
        else Ok A1);
  match c_kind vs with
  | VoltageSource voltage => z' ← vec_set row voltage z; Ok (A2, z')
  | _ => Raise AttributeError
  end.
End build_matrix.

(** Solver.build_matrix *)
Definition build_matrix (s : Solver) (w : World)
  : result (list (list num) * list num * gmap nat nat) :=
  let N := num_nodes s - 1 in
  let vss := voltage_sources w in
  let M := length vss in
  let size := N + M in
  let node_index := index_nodes (num_nodes s) (ground_idx s) in
  A ← for_each (stamp_component s node_index (heap w)) (components w) (zeros2 size);
  '(A', z) ← for_each (stamp_source s node_index (heap w) N) (enumerate vss)
                      (A, zeros size);
  Ok (A', z, node_index).

(** [V = {ground_idx: 0.0}; for n, idx in node_index.items(): V[n] = x[idx]] *)
Definition potentials (s : Solver) (node_index : gmap nat nat) (x : list num)
  : result (gmap nat num) :=
  for_each (λ V '(n, idx), v ← getitem IndexError x idx; Ok (<[n := v]> V))
           (map_to_list node_index) {[ground_idx s := nzero]}.

(** [V[self.node_map[n]]] *)
Definition potential_at (s : Solver) (V : gmap nat num) (n : Node) : result num :=
  cls ← getitem KeyError (node_map s) n;
  getitem KeyError V cls.

(** Body of [for led in leds]: the new state is stored in the object and
    appended to [states]. *)
Definition update_led (s : Solver) (V : gmap nat num)
    (st : list Component * list bool) (l : loc)
  : result (list Component * list bool) :=
  let '(hp, states) := st in
  let led := deref hp l in
  va ← potential_at s V (c_a led);
  vb ← potential_at s V (c_b led);
  match c_kind led with
  | LED _ threshold _ =>
      let on := nge (nsub va vb) threshold in
      Ok (<[l := set_on on led]> hp, states ++ [on])
  | _ => Raise AttributeError
  end.

(** One pass of the loop body of solve, up to the comparison of states. *)
Definition step (s : Solver) (leds : list loc) (w : World)
  : result (gmap nat num * list num * list bool * World) :=
  '(A, z, node_index) ← build_matrix s w;
  x ← from_option Ok (Raise LinAlgError) (linalg_solve A z);
  V ← potentials s node_index x;
  '(hp, states) ← for_each (update_led s V) leds (heap w, []);
  Ok (V, x, states, mkWorld hp (components w)).

(** What the loop of solve leaves behind: [voltages] and [x] (unset when
    the body never ran), and the circuit.  [lo_iters] and [lo_stable] are
    not Python values: they count the passes made and tell whether the
    loop was left through [break]. *)
Record LoopOut : Type := mkLoopOut {
  lo_cur : option (gmap nat num * list num);
  lo_world : World;
  lo_iters : nat;
  lo_stable : bool
}.

(** [for _ in range(max_iter)] *)
Fixpoint loop (s : Solver) (leds : list loc) (n : nat) (w : World)
    (last_states : option (list bool))
    (cur : option (gmap nat num * list num)) (passes : nat) : result LoopOut :=
  match n with
  | 0 => Ok (mkLoopOut cur w passes false)
  | S n' =>
      '(V, x, states, w') ← step s leds w;
      if decide (Some states = last_states) then
        Ok (mkLoopOut (Some (V, x)) w' (S passes) true)
      else loop s leds n' w' (Some states) (Some (V, x)) (S passes)
  end.

(** [list.index]: position of the first element that is [comp]. *)
Definition list_index (comp : loc) (l : list loc) : result nat :=
  match list_find (λ c, c = comp) l with
  | Some (i, _) => Ok i
  | None => Raise ValueError
  end.

(** Body of the final [for comp in self.circuit.components]. *)
Definition record_current (s : Solver) (w : World)
    (cur : option (gmap nat num * list num))
    (currents : gmap string num) (l : loc) : result (gmap string num) :=
  let comp := deref (heap w) l in
  ca ← getitem KeyError (node_map s) (c_a comp);
  '(V, x) ← from_option Ok (Raise TypeError) cur;
  va ← getitem KeyError V ca;
  cb ← getitem KeyError (node_map s) (c_b comp);
  vb ← getitem KeyError V cb;
  let both_ground := bool_decide (ca = ground_idx s ∧ cb = ground_idx s) in
  match c_kind comp with
  | Resistor resistance =>
      i ← mixed_div both_ground (nsub va vb) resistance;
      Ok (<[c_name comp := i]> currents)
  | LED r_on _ on =>
      let R := effective_resistance r_on on in
      i ← (if nlt R r_cut then mixed_div both_ground (nsub va vb) R
           else Ok nzero);
      Ok (<[c_name comp := i]> currents)
  | VoltageSource _ =>
      idx ← list_index l (voltage_sources w);
      let N := num_nodes s - 1 in
      i ← getitem IndexError x (N + idx);
      Ok (<[c_name comp := i]> currents)
  | Wire => Ok currents
  end.

(** Solver.solve: returns [(self.voltages, self.currents)]; the circuit
    as the call leaves it is returned with them. *)
Definition solve (s : Solver) (max_iter : nat) (w : World)
  : result (option (gmap nat num) * gmap string num * World) :=
  let leds := led_list w in
  out ← loop s leds max_iter w None None 0;
  currents ← for_each (record_current s (lo_world out) (lo_cur out))
                      (components (lo_world out)) ∅;
  Ok (fst <$> lo_cur out, currents, lo_world out).

(** ** GridCircuit *)

Record GridCircuit : Type := mkGrid {
  width : Z;
  height : Z;
  grid_components : list loc
}.

Definition in_bounds (g : GridCircuit) (pos : Node) : bool :=
  let '(x, y) := pos in
  bool_decide (0 ≤ x ∧ x < width g ∧ 0 ≤ y ∧ y < height g)%Z.

(** GridCircuit.add *)
Definition GridCircuit_add (hp : list Component) (g : GridCircuit) (comp : loc)
  : result GridCircuit :=
  if in_bounds g (c_a (deref hp comp)) && in_bounds g (c_b (deref hp comp))
  then Ok (mkGrid (width g) (height g) (grid_components g ++ [comp]))
  else Raise ValueError.

(** GridCircuit.clear *)
Definition GridCircuit_clear (g : GridCircuit) : GridCircuit :=
  mkGrid (width g) (height g) [].

(** GridCircuit.to_circuit *)
Definition to_circuit (hp : list Component) (g : GridCircuit) : World :=
  foldl Circuit_add (mkWorld hp []) (grid_components g).

(** The comprehension
    [{pos: voltages[idx] for pos, idx in solver.node_map.items()}]. *)
Definition cell_voltages (voltages : option (gmap nat num))
    (node_map : gmap Node nat) : result (gmap Node num) :=
  for_each (λ cell '(pos, idx),
              v ← (V ← from_option Ok (Raise TypeError) voltages;
                   getitem KeyError V idx);
              Ok (<[pos := v]> cell))
           (map_to_list node_map) ∅.

(** GridCircuit.solve; the default [max_iter] of Solver.solve is 10. *)
Definition default_max_iter : nat := 10.

Definition GridCircuit_solve (hp : list Component) (g : GridCircuit)
    (ground : Node)
  : result (gmap Node num * gmap string num * option Solver * list Component) :=
  let circuit := to_circuit hp g in
  if decide (ground ∉ Circuit_nodes circuit) then Ok (∅, ∅, None, hp)
  else
    solver ← Solver_init circuit ground;
    '(voltages, currents, w) ← solve solver default_max_iter circuit;
    cell_volt ← cell_voltages voltages (node_map solver);
    Ok (cell_volt, currents, Some solver, heap w).

End Model.

(** * Properties *)

(** ** The exception monad and [for_each] *)

Lemma bind_Ok {A C} (m : result A) (f : A → result C) (v : C) :
  m ≫= f = Ok v ↔ ∃ x, m = Ok x ∧ f x = Ok v.
Proof.
  destruct m as [x|e]; simpl; split.
  - intros Hf. by exists x.
  - by intros (y & [= ->] & Hf).
  - done.
  - by intros (y & Hy & _).
Qed.

Lemma getitem_Ok {K A} `{Lookup K A M} (e : exn) (m : M) (k : K) (v : A) :
  getitem e m k = Ok v ↔ m !! k = Some v.
Proof. unfold getitem. destruct (m !! k); naive_solver. Qed.

Lemma from_option_Ok {A} (e : exn) (o : option A) (v : A) :
  from_option Ok (Raise e) o = Ok v ↔ o = Some v.
Proof. destruct o; naive_solver. Qed.

(** Splits a successful sequence of binds into its steps. *)
Ltac ok_inv :=
  repeat match goal with
    | H : _ ≫= _ = Ok _ |- _ =>
        let x := fresh "x" in
        let E := fresh "E" in
        apply bind_Ok in H as (x & E & H)
    | H : getitem _ _ _ = Ok _ |- _ => apply getitem_Ok in H
    | H : from_option Ok (Raise _) _ = Ok _ |- _ => apply from_option_Ok in H
    | H : Ok _ = Ok _ |- _ => injection H as H
    | H : Raise _ = Ok _ |- _ => discriminate H
    | x : (_ * _)%type |- _ => destruct x
    end.

Lemma for_each_cons {A S} (f : S → A → result S) (x : A) (l : list A) (s : S) :
  for_each f (x :: l) s = f s x ≫= for_each f l.
Proof. done. Qed.

Lemma for_each_app {A S} (f : S → A → result S) (l1 l2 : list A) (s : S) :
  for_each f (l1 ++ l2) s = for_each f l1 s ≫= for_each f l2.
Proof.
  revert s. induction l1 as [|x l1 IH]; intros s; simpl; [done|].
  destruct (f s x) as [s'|e]; simpl; [apply IH | done].
Qed.

(** Invariant rule for a loop that ran to its end. *)
Lemma for_each_inv {A S} (P : S → Prop) (f : S → A → result S)
    (l : list A) (s s' : S) :
  P s →
  (∀ t x t', x ∈ l → P t → f t x = Ok t' → P t') →
  for_each f l s = Ok s' → P s'.
Proof.
  revert s. induction l as [|x l IH]; intros s Hs Hf Hl; simpl in Hl.
  - by injection Hl as <-.
  - apply bind_Ok in Hl as (t & Ht & Hl).
    apply (IH t); [|intros ? y ? Hy; apply Hf; by right|done].
    apply (Hf s x t); [by left|done..].
Qed.

(** ** Component objects and LED updates *)

Section Components.
Context {B : Backend}.
Implicit Types (c : Component) (hp : list Component) (l : loc) (w : World).

(** [erase c] forgets the state of an LED; two objects with the same
    erasure differ at most in [on]. *)
Definition erase (c : Component) : Component := set_on false c.

(** The heaps hold the same objects up to the state of the LEDs. *)
Definition frame_eq (hp hp' : list Component) : Prop :=
  erase <$> hp' = erase <$> hp.

Lemma erase_set_on v c : erase (set_on v c) = erase c.
Proof. unfold erase, set_on. destruct c as [a b n []]; done. Qed.

Lemma set_on_get_on c : set_on (get_on c) c = c.
Proof. unfold set_on, get_on. destruct c as [a b n []]; done. Qed.

Lemma get_on_set_on v c : is_LED c → get_on (set_on v c) = v.
Proof. unfold set_on, get_on, is_LED. destruct c as [a b n []]; naive_solver. Qed.

Lemma is_LED_set_on v c : is_LED (set_on v c) = is_LED c.
Proof. unfold set_on, is_LED. destruct c as [a b n []]; done. Qed.

Lemma erase_inj c c' : erase c = erase c' → get_on c = get_on c' → c = c'.
Proof.
  unfold erase, set_on, get_on.
  destruct c as [a b n []], c' as [a' b' n' []]; naive_solver.
Qed.

Lemma erase_fields c c' :
  erase c = erase c' →
  c_a c = c_a c' ∧ c_b c = c_b c' ∧ c_name c = c_name c' ∧
  is_Wire c = is_Wire c' ∧ is_Resistor c = is_Resistor c' ∧
  is_VoltageSource c = is_VoltageSource c' ∧ is_LED c = is_LED c'.
Proof.
  unfold erase, set_on, is_Wire, is_Resistor, is_VoltageSource, is_LED.
  destruct c as [a b n []], c' as [a' b' n' []]; naive_solver.
Qed.

Lemma erase_not_LED c c' : erase c = erase c' → is_LED c = false → c = c'.
Proof.
  unfold erase, set_on, is_LED.
  destruct c as [a b n []], c' as [a' b' n' []]; naive_solver.
Qed.

Lemma deref_lookup hp l c : hp !! l = Some c → deref hp l = c.
Proof. intros Hl. unfold deref. by rewrite list_lookup_total_alt, Hl. Qed.

Lemma deref_ge hp l : length hp ≤ l → deref hp l = inhabitant.
Proof.
  intros Hl. unfold deref.
  apply lookup_ge_None_2 in Hl. by rewrite list_lookup_total_alt, Hl.
Qed.

Lemma deref_not_Wire_lt hp l : is_Wire (deref hp l) = false → l < length hp.
Proof.
  intros Hw. destruct (decide (l < length hp)) as [|Hge]; [done|].
  rewrite deref_ge in Hw by lia. done.
Qed.

Lemma deref_LED_lt hp l : is_LED (deref hp l) → l < length hp.
Proof.
  intros Hl. apply deref_not_Wire_lt.
  unfold is_LED, is_Wire in *. by destruct (c_kind (deref hp l)).
Qed.

Lemma deref_insert hp l l' c :
  deref (<[l := c]> hp) l' =
  if decide (l = l' ∧ l < length hp) then c else deref hp l'.
Proof.
  unfold deref. case_decide as Hd.
  - destruct Hd as [<- Hl]. by rewrite list_lookup_total_insert_eq.
  - destruct (decide (l = l')) as [<-|Hne].
    + rewrite list_insert_ge; [done|lia].
    + by rewrite list_lookup_total_insert_ne.
Qed.

Lemma frame_eq_refl hp : frame_eq hp hp.
Proof. done. Qed.

Lemma frame_eq_trans hp1 hp2 hp3 :
  frame_eq hp1 hp2 → frame_eq hp2 hp3 → frame_eq hp1 hp3.
Proof. unfold frame_eq. congruence. Qed.

Lemma frame_eq_length hp hp' : frame_eq hp hp' → length hp' = length hp.
Proof. intros Hf. apply (f_equal length) in Hf. by rewrite !length_fmap in Hf. Qed.

Lemma frame_eq_deref hp hp' l :
  frame_eq hp hp' → erase (deref hp' l) = erase (deref hp l).
Proof.
  intros Hf. pose proof (frame_eq_length _ _ Hf) as Hlen.
  apply (f_equal (λ h, h !! l)) in Hf. rewrite !list_lookup_fmap in Hf.
  destruct (hp !! l) as [c|] eqn:Hc, (hp' !! l) as [c'|] eqn:Hc';
    simplify_eq/=.
  - by rewrite (deref_lookup _ _ _ Hc), (deref_lookup _ _ _ Hc').
  - apply lookup_ge_None in Hc, Hc'. by rewrite !deref_ge.
Qed.

Lemma frame_eq_insert hp l v :
  frame_eq hp (<[l := set_on v (deref hp l)]> hp).
Proof.
  unfold frame_eq. rewrite list_fmap_insert, erase_set_on.
  destruct (hp !! l) as [c|] eqn:Hc.
  - rewrite (deref_lookup _ _ _ Hc). apply list_insert_id.
    by rewrite list_lookup_fmap, Hc.
  - apply list_insert_ge. rewrite length_fmap. by apply lookup_ge_None.
Qed.

(** Equal up to LED states, and the same LED states: the same heap. *)
Lemma frame_eq_same hp hp' :
  frame_eq hp hp' →
  (∀ l, get_on (deref hp' l) = get_on (deref hp l)) →
  hp' = hp.
Proof.
  intros Hf Hon. pose proof (frame_eq_length _ _ Hf) as Hlen.
  apply list_eq. intros l.
  destruct (hp !! l) as [c|] eqn:Hc, (hp' !! l) as [c'|] eqn:Hc'.
  - f_equal. pose proof (frame_eq_deref _ _ l Hf) as He. specialize (Hon l).
    rewrite (deref_lookup _ _ _ Hc), (deref_lookup _ _ _ Hc') in He, Hon.
    by apply erase_inj.
  - apply lookup_ge_None in Hc'. apply lookup_lt_Some in Hc. lia.
  - apply lookup_ge_None in Hc. apply lookup_lt_Some in Hc'. lia.
  - done.
Qed.

(** The filters over the component list see kinds only. *)
Lemma filter_frame (P : Component → bool) hp hp' (ls : list loc) :
  (∀ c c', erase c = erase c' → P c = P c') →
  frame_eq hp hp' →
  filter (λ l, P (deref hp' l)) ls = filter (λ l, P (deref hp l)) ls.
Proof.
  intros HP Hf. apply list_filter_iff. intros l.
  by rewrite (HP _ _ (frame_eq_deref _ _ l Hf)).
Qed.

Lemma voltage_sources_frame w w' :
  frame_eq (heap w) (heap w') → components w' = components w →
  voltage_sources w' = voltage_sources w.
Proof.
  intros Hf Hc. unfold voltage_sources. rewrite Hc.
  apply filter_frame; [|done]. intros c c' He. apply erase_fields in He. tauto.
Qed.

Lemma led_list_frame w w' :
  frame_eq (heap w) (heap w') → components w' = components w →
  led_list w' = led_list w.
Proof.
  intros Hf Hc. unfold led_list. rewrite Hc.
  apply filter_frame; [|done]. intros c c' He. apply erase_fields in He. tauto.
Qed.

Lemma elem_of_led_list w l :
  l ∈ led_list w ↔ l ∈ components w ∧ is_LED (deref (heap w) l).
Proof. unfold led_list. by rewrite list_elem_of_filter, (comm and). Qed.

(** The state an LED object is given by one pass, as a function of the
    object and the potentials. *)
Definition next_on (s : Solver) (V : gmap nat num) (c : Component) : result bool :=
  va ← potential_at s V (c_a c);
  vb ← potential_at s V (c_b c);
  match c_kind c with
  | LED _ threshold _ => Ok (nge (nsub va vb) threshold)
  | _ => Raise AttributeError
  end.

Lemma next_on_erase s V c c' :
  erase c = erase c' → next_on s V c = next_on s V c'.
Proof.
  unfold erase, set_on, next_on.
  destruct c as [a b n []], c' as [a' b' n' []]; naive_solver.
Qed.

Lemma next_on_is_LED s V c v : next_on s V c = Ok v → is_LED c.
Proof.
  unfold next_on, is_LED. intros Hn. ok_inv.
  by destruct (c_kind c).
Qed.

Lemma update_led_next_on s V hp states l :
  update_led s V (hp, states) l =
  on ← next_on s V (deref hp l);
  Ok (<[l := set_on on (deref hp l)]> hp, states ++ [on]).
Proof.
  unfold update_led, next_on.
  destruct (potential_at s V (c_a (deref hp l))); simpl; [|done].
  destruct (potential_at s V (c_b (deref hp l))); simpl; [|done].
  by destruct (c_kind (deref hp l)).
Qed.

(** The LED states as the heap holds them. *)
Definition states_of (hp : list Component) (leds : list loc) : list bool :=
  (λ l, get_on (deref hp l)) <$> leds.

(** What the loop over [leds] does: it changes the state of the listed
    LEDs and nothing else, each to its threshold test, and [states]
    collects the states it stored. *)
Lemma update_leds_spec s V leds hp states hp' states' :
  for_each (update_led s V) leds (hp, states) = Ok (hp', states') →
  frame_eq hp hp' ∧
  (∀ l, l ∈ leds → next_on s V (deref hp l) = Ok (get_on (deref hp' l))) ∧
  (∀ l, l ∉ leds → deref hp' l = deref hp l) ∧
  states' = states ++ states_of hp' leds.
Proof.
  revert hp states. induction leds as [|l leds IH]; intros hp states Hrun.
  - simpl in Hrun. injection Hrun as <- <-.
    split_and!; [done|by intros ? ?%elem_of_nil|done|].
    by rewrite app_nil_r.
  - rewrite for_each_cons in Hrun.
    apply bind_Ok in Hrun as ([hp1 st1] & Hl & Hrun).
    rewrite update_led_next_on in Hl.
    apply bind_Ok in Hl as (on & Hon & [= <- <-]).
    apply IH in Hrun as (Hf & Hin & Hout & ->).
    pose proof (frame_eq_insert hp l on) as Hf1.
    pose proof (next_on_is_LED _ _ _ _ Hon) as Hled.
    pose proof (deref_LED_lt _ _ Hled) as Hlt.
    assert (Hnext : ∀ l', next_on s V (deref (<[l:=set_on on (deref hp l)]> hp) l')
                          = next_on s V (deref hp l')).
    { intros l'. apply next_on_erase, frame_eq_deref, Hf1. }
    assert (Hl' : get_on (deref hp' l) = on).
    { destruct (decide (l ∈ leds)) as [Hi|Hni].
      - specialize (Hin l Hi). rewrite Hnext, Hon in Hin. by injection Hin.
      - rewrite (Hout l Hni), deref_insert, decide_True by done.
        by apply get_on_set_on. }
    split_and!.
    + by eapply frame_eq_trans.
    + intros l' [->|Hi]%elem_of_cons.
      * by rewrite Hon, Hl'.
      * by rewrite <- Hnext, (Hin l' Hi).
    + intros l' Hni. apply not_elem_of_cons in Hni as [Hne Hni].
      rewrite (Hout l' Hni), deref_insert, decide_False; [done|].
      by intros [-> _].
    + unfold states_of at 2. simpl. by rewrite Hl', <- app_assoc.
Qed.

(** A pass whose collected states are those the heap already held leaves
    the heap as it was. *)
Lemma update_leds_same s V leds hp hp' states' :
  for_each (update_led s V) leds (hp, []) = Ok (hp', states') →
  states' = states_of hp leds →
  hp' = hp.
Proof.
  intros Hrun Hst. destruct (update_leds_spec _ _ _ _ _ _ _ Hrun)
    as (Hf & Hin & Hout & Hst').
  apply frame_eq_same; [done|]. intros l.
  destruct (decide (l ∈ leds)) as [Hi|Hni]; [|by rewrite Hout].
  simpl in Hst'. rewrite Hst' in Hst. unfold states_of in Hst.
  apply list_elem_of_lookup in Hi as [i Hi].
  apply (f_equal (λ st, st !! i)) in Hst.
  rewrite !list_lookup_fmap, Hi in Hst. simpl in Hst. by injection Hst.
Qed.

End Components.

(** ** The loop of solve *)

Section Loop.
Context {B : Backend}.
Implicit Types (s : Solver) (w : World) (leds : list loc).

Lemma step_Ok s leds w V x states w' :
  step s leds w = Ok (V, x, states, w') ↔
  ∃ A z node_index hp,
    build_matrix s w = Ok (A, z, node_index) ∧
    linalg_solve A z = Some x ∧
    potentials s node_index x = Ok V ∧
    for_each (update_led s V) leds (heap w, []) = Ok (hp, states) ∧
    w' = mkWorld hp (components w).
Proof.
  unfold step. split.
  - intros Hs. ok_inv. subst. eauto 10.
  - intros (A & z & ni & hp & -> & Hx & HV & Hu & ->). simpl.
    rewrite Hx. simpl. rewrite HV. simpl. rewrite Hu. done.
Qed.

(** A pass keeps the component list and changes LED states only; the
    states it reports are those it leaves in the heap. *)
Lemma step_frame s leds w V x states w' :
  step s leds w = Ok (V, x, states, w') →
  components w' = components w ∧
  frame_eq (heap w) (heap w') ∧
  states = states_of (heap w') leds.
Proof.
  intros (A & z & ni & hp & _ & _ & _ & Hu & ->)%step_Ok.
  apply update_leds_spec in Hu as (Hf & _ & _ & Hst). done.
Qed.

(** build_matrix reads the component list and the heap only. *)
Lemma step_same_world s leds w V x states w' :
  step s leds w = Ok (V, x, states, w') →
  states = states_of (heap w) leds →
  w' = w.
Proof.
  intros (A & z & ni & hp & _ & _ & _ & Hu & ->)%step_Ok Hst.
  apply update_leds_same in Hu; [|done]. subst hp. by destruct w.
Qed.

(** The world before pass [k + 1], when no exception was raised and the
    loop was not left before. *)
Fixpoint world_after (s : Solver) (leds : list loc) (k : nat) (w : World)
  : result World :=
  match k with
  | 0 => Ok w
  | S k' =>
      w1 ← world_after s leds k' w;
      '(_, _, _, w2) ← step s leds w1;
      Ok w2
  end.

Lemma world_after_S s leds k w :
  world_after s leds (S k) w =
  '(_, _, _, w1) ← step s leds w; world_after s leds k w1.
Proof.
  revert w. induction k as [|k IH]; intros w.
  - simpl. destruct (step s leds w) as [[[[??]?]?]|]; done.
  - change (world_after s leds (S (S k)) w)
      with (w1 ← world_after s leds (S k) w;
            '(_, _, _, w2) ← step s leds w1; Ok w2).
    rewrite IH. destruct (step s leds w) as [[[[??]?] w1]|]; [|done].
    done.
Qed.

Lemma loop_S s leds n w last cur passes :
  loop s leds (S n) w last cur passes =
  '(V, x, states, w') ← step s leds w;
  if decide (Some states = last) then
    Ok (mkLoopOut (Some (V, x)) w' (S passes) true)
  else loop s leds n w' (Some states) (Some (V, x)) (S passes).
Proof. done. Qed.

(** The loop makes at most [n] passes; left without [break] it made all
    of them; what it returns is the outcome of the last pass made. *)
Lemma loop_spec s leds n w last cur passes out :
  loop s leds n w last cur passes = Ok out →
  ∃ k, k ≤ n ∧ lo_iters out = passes + k ∧
       (lo_stable out = false → k = n) ∧
       match k with
       | 0 => lo_cur out = cur ∧ lo_world out = w
       | S k' => ∃ w1 V x states,
           world_after s leds k' w = Ok w1 ∧
           step s leds w1 = Ok (V, x, states, lo_world out) ∧
           lo_cur out = Some (V, x)
       end.
Proof.
  revert w last cur passes. induction n as [|n IH]; intros w last cur passes Hl.
  - simpl in Hl. injection Hl as <-. exists 0. simpl. split_and!; [lia..|done|done].
  - simpl in Hl. apply bind_Ok in Hl as ([[[V x] states] w'] & Hs & Hl).
    case_decide as Hd.
    + injection Hl as <-. exists 1. simpl. split_and!; [lia..|done|].
      exists w, V, x, states. done.
    + apply IH in Hl as (k & Hk & Hit & Hst & Hlast).
      exists (S k). split_and!; [lia..| |].
      * intros Hf. by rewrite (Hst Hf).
      * destruct k as [|k].
        -- destruct Hlast as [Hc Hw]. exists w, V, x, states.
           by rewrite Hw, Hc.
        -- destruct Hlast as (w1 & V1 & x1 & st1 & Hw1 & Hs1 & Hc1).
           exists w1, V1, x1, st1. split_and!; [|done..].
           rewrite world_after_S, Hs. done.
Qed.

Lemma world_after_frame s leds k w w1 :
  world_after s leds k w = Ok w1 →
  components w1 = components w ∧ frame_eq (heap w) (heap w1).
Proof.
  revert w1. induction k as [|k IH]; intros w1 Hk.
  - simpl in Hk. by injection Hk as <-.
  - simpl in Hk. apply bind_Ok in Hk as (w0 & Hw0 & Hk).
    apply bind_Ok in Hk as ([[[V x] st] w2] & Hs & [= <-]).
    apply IH in Hw0 as [Hc Hf]. apply step_frame in Hs as (Hc' & Hf' & _).
    split; [congruence|by eapply frame_eq_trans].
Qed.

Lemma loop_frame s leds n w last cur passes out :
  loop s leds n w last cur passes = Ok out →
  components (lo_world out) = components w ∧
  frame_eq (heap w) (heap (lo_world out)).
Proof.
  intros (k & _ & _ & _ & Hlast)%loop_spec. destruct k as [|k].
  - destruct Hlast as [_ ->]. done.
  - destruct Hlast as (w1 & V & x & st & Hw1 & Hs & _).
    apply world_after_frame in Hw1 as [Hc Hf].
    apply step_frame in Hs as (Hc' & Hf' & _).
    split; [congruence|by eapply frame_eq_trans].
Qed.

(** Left through [break], the loop ends on a world that one more pass
    maps to itself, with the same potentials and solution. *)
Lemma loop_stable s leds n w last cur passes out :
  loop s leds n w last cur passes = Ok out →
  lo_stable out = true →
  last = None ∨ last = Some (states_of (heap w) leds) →
  ∃ V x, lo_cur out = Some (V, x) ∧
         step s leds (lo_world out)
         = Ok (V, x, states_of (heap (lo_world out)) leds, lo_world out).
Proof.
  revert w last cur passes. induction n as [|n IH]; intros w last cur passes Hl Hst Hlast.
  - simpl in Hl. injection Hl as <-. done.
  - simpl in Hl. apply bind_Ok in Hl as ([[[V x] states] w'] & Hs & Hl).
    pose proof (step_frame _ _ _ _ _ _ _ Hs) as (_ & _ & Hstates).
    case_decide as Hd.
    + injection Hl as <-. simpl. exists V, x. split; [done|].
      destruct Hlast as [->| ->]; [done|]. injection Hd as Hd.
      assert (w' = w) as -> by (by eapply step_same_world).
      by rewrite Hd in Hs.
    + apply IH in Hl; [done..|]. right. by rewrite Hstates.
Qed.

Lemma loop_stable_ge_2 s leds n w cur passes out :
  loop s leds n w None cur passes = Ok out → lo_stable out = true → 2 ≤ n.
Proof.
  intros Hl Hst. destruct n as [|[|n]]; [| |lia].
  - simpl in Hl. injection Hl as <-. done.
  - rewrite loop_S in Hl. apply bind_Ok in Hl as ([[[V x] states] w'] & Hs & Hl).
    rewrite decide_False in Hl by done. simpl in Hl. injection Hl as <-. done.
Qed.

(** From a world that a pass maps to itself, the loop breaks at its
    second pass. *)
Lemma loop_fixed s leds n w V x cur passes :
  step s leds w = Ok (V, x, states_of (heap w) leds, w) →
  loop s leds (S (S n)) w None cur passes
  = Ok (mkLoopOut (Some (V, x)) w (S (S passes)) true).
Proof.
  intros Hs. rewrite loop_S, Hs. cbn [mbind result_bind].
  rewrite decide_False by done. rewrite loop_S, Hs. cbn [mbind result_bind].
  by rewrite decide_True.
Qed.

End Loop.

(** ** Circuit and GridCircuit *)

Section Circuits.
Context {B : Backend}.
Implicit Types (w : World) (hp : list Component) (g : GridCircuit).

Lemma elem_of_Circuit_nodes w n :
  n ∈ Circuit_nodes w ↔
  ∃ l, l ∈ components w ∧
       (n = c_a (deref (heap w) l) ∨ n = c_b (deref (heap w) l)).
Proof.
  unfold Circuit_nodes.
  assert (Hgen : ∀ ls (acc : gset Node),
    n ∈ foldl (λ n l, n ∪ {[c_a (deref (heap w) l)]} ∪ {[c_b (deref (heap w) l)]})
              acc ls ↔
    n ∈ acc ∨ ∃ l, l ∈ ls ∧
      (n = c_a (deref (heap w) l) ∨ n = c_b (deref (heap w) l))).
  { induction ls as [|l ls IH]; intros acc; simpl.
    - split; [by left|]. intros [?|(l & Hl & _)]; [done|].
      by apply elem_of_nil in Hl.
    - rewrite IH. rewrite !elem_of_union, !elem_of_singleton. split.
      + intros [[[?| ->]| ->]|(l' & Hl' & Hn)]; [by left|right..].
        * exists l. split; [by left|by left].
        * exists l. split; [by left|by right].
        * exists l'. split; [by right|done].
      + intros [?|(l' & [->|Hl']%elem_of_cons & Hn)].
        * by left; left; left.
        * left. destruct Hn as [->| ->]; [left; by right|by right].
        * right. by exists l'. }
  rewrite Hgen. split; [|by right].
  by intros [?%elem_of_empty|?].
Qed.

Lemma to_circuit_eq hp g : to_circuit hp g = mkWorld hp (grid_components g).
Proof.
  unfold to_circuit.
  assert (Hgen : ∀ ls acc,
    foldl Circuit_add (mkWorld hp acc) ls = mkWorld hp (acc ++ ls)).
  { induction ls as [|l ls IH]; intros acc; simpl.
    - by rewrite app_nil_r.
    - unfold Circuit_add at 2. simpl. by rewrite IH, <- app_assoc. }
  apply Hgen.
Qed.

End Circuits.

(** ** The threshold rule, the iteration cap and the frame of solve *)

Section Claims.
Context {B : Backend}.
Implicit Types (s : Solver) (w : World) (leds : list loc) (c : Component).

(** The number of passes the loop of solve begins, whether or not one of
    them raises. *)
Fixpoint passes_begun (s : Solver) (leds : list loc) (n : nat) (w : World)
    (last_states : option (list bool)) : nat :=
  match n with
  | 0 => 0
  | S n' =>
      match step s leds w with
      | Ok (_, _, states, w') =>
          if decide (Some states = last_states) then 1
          else S (passes_begun s leds n' w' (Some states))
      | Raise _ => 1
      end
  end.

Lemma passes_begun_le s leds n w last : passes_begun s leds n w last ≤ n.
Proof.
  revert w last. induction n as [|n IH]; intros w last; simpl; [lia|].
  destruct (step s leds w) as [[[[V x] states] w']|e]; [|lia].
  case_decide; [lia|]. specialize (IH w' (Some states)). lia.
Qed.

Lemma loop_passes_begun s leds n w last cur passes out :
  loop s leds n w last cur passes = Ok out →
  lo_iters out = passes + passes_begun s leds n w last.
Proof.
  revert w last cur passes. induction n as [|n IH]; intros w last cur passes Hl.
  - simpl in Hl. injection Hl as <-. simpl. lia.
  - rewrite loop_S in Hl. simpl.
    destruct (step s leds w) as [[[[V x] states] w']|e]; [|done].
    cbn [mbind result_bind] in Hl. case_decide.
    + injection Hl as <-. simpl. lia.
    + apply IH in Hl. lia.
Qed.

Lemma erase_LED_kind c c' r t o :
  erase c' = erase c → c_kind c = LED r t o → c_kind c' = LED r t (get_on c').
Proof.
  unfold erase, set_on, get_on.
  destruct c as [a b n []], c' as [a' b' n' []]; naive_solver.
Qed.

(** In one pass, each listed LED is given the outcome of the comparison
    [(va - vb) >= threshold] on the potentials of this pass. *)
Lemma step_led_states s leds w V x states w' l :
  step s leds w = Ok (V, x, states, w') →
  l ∈ leds →
  ∃ r_on threshold on0 va vb,
    c_kind (deref (heap w) l) = LED r_on threshold on0 ∧
    potential_at s V (c_a (deref (heap w) l)) = Ok va ∧
    potential_at s V (c_b (deref (heap w) l)) = Ok vb ∧
    c_kind (deref (heap w') l) = LED r_on threshold (nge (nsub va vb) threshold).
Proof.
  intros (A & z & ni & hp & _ & _ & _ & Hu & ->)%step_Ok Hl.
  apply update_leds_spec in Hu as (Hf & Hin & _ & _). specialize (Hin l Hl).
  simpl. unfold next_on in Hin.
  apply bind_Ok in Hin as (va & Hva & Hin).
  apply bind_Ok in Hin as (vb & Hvb & Hin).
  destruct (c_kind (deref (heap w) l)) as [| | |r t o] eqn:Hk; try done.
  injection Hin as Hin. exists r, t, o, va, vb. split_and!; [done..|].
  rewrite Hin. eapply erase_LED_kind; [|done]. by apply frame_eq_deref.
Qed.

Lemma solve_Ok s n w voltages currents w' :
  solve s n w = Ok (voltages, currents, w') ↔
  ∃ out, loop s (led_list w) n w None None 0 = Ok out ∧
         for_each (record_current s (lo_world out) (lo_cur out))
                  (components (lo_world out)) ∅ = Ok currents ∧
         voltages = fst <$> lo_cur out ∧ w' = lo_world out.
Proof.
  unfold solve. split.
  - intros Hs. apply bind_Ok in Hs as (out & Hl & Hs).
    apply bind_Ok in Hs as (cs & Hc & [= <- <- <-]). by exists out.
  - intros (out & -> & Hc & -> & ->). simpl. by rewrite Hc.
Qed.


(** C10.  A call of solve that returns leaves the component list as it
    was, and every object with its endpoints, its name and its parameters;
    only the [on] attribute of an LED may differ. *)
Theorem solve_frame s max_iter w voltages currents w' :
  solve s max_iter w = Ok (voltages, currents, w') →
  components w' = components w ∧
  length (heap w') = length (heap w) ∧
  ∀ l, let c := deref (heap w) l in
       let c' := deref (heap w') l in
       c_a c' = c_a c ∧ c_b c' = c_b c ∧ c_name c' = c_name c ∧
       c_kind c' = match c_kind c with
                   | LED r_on threshold _ => LED r_on threshold (get_on c')
                   | k => k
                   end.
Proof.
  intros (out & Hl & _ & _ & ->)%solve_Ok.
  apply loop_frame in Hl as [Hc Hf]. split_and!; [done|by apply frame_eq_length|].
  intros l c c'. pose proof (frame_eq_deref _ _ l Hf) as He. fold c c' in He.
  clearbody c c'. unfold erase, set_on, get_on in *.
  destruct c as [a b n []], c' as [a' b' n' []]; naive_solver.
Qed.

(** C7, as amended.  When the loop of a call of solve was left because the
    LED states repeated, a second call on the circuit as the first left it
    returns the same potentials and the same currents, and leaves the
    circuit as it found it. *)
Theorem solve_twice_converged s max_iter w out voltages currents w' :
  loop s (led_list w) max_iter w None None 0 = Ok out →
  lo_stable out = true →
  solve s max_iter w = Ok (voltages, currents, w') →
  solve s max_iter w' = Ok (voltages, currents, w').
Proof.
  intros Hl Hst (out' & Hl' & Hc & -> & ->)%solve_Ok.
  rewrite Hl in Hl'. injection Hl' as <-.
  pose proof (loop_stable_ge_2 _ _ _ _ _ _ _ Hl Hst) as Hn.
  pose proof (loop_frame _ _ _ _ _ _ _ _ Hl) as [Hcs Hf].
  destruct (loop_stable _ _ _ _ _ _ _ _ Hl Hst) as (V & x & Hcur & Hs);
    [by left|].
  destruct max_iter as [|[|n]]; [lia..|].
  apply solve_Ok. exists (mkLoopOut (Some (V, x)) (lo_world out) 2 true).
  rewrite (led_list_frame _ _ Hf Hcs).
  split; [by apply loop_fixed|]. simpl. by rewrite Hcur in Hc |- *.
Qed.



(** C5.  GridCircuit.solve, given a ground node that is no endpoint of a
    component of the grid, returns empty mappings and no solver; it does
    not raise, and it leaves the objects alone. *)
Theorem grid_solve_missing_ground hp (g : GridCircuit) (ground : Node) :
  (∀ l, l ∈ grid_components g →
        ground ≠ c_a (deref hp l) ∧ ground ≠ c_b (deref hp l)) →
  GridCircuit_solve hp g ground = Ok (∅, ∅, None, hp).
Proof.
  intros Hg. unfold GridCircuit_solve. rewrite decide_True; [done|].
  rewrite to_circuit_eq, elem_of_Circuit_nodes. simpl.
  intros (l & Hl & Hn). destruct (Hg l Hl) as [Ha Hb]. by destruct Hn.
Qed.

End Claims.

(** ** UnionFind: parent pointers, roots and classes *)

Section UnionFind.
Implicit Types (p : gmap Node Node) (f : Node → Node) (x y r : Node)
  (ht : Node → nat).

(** The parent of [x]; a node without an entry is its own parent, which
    is what [setdefault] makes of it. *)
Definition par (p : gmap Node Node) (x : Node) : Node := default x (p !! x).

(** [root f x r]: following [f] from [x] ends in the fixed point [r]. *)
Inductive root (f : Node → Node) : Node → Node → Prop :=
  | root_self x : f x = x → root f x x
  | root_step x r : f x ≠ x → root f (f x) r → root f x r.

(** Heights that grow along the parent pointers, below a bound: there is
    no cycle and no path longer than [bound]. *)
Definition ranked (f : Node → Node) (ht : Node → nat) (bound : nat) : Prop :=
  (∀ x, f x ≠ x → ht x < ht (f x)) ∧ ∀ x, ht x ≤ bound.

(** Two nodes are in the same class when they have the same root. *)
Definition same (f : Node → Node) (x y : Node) : Prop :=
  ∃ r, root f x r ∧ root f y r.

(** [g] comes from [f] by path compression: a pointer is kept or it is
    moved to the root of its node. *)
Definition compressed (f g : Node → Node) : Prop :=
  ∀ y, g y = f y ∨ (f y ≠ y ∧ root f y (g y)).

Lemma root_ext f g x r : (∀ y, f y = g y) → root f x r → root g x r.
Proof.
  intros Hfg. induction 1 as [x Hx|x r Hx _ IH].
  - apply root_self. by rewrite <- Hfg.
  - apply root_step; by rewrite <- Hfg.
Qed.

Lemma root_fixed f x r : root f x r → f r = r.
Proof. by induction 1. Qed.

Lemma root_functional f x r r' : root f x r → root f x r' → r = r'.
Proof.
  induction 1 as [x Hx|x r Hx _ IH]; inversion 1; subst; try done.
  by apply IH.
Qed.

Lemma root_ht f ht bound x r : ranked f ht bound → root f x r → ht x ≤ ht r.
Proof.
  intros [Hht _]. induction 1 as [x Hx|x r Hx _ IH]; [done|].
  specialize (Hht x Hx). lia.
Qed.

Lemma root_total f ht bound x : ranked f ht bound → ∃ r, root f x r.
Proof.
  intros [Hht Hb].
  remember (bound - ht x) as d eqn:Hd. revert x Hd.
  induction d as [d IH] using lt_wf_ind. intros x ->.
  destruct (decide (f x = x)) as [Hx|Hx].
  - exists x. by apply root_self.
  - destruct (IH (bound - ht (f x))) with (x := f x) as [r Hr]; [|done|].
    + specialize (Hht x Hx). specialize (Hb (f x)). lia.
    + exists r. by apply root_step.
Qed.

Lemma root_root f x r : root f x r → root f r r.
Proof. intros Hr. apply root_self. by eapply root_fixed. Qed.

Lemma same_refl f ht bound x : ranked f ht bound → same f x x.
Proof. intros Hrk. destruct (root_total f ht bound x Hrk) as [r Hr]. by exists r. Qed.

Lemma same_sym f x y : same f x y → same f y x.
Proof. intros (r & ? & ?). by exists r. Qed.

Lemma same_trans f x y z : same f x y → same f y z → same f x z.
Proof.
  intros (r & Hx & Hy) (r' & Hy' & Hz).
  rewrite <- (root_functional _ _ _ _ Hy Hy') in Hz. by exists r.
Qed.

Lemma compressed_refl f g : (∀ y, g y = f y) → compressed f g.
Proof. intros Hfg y. by left. Qed.

Lemma compressed_ranked f g ht bound :
  ranked f ht bound → compressed f g → ranked g ht bound.
Proof.
  intros Hrk Hc. split; [|apply Hrk]. intros y Hy.
  destruct (Hc y) as [Hg|[Hfy Hr]].
  - rewrite Hg in *. by apply Hrk.
  - destruct Hrk as [Hht Hb].
    inversion Hr as [? Hfix|? ? _ Hr']; subst; [done|].
    pose proof (root_ht f ht bound _ _ (conj Hht Hb) Hr').
    specialize (Hht y Hfy). lia.
Qed.

Lemma compressed_root_1 f g ht bound x r :
  ranked f ht bound → compressed f g → root f x r → root g x r.
Proof.
  intros Hrk Hc. induction 1 as [x Hx|x r Hx Hr IH].
  - apply root_self. destruct (Hc x) as [->|[? _]]; done.
  - destruct (Hc x) as [Hg|[_ Hr']].
    + apply root_step; by rewrite Hg.
    + assert (g x = r) as Hgx.
      { eapply root_functional; [done|]. by apply root_step. }
      assert (ht x < ht r).
      { pose proof (root_ht f ht bound _ _ Hrk Hr).
        destruct Hrk as [Hht _]. specialize (Hht x Hx). lia. }
      apply root_step; rewrite Hgx.
      * intros ->. lia.
      * apply root_self. destruct (Hc r) as [->|[Hne _]].
        -- by eapply root_fixed.
        -- by apply root_fixed in Hr.
Qed.

Lemma compressed_root f g ht bound x r :
  ranked f ht bound → compressed f g → root f x r ↔ root g x r.
Proof.
  intros Hrk Hc. split; [by eapply compressed_root_1|].
  intros Hg. destruct (root_total f ht bound x Hrk) as [r' Hr'].
  pose proof (compressed_root_1 _ _ _ _ _ _ Hrk Hc Hr') as Hg'.
  by rewrite (root_functional _ _ _ _ Hg Hg').
Qed.

Lemma compressed_trans f g h ht bound :
  ranked f ht bound → compressed f g → compressed g h → compressed f h.
Proof.
  intros Hrk Hfg Hgh y.
  destruct (Hgh y) as [Hh|[Hgy Hr]].
  - rewrite Hh. apply Hfg.
  - right. apply (compressed_root f g ht bound) in Hr; [|done..].
    split; [|done]. intros Hfy.
    destruct (Hfg y) as [Hg|[Hne _]]; congruence.
Qed.

Lemma par_setdefault p x y : par (setdefault p x) y = par p y.
Proof.
  unfold par, setdefault. destruct (p !! x) eqn:Hx; [done|].
  destruct (decide (x = y)) as [->|Hne].
  - by rewrite lookup_insert_eq, Hx.
  - by rewrite lookup_insert_ne.
Qed.

Lemma par_insert p x y v :
  par (<[x := v]> p) y = if decide (x = y) then v else par p y.
Proof.
  unfold par. case_decide as Hd.
  - subst. by rewrite lookup_insert_eq.
  - by rewrite lookup_insert_ne.
Qed.

Lemma setdefault_lookup p x : setdefault p x !! x = Some (par p x).
Proof.
  unfold setdefault, par. destruct (p !! x) eqn:Hx; simpl; [done|].
  by rewrite lookup_insert_eq.
Qed.

(** find returns the root, within a recursion depth of one more than the
    height still above [x], and only compresses paths. *)
Lemma find_spec depth p x ht bound :
  ranked (par p) ht bound →
  bound - ht x < depth →
  ∃ r p', find depth p x = Ok (r, p') ∧
          root (par p) x r ∧ compressed (par p) (par p').
Proof.
  revert p x. induction depth as [|depth IH]; intros p x Hrk Hd; [lia|].
  simpl. rewrite setdefault_lookup. simpl.
  destruct (decide (par p x ≠ x)) as [Hne|Heq].
  - destruct (IH (setdefault p x) (par p x)) as (r & p2 & Hf & Hr & Hc).
    + destruct Hrk as [Hht Hb]. split; [|done].
      intros y. rewrite !par_setdefault. apply Hht.
    + destruct Hrk as [Hht Hb]. specialize (Hht x Hne).
      specialize (Hb (par p x)). lia.
    + rewrite Hf. simpl. exists r, (<[x := r]> p2). split; [done|].
      assert (Hr' : root (par p) x r).
      { apply root_step; [done|].
        eapply root_ext; [|done]. apply par_setdefault. }
      split; [done|]. intros y. rewrite par_insert. case_decide as Hxy.
      * subst y. by right.
      * destruct (Hc y) as [Hg|[Hfy Hry]].
        -- left. by rewrite Hg, par_setdefault.
        -- right. rewrite par_setdefault in Hfy. split; [done|].
           eapply root_ext; [|done]. apply par_setdefault.
  - apply dec_stable in Heq. exists x, (setdefault p x).
    rewrite Heq. split_and!; [done|by apply root_self|].
    apply compressed_refl, par_setdefault.
Qed.

(** Pointing the root [rb] at another root [ra] merges the two classes
    and nothing else. *)
Lemma link_root_other f g ra rb x r :
  f ra = ra → f rb = rb → ra ≠ rb →
  (∀ y, g y = if decide (rb = y) then ra else f y) →
  root f x r → r ≠ rb → root g x r.
Proof.
  intros Ha Hb Hab Hg. induction 1 as [x Hx|x r Hx Hr IH]; intros Hne.
  - apply root_self. rewrite Hg, decide_False; done.
  - assert (g x = f x) as Hgx.
    { rewrite Hg, decide_False; [done|]. by intros <-. }
    apply root_step; rewrite Hgx; [done|by apply IH].
Qed.

Lemma link_root_moved f g ra rb x :
  f ra = ra → f rb = rb → ra ≠ rb →
  (∀ y, g y = if decide (rb = y) then ra else f y) →
  root f x rb → root g x ra.
Proof.
  intros Ha Hb Hab Hg Hr. remember rb as r eqn:Hrb.
  induction Hr as [x Hx|x r Hx Hr IH]; subst.
  - apply root_step.
    + rewrite Hg, decide_True; done.
    + rewrite (Hg rb), decide_True by done. apply root_self.
      rewrite Hg, decide_False; done.
  - assert (g x = f x) as Hgx.
    { rewrite Hg, decide_False; [done|]. by intros <-. }
    apply root_step; rewrite Hgx; [done|by apply IH].
Qed.

Lemma link_ranked f g ht bound ra rb :
  ranked f ht bound → f ra = ra → f rb = rb → ra ≠ rb →
  (∀ y, g y = if decide (rb = y) then ra else f y) →
  ranked g (λ y, if decide (y = ra) then ht ra `max` S (ht rb) else ht y)
         (S bound).
Proof.
  intros [Hht Hbd] Ha Hb Hab Hg. split.
  - intros y. rewrite Hg. case_decide as Hy.
    + subst y. intros _. rewrite decide_False, decide_True by done. lia.
    + intros Hfy. specialize (Hht y Hfy).
      rewrite (decide_False (P := y = ra)) by (by intros ->).
      case_decide as Hd; [rewrite Hd in Hht|]; lia.
  - intros y. case_decide; [|specialize (Hbd y); lia].
    pose proof (Hbd ra). pose proof (Hbd rb). lia.
Qed.

Lemma link_same f g ht bound ra rb a b x y :
  ranked f ht bound → root f a ra → root f b rb → ra ≠ rb →
  (∀ y, g y = if decide (rb = y) then ra else f y) →
  same g x y ↔
  same f x y ∨ (same f x a ∧ same f b y) ∨ (same f x b ∧ same f a y).
Proof.
  intros Hrk Hra Hrb Hab Hg.
  pose proof (root_fixed _ _ _ Hra) as Ha.
  pose proof (root_fixed _ _ _ Hrb) as Hb.
  pose proof (link_ranked f g ht bound ra rb Hrk Ha Hb Hab Hg) as Hrk'.
  assert (Hto : ∀ z r, root f z r → root g z (if decide (r = rb) then ra else r)).
  { intros z r Hr. case_decide as Hd.
    - subst r. by apply (link_root_moved f g ra rb).
    - by apply (link_root_other f g ra rb). }
  destruct (root_total f ht bound x Hrk) as [rx Hrx].
  destruct (root_total f ht bound y Hrk) as [ry Hry].
  pose proof (Hto _ _ Hrx) as Hgx. pose proof (Hto _ _ Hry) as Hgy.
  split.
  - intros (r & Hx & Hy).
    pose proof (root_functional _ _ _ _ Hx Hgx) as E1.
    pose proof (root_functional _ _ _ _ Hy Hgy) as E2.
    destruct (decide (rx = rb)) as [->|Hx'], (decide (ry = rb)) as [->|Hy'].
    + left. by exists rb.
    + simplify_eq. right; right. split; by eexists.
    + simplify_eq. right; left. split; by eexists.
    + simplify_eq. left. by eexists.
  - intros [(r & Hx & Hy)|[[(r1 & Hx & Hxa) (r2 & Hyb & Hy)]
                           |[(r1 & Hx & Hxb) (r2 & Hya & Hy)]]].
    + pose proof (Hto _ _ Hx). pose proof (Hto _ _ Hy). by eexists.
    + rewrite (root_functional _ _ _ _ Hxa Hra) in Hx.
      rewrite (root_functional _ _ _ _ Hyb Hrb) in Hy.
      exists ra. split.
      * pose proof (Hto _ _ Hx) as H1. by rewrite decide_False in H1.
      * pose proof (Hto _ _ Hy) as H1. by rewrite decide_True in H1.
    + rewrite (root_functional _ _ _ _ Hxb Hrb) in Hx.
      rewrite (root_functional _ _ _ _ Hya Hra) in Hy.
      exists ra. split.
      * pose proof (Hto _ _ Hx) as H1. by rewrite decide_True in H1.
      * pose proof (Hto _ _ Hy) as H1. by rewrite decide_False in H1.
Qed.

End UnionFind.

(** ** compute_lumps: the classes are those of wire connectivity *)

Section Lumps.
Context {B : Backend}.
Implicit Types (p : gmap Node Node) (x y : Node) (hp : list Component)
  (edges : list (Node * Node)).

(** The endpoint pairs of the wires of a component list, in order. *)
Definition wire_edges (hp : list Component) (comps : list loc)
  : list (Node * Node) :=
  omap (λ l, let c := deref hp l in
             if is_Wire c then Some (c_a c, c_b c) else None) comps.

(** Connected by wires: the least equivalence that contains the edges. *)
Inductive conn (edges : list (Node * Node)) : Node → Node → Prop :=
  | conn_refl x : conn edges x x
  | conn_edge x y : (x, y) ∈ edges → conn edges x y
  | conn_sym x y : conn edges x y → conn edges y x
  | conn_trans x y z : conn edges x y → conn edges y z → conn edges x z.

Lemma conn_nil x y : conn [] x y → x = y.
Proof.
  induction 1 as [|x y He| |]; [done| |done|congruence].
  by apply elem_of_nil in He.
Qed.

Lemma conn_mono edges edges' x y :
  (∀ e, e ∈ edges → e ∈ edges') → conn edges x y → conn edges' x y.
Proof.
  intros Hsub. induction 1 as [|x y He|x y _ IH|x y z _ IH1 _ IH2].
  - apply conn_refl.
  - apply conn_edge. by apply Hsub.
  - by apply conn_sym.
  - by eapply conn_trans.
Qed.

(** Edges that agree up to orientation connect the same nodes. *)
Lemma conn_unoriented edges edges' x y :
  (∀ a b, (a, b) ∈ edges → (a, b) ∈ edges' ∨ (b, a) ∈ edges') →
  conn edges x y → conn edges' x y.
Proof.
  intros Hsub. induction 1 as [|x y He|x y _ IH|x y z _ IH1 _ IH2].
  - apply conn_refl.
  - destruct (Hsub _ _ He); [by apply conn_edge|by apply conn_sym, conn_edge].
  - by apply conn_sym.
  - by eapply conn_trans.
Qed.

Lemma conn_snoc edges a b x y :
  conn (edges ++ [(a, b)]) x y ↔
  conn edges x y ∨ (conn edges x a ∧ conn edges b y)
                 ∨ (conn edges x b ∧ conn edges a y).
Proof.
  split.
  - induction 1 as [x|x y He|x y _ IH|x y z _ IH1 _ IH2].
    + left. apply conn_refl.
    + apply elem_of_app in He as [He|He].
      * left. by apply conn_edge.
      * apply list_elem_of_singleton in He as [= -> ->].
        right; left. split; apply conn_refl.
    + destruct IH as [?|[[??]|[??]]].
      * left. by apply conn_sym.
      * right; right. split; by apply conn_sym.
      * right; left. split; by apply conn_sym.
    + destruct IH1 as [H1|[[H1 H1']|[H1 H1']]],
               IH2 as [H2|[[H2 H2']|[H2 H2']]].
      * left. by eapply conn_trans.
      * right; left. split; [by eapply conn_trans|done].
      * right; right. split; [by eapply conn_trans|done].
      * right; left. split; [done|by eapply conn_trans].
      * right; left. done.
      * left. eapply conn_trans; [exact H1|].
        eapply conn_trans; [|exact H2']. by apply conn_refl.
      * right; right. split; [done|by eapply conn_trans].
      * left. eapply conn_trans; [exact H1|]. exact H2'.
      * right; right. done.
  - assert (Hsub : ∀ e, e ∈ edges → e ∈ edges ++ [(a, b)]).
    { intros e He. apply elem_of_app. by left. }
    assert (Hab : conn (edges ++ [(a, b)]) a b).
    { apply conn_edge, elem_of_app. right. by apply list_elem_of_singleton. }
    intros [H1|[[H1 H2]|[H1 H2]]].
    + by eapply conn_mono.
    + eapply conn_trans; [by eapply conn_mono|].
      eapply conn_trans; [exact Hab|by eapply conn_mono].
    + eapply conn_trans; [by eapply conn_mono|].
      eapply conn_trans; [apply conn_sym; exact Hab|by eapply conn_mono].
Qed.

Lemma wire_edges_snoc hp comps l :
  wire_edges hp (comps ++ [l]) =
  wire_edges hp comps ++
  (if is_Wire (deref hp l) then [(c_a (deref hp l), c_b (deref hp l))] else []).
Proof.
  unfold wire_edges. rewrite omap_app. simpl.
  by destruct (is_Wire (deref hp l)).
Qed.

Lemma wire_edges_cons hp comps l :
  wire_edges hp (l :: comps) =
  (if is_Wire (deref hp l) then [(c_a (deref hp l), c_b (deref hp l))] else [])
  ++ wire_edges hp comps.
Proof. unfold wire_edges. simpl. by destruct (is_Wire (deref hp l)). Qed.

(** union, at a recursion depth above the height bound: the classes of
    [a] and [b] are merged, the other classes are kept, and the bound
    grows by one at most. *)
Lemma union_spec depth p a b ht bound :
  ranked (par p) ht bound →
  bound < depth →
  ∃ p' ht', union depth p a b = Ok p' ∧
    ranked (par p') ht' (S bound) ∧
    ∀ x y, same (par p') x y ↔
           same (par p) x y ∨ (same (par p) x a ∧ same (par p) b y)
                            ∨ (same (par p) x b ∧ same (par p) a y).
Proof.
  intros Hrk Hd. unfold union.
  destruct (find_spec depth p a ht bound Hrk) as (ra & p1 & Hfa & Hra & Hc1);
    [lia|].
  pose proof (compressed_ranked _ _ _ _ Hrk Hc1) as Hrk1.
  destruct (find_spec depth p1 b ht bound Hrk1) as (rb & p2 & Hfb & Hrb & Hc2);
    [lia|].
  pose proof (compressed_ranked _ _ _ _ Hrk1 Hc2) as Hrk2.
  rewrite Hfa. simpl. rewrite Hfb. simpl.
  assert (Hroot : ∀ z r, root (par p) z r ↔ root (par p2) z r).
  { intros z r. rewrite (compressed_root _ _ _ _ z r Hrk Hc1).
    apply (compressed_root _ _ _ _ z r Hrk1 Hc2). }
  assert (Hsame : ∀ z z', same (par p) z z' ↔ same (par p2) z z').
  { intros z z'. unfold same. by setoid_rewrite Hroot. }
  case_decide as Hab.
  - exists (<[rb := ra]> p2),
      (λ y, if decide (y = ra) then ht ra `max` S (ht rb) else ht y).
    split; [done|].
    assert (Hg : ∀ y, par (<[rb := ra]> p2) y
                      = if decide (rb = y) then ra else par p2 y).
    { intros y. apply par_insert. }
    apply Hroot in Hra. apply (compressed_root _ _ _ _ b rb Hrk1 Hc2) in Hrb.
    split.
    + apply (link_ranked (par p2) _ ht bound ra rb); [done| | |done|done].
      * by apply root_fixed in Hra.
      * by apply root_fixed in Hrb.
    + intros x y. rewrite !Hsame.
      by apply (link_same (par p2) _ ht bound ra rb).
  - subst rb. exists p2, ht. split; [done|]. split.
    + destruct Hrk2 as [H1 H2]. split; [done|]. intros z. specialize (H2 z). lia.
    + intros x y. rewrite <- !Hsame. split; [by left|].
      assert (Hab : same (par p) a b).
      { exists ra. split; [done|]. by apply (compressed_root _ _ _ _ b ra Hrk Hc1). }
      intros [?|[[H1 H2]|[H1 H2]]]; [done|..].
      * eapply same_trans; [done|]. by eapply same_trans.
      * eapply same_trans; [done|]. eapply same_trans; [|done]. by apply same_sym.
Qed.

Lemma lump_wire_eq depth hp p l :
  lump_wire depth hp p l =
  if is_Wire (deref hp l)
  then union depth p (c_a (deref hp l)) (c_b (deref hp l)) else Ok p.
Proof. done. Qed.

(** The loop over the components merges the endpoints of every wire. *)
Lemma lump_wires_spec depth hp comps p ht bound edges :
  ranked (par p) ht bound →
  bound + length comps < depth →
  (∀ x y, same (par p) x y ↔ conn edges x y) →
  ∃ p' ht' bound',
    for_each (lump_wire depth hp) comps p = Ok p' ∧
    ranked (par p') ht' bound' ∧
    bound' ≤ bound + length comps ∧
    ∀ x y, same (par p') x y ↔ conn (edges ++ wire_edges hp comps) x y.
Proof.
  revert p ht bound edges.
  induction comps as [|l comps IH]; intros p ht bound edges Hrk Hd Hsame.
  - exists p, ht, bound. simpl. split_and!; [done|done|lia|].
    intros x y. unfold wire_edges. simpl. by rewrite app_nil_r.
  - simpl in Hd. destruct (is_Wire (deref hp l)) eqn:Hw.
    + destruct (union_spec depth p (c_a (deref hp l)) (c_b (deref hp l))
                           ht bound Hrk) as (p1 & ht1 & Hu & Hrk1 & Hs1); [lia|].
      destruct (IH p1 ht1 (S bound)
                  (edges ++ [(c_a (deref hp l), c_b (deref hp l))]))
        as (p' & ht' & bound' & Hrun & Hrk' & Hb' & Hs'); [done|lia| |].
      * intros x y. rewrite Hs1, conn_snoc, !Hsame. done.
      * exists p', ht', bound'.
        rewrite for_each_cons, wire_edges_cons, lump_wire_eq, Hw, Hu.
        split_and!; [done|done|simpl; lia|].
        intros x y. rewrite Hs'. by rewrite <- app_assoc.
    + destruct (IH p ht bound edges)
        as (p' & ht' & bound' & Hrun & Hrk' & Hb' & Hs'); [done|lia|done|].
      exists p', ht', bound'.
      rewrite for_each_cons, wire_edges_cons, lump_wire_eq, Hw.
      split_and!; [done|done|simpl; lia|done].
Qed.

Lemma par_foldl_setdefault nodes p y :
  par (foldl setdefault p nodes) y = par p y.
Proof.
  revert p. induction nodes as [|n nodes IH]; intros p; simpl; [done|].
  by rewrite IH, par_setdefault.
Qed.

(** What holds of [(parent, index, mapping)] when the nodes [seen] have
    been numbered; [f1] is the parent function left by the wire loop. *)
Definition index_inv (f1 : Node → Node) (ht : Node → nat) (bound : nat)
    (seen : list Node)
    (st : gmap Node Node * gmap Node nat * gmap Node nat) : Prop :=
  let '(p, index, mapping) := st in
  ranked (par p) ht bound ∧
  (∀ x r, root (par p) x r ↔ root f1 x r) ∧
  (∀ r i, index !! r = Some i → i < size index) ∧
  (∀ r r' i, index !! r = Some i → index !! r' = Some i → r = r') ∧
  (∀ i, i < size index → ∃ n, mapping !! n = Some i) ∧
  (∀ m, m ∈ seen →
        ∃ r i, root f1 m r ∧ index !! r = Some i ∧ mapping !! m = Some i) ∧
  (∀ m i, mapping !! m = Some i → m ∈ seen) ∧
  (∀ r i, index !! r = Some i →
          ∃ m, m ∈ seen ∧ root f1 m r ∧ mapping !! m = Some i).

Lemma lump_index_spec depth f1 ht bound seen st n :
  index_inv f1 ht bound seen st →
  bound < depth →
  ∃ st', lump_index depth st n = Ok st' ∧
         index_inv f1 ht bound (seen ++ [n]) st'.
Proof.
  destruct st as [[p index] mapping].
  intros (Hrk & Hroot & Hlt & Hinj & Hsur & Hseen & Hdom & Hfrom) Hd.
  destruct (find_spec depth p n ht bound Hrk) as (r & p' & Hf & Hr & Hc); [lia|].
  pose proof (compressed_ranked _ _ _ _ Hrk Hc) as Hrk'.
  assert (Hroot' : ∀ x r, root (par p') x r ↔ root f1 x r).
  { intros x r'. rewrite <- Hroot. symmetry. by eapply compressed_root. }
  apply Hroot in Hr.
  assert (Hold : ∀ i, mapping !! n = Some i → index !! r = Some i).
  { intros i Hi. destruct (Hseen n (Hdom _ _ Hi)) as (r1 & i1 & Hr1 & Hi1 & Hm1).
    rewrite (root_functional _ _ _ _ Hr Hr1). congruence. }
  unfold lump_index. rewrite Hf. cbn [mbind result_bind].
  destruct (index !! r) as [i0|] eqn:Hi0.
  - unfold getitem. rewrite Hi0. eexists. split; [done|].
    split_and!; [done..| | | |].
    + intros i Hi. destruct (Hsur i Hi) as (m & Hm).
      destruct (decide (m = n)) as [->|Hne].
      * exists n. rewrite lookup_insert_eq. by rewrite (Hold _ Hm).
      * exists m. by rewrite lookup_insert_ne.
    + intros m [Hm| ->%list_elem_of_singleton]%elem_of_app.
      * destruct (decide (m = n)) as [->|Hne].
        -- exists r, i0. by rewrite lookup_insert_eq.
        -- destruct (Hseen m Hm) as (r1 & i1 & ? & ? & ?).
           exists r1, i1. by rewrite lookup_insert_ne.
      * exists r, i0. by rewrite lookup_insert_eq.
    + intros m i Hm. apply elem_of_app.
      destruct (decide (m = n)) as [->|Hne].
      * right. by apply list_elem_of_singleton.
      * left. rewrite lookup_insert_ne in Hm by done. by eapply Hdom.
    + intros r1 i Hi. destruct (Hfrom r1 i Hi) as (m & Hm & Hr1 & Hmi).
      exists m. split_and!; [apply elem_of_app; by left|done|].
      destruct (decide (m = n)) as [->|Hne].
      * rewrite lookup_insert_eq. by rewrite (Hold _ Hmi).
      * by rewrite lookup_insert_ne.
  - unfold getitem. rewrite lookup_insert_eq. eexists. split; [done|].
    assert (Hsize : size (<[r := size index]> index) = S (size index)).
    { by apply map_size_insert_None. }
    assert (Hnew : mapping !! n = None).
    { destruct (mapping !! n) as [i|] eqn:Hi; [|done].
      by specialize (Hold i eq_refl). }
    split_and!; [done|done| | | | | |].
    + intros r' i. rewrite Hsize, lookup_insert. case_decide.
      * intros [= <-]. lia.
      * intros Hi. specialize (Hlt _ _ Hi). lia.
    + intros r1 r2 i. rewrite !lookup_insert.
      repeat case_decide; subst; [done|..].
      * intros [= <-] Hi. specialize (Hlt _ _ Hi). lia.
      * intros Hi [= <-]. specialize (Hlt _ _ Hi). lia.
      * apply Hinj.
    + intros i. rewrite Hsize. intros Hi.
      destruct (decide (i = size index)) as [->|Hne].
      * exists n. by rewrite lookup_insert_eq.
      * destruct (Hsur i) as (m & Hm); [lia|]. exists m.
        rewrite lookup_insert_ne; [done|]. intros <-. congruence.
    + intros m [Hm| ->%list_elem_of_singleton]%elem_of_app.
      * destruct (Hseen m Hm) as (r1 & i1 & Hr1 & Hi1 & Hm1).
        exists r1, i1. split; [done|]. split.
        -- rewrite lookup_insert_ne; [done|]. intros <-. congruence.
        -- rewrite lookup_insert_ne; [done|]. intros <-. congruence.
      * exists r, (size index). by rewrite !lookup_insert_eq.
    + intros m i Hm. apply elem_of_app.
      destruct (decide (m = n)) as [->|Hne].
      * right. by apply list_elem_of_singleton.
      * left. rewrite lookup_insert_ne in Hm by done. by eapply Hdom.
    + intros r1 i. rewrite lookup_insert. case_decide as Hr1.
      * subst r1. intros [= <-]. exists n.
        split_and!; [apply elem_of_app; right; by apply list_elem_of_singleton
                    |done|by rewrite lookup_insert_eq].
      * intros Hi. destruct (Hfrom r1 i Hi) as (m & Hm & Hrm & Hmi).
        exists m. split_and!; [apply elem_of_app; by left|done|].
        rewrite lookup_insert_ne; [done|]. intros <-. congruence.
Qed.

Lemma lump_indexes_spec depth f1 ht bound nodes seen st :
  index_inv f1 ht bound seen st →
  bound < depth →
  ∃ st', for_each (lump_index depth) nodes st = Ok st' ∧
         index_inv f1 ht bound (seen ++ nodes) st'.
Proof.
  revert seen st. induction nodes as [|n nodes IH]; intros seen st Hinv Hd.
  - exists st. by rewrite app_nil_r.
  - destruct (lump_index_spec depth f1 ht bound seen st n Hinv Hd)
      as (st1 & Hs1 & Hinv1).
    destruct (IH _ _ Hinv1 Hd) as (st' & Hs' & Hinv').
    exists st'. rewrite for_each_cons, Hs1. split; [done|].
    by rewrite <- app_assoc in Hinv'.
Qed.

(** The wire loop of [compute_lumps], from the parent map in which every
    node is its own parent. *)
Lemma lump_wires_run nodes hp comps :
  ∃ p1 ht1 bound1,
    for_each (lump_wire (S (length comps)) hp) comps (foldl setdefault ∅ nodes)
      = Ok p1 ∧
    ranked (par p1) ht1 bound1 ∧
    bound1 < S (length comps) ∧
    ∀ x y, same (par p1) x y ↔ conn (wire_edges hp comps) x y.
Proof.
  set (p0 := foldl setdefault ∅ nodes).
  assert (Hp0 : ∀ y, par p0 y = y).
  { intros y. unfold p0. by rewrite par_foldl_setdefault. }
  assert (Hrk0 : ranked (par p0) (λ _, 0) 0).
  { split; [|done]. intros x Hx. by rewrite Hp0 in Hx. }
  assert (Hsame0 : ∀ x y, same (par p0) x y ↔ conn [] x y).
  { intros x y. split.
    - intros (r & Hx & Hy).
      inversion Hx as [? _|? ? Hne _]; subst; [|by rewrite Hp0 in Hne].
      inversion Hy as [? _|? ? Hne _]; subst; [|by rewrite Hp0 in Hne].
      apply conn_refl.
    - intros ->%conn_nil. exists y. split; by apply root_self. }
  destruct (lump_wires_spec (S (length comps)) hp comps p0 _ 0 [] Hrk0)
    as (p1 & ht1 & bound1 & Hw & Hrk1 & Hb1 & Hsame1); [lia|done|].
  exists p1, ht1, bound1. split_and!; [done|done|lia|done].
Qed.

Lemma index_inv_init p ht bound :
  ranked (par p) ht bound → index_inv (par p) ht bound [] (p, ∅, ∅).
Proof.
  intros Hrk. split_and!; [done|done|..].
  - intros r i Hr. by rewrite lookup_empty in Hr.
  - intros r r' i Hr. by rewrite lookup_empty in Hr.
  - intros i. rewrite map_size_empty. lia.
  - intros m Hm. by apply elem_of_nil in Hm.
  - intros m i Hm. by rewrite lookup_empty in Hm.
  - intros r i Hr. by rewrite lookup_empty in Hr.
Qed.

(** [compute_lumps] raises nothing, whatever the circuit: the mapping
    is defined on the nodes given, its values are exactly the indices
    below the count returned, and two nodes get the same index if and
    only if wires connect them. *)
Lemma compute_lumps_spec nodes hp comps :
  ∃ mapping K,
    compute_lumps nodes hp comps = Ok (mapping, K) ∧
    (∀ n, is_Some (mapping !! n) ↔ n ∈ nodes) ∧
    (∀ n i, mapping !! n = Some i → i < K) ∧
    (∀ i, i < K → ∃ n, mapping !! n = Some i) ∧
    (∀ x y i j, mapping !! x = Some i → mapping !! y = Some j →
                i = j ↔ conn (wire_edges hp comps) x y).
Proof.
  unfold compute_lumps.
  destruct (lump_wires_run nodes hp comps)
    as (p1 & ht1 & bound1 & Hw & Hrk1 & Hb1 & Hsame1).
  rewrite Hw. cbn [mbind result_bind].
  destruct (lump_indexes_spec (S (length comps)) (par p1) ht1 bound1 nodes []
              (p1, ∅, ∅)) as ([[p2 index] mapping] & Hi & Hinv);
    [by apply index_inv_init|lia|].
  rewrite Hi. cbn [mbind result_bind]. simpl in Hinv.
  destruct Hinv as (_ & _ & Hlt & Hinj & Hsur & Hseen & Hdom & _).
  exists mapping, (size index). split_and!; [done|..].
  - intros n. split.
    + intros [i Hn]. by eapply Hdom.
    + intros Hn. destruct (Hseen n Hn) as (r & i & _ & _ & Hm). by exists i.
  - intros n i Hn. destruct (Hseen n (Hdom _ _ Hn)) as (r & i' & _ & Hr & Hm).
    apply (Hlt r). congruence.
  - done.
  - intros x y i j Hx Hy.
    destruct (Hseen x (Hdom _ _ Hx)) as (rx & ix & Hrx & Hix & Hmx).
    destruct (Hseen y (Hdom _ _ Hy)) as (ry & iy & Hry & Hiy & Hmy).
    rewrite Hx in Hmx. rewrite Hy in Hmy. simplify_eq.
    rewrite <- Hsame1. split.
    + intros Hij. assert (rx = ry) as -> by (eapply Hinj; [done|congruence]).
      by exists ry.
    + intros (r & Hx' & Hy').
      rewrite (root_functional _ _ _ _ Hrx Hx') in Hix.
      rewrite (root_functional _ _ _ _ Hry Hy') in Hiy. congruence.
Qed.

(** The numbering itself depends on the wires only through the classes
    they make: a class takes the next free index when its first node, in
    the order of [nodes], is met.  Two runs over the same nodes whose
    wires connect the same nodes number them alike. *)
Lemma lump_index_canonical depth depth' f1 f1' ht ht' bound bound' seen
    p index p' index' mapping n st1 st1' :
  index_inv f1 ht bound seen (p, index, mapping) →
  index_inv f1' ht' bound' seen (p', index', mapping) →
  bound < depth → bound' < depth' →
  size index = size index' →
  (∀ x y, same f1 x y ↔ same f1' x y) →
  lump_index depth (p, index, mapping) n = Ok st1 →
  lump_index depth' (p', index', mapping) n = Ok st1' →
  st1.2 = st1'.2 ∧ size st1.1.2 = size st1'.1.2.
Proof.
  intros (Hrk & Hroot & _ & _ & _ & Hseen & _ & Hfrom)
         (Hrk' & Hroot' & _ & _ & _ & Hseen' & _ & Hfrom')
         Hd Hd' Hsize Hsame.
  destruct (find_spec depth p n ht bound Hrk) as (r & p2 & Hf & Hr & _); [lia|].
  destruct (find_spec depth' p' n ht' bound' Hrk')
    as (r' & p2' & Hf' & Hr' & _); [lia|].
  apply Hroot in Hr. apply Hroot' in Hr'.
  assert (Hto : ∀ m, root f1 m r → root f1' m r').
  { intros m Hm. destruct (proj1 (Hsame m n)) as (r0 & Hm0 & Hn0); [by exists r|].
    by rewrite (root_functional _ _ _ _ Hr' Hn0). }
  assert (Hback : ∀ m, root f1' m r' → root f1 m r).
  { intros m Hm. destruct (proj2 (Hsame m n)) as (r0 & Hm0 & Hn0); [by exists r'|].
    by rewrite (root_functional _ _ _ _ Hr Hn0). }
  unfold lump_index. rewrite Hf, Hf'. cbn [mbind result_bind].
  destruct (index !! r) as [i|] eqn:Hi; destruct (index' !! r') as [i'|] eqn:Hi'.
  - unfold getitem. rewrite Hi, Hi'. cbn [mbind result_bind].
    intros [= <-] [= <-]. simpl. split; [|done].
    destruct (Hfrom r i Hi) as (m & Hm & Hmr & Hmi).
    destruct (Hseen' m Hm) as (r2 & i2 & Hr2 & Hi2 & Hm2).
    rewrite (root_functional _ _ _ _ Hr2 (Hto m Hmr)) in Hi2. congruence.
  - destruct (Hfrom r i Hi) as (m & Hm & Hmr & Hmi).
    destruct (Hseen' m Hm) as (r2 & i2 & Hr2 & Hi2 & Hm2).
    rewrite (root_functional _ _ _ _ Hr2 (Hto m Hmr)) in Hi2. congruence.
  - destruct (Hfrom' r' i' Hi') as (m & Hm & Hmr & Hmi).
    destruct (Hseen m Hm) as (r2 & i2 & Hr2 & Hi2 & Hm2).
    rewrite (root_functional _ _ _ _ Hr2 (Hback m Hmr)) in Hi2. congruence.
  - unfold getitem. rewrite !lookup_insert_eq. cbn [mbind result_bind].
    intros [= <-] [= <-]. simpl.
    rewrite !map_size_insert_None by done. by rewrite Hsize.
Qed.

Lemma lump_indexes_canonical depth depth' f1 f1' ht ht' bound bound' nodes :
  bound < depth → bound' < depth' →
  (∀ x y, same f1 x y ↔ same f1' x y) →
  ∀ seen p index p' index' mapping st st',
    index_inv f1 ht bound seen (p, index, mapping) →
    index_inv f1' ht' bound' seen (p', index', mapping) →
    size index = size index' →
    for_each (lump_index depth) nodes (p, index, mapping) = Ok st →
    for_each (lump_index depth') nodes (p', index', mapping) = Ok st' →
    st.2 = st'.2 ∧ size st.1.2 = size st'.1.2.
Proof.
  intros Hd Hd' Hsame. induction nodes as [|n nodes IH];
    intros seen p index p' index' mapping st st' Hinv Hinv' Hsize.
  - simpl. by intros [= <-] [= <-].
  - rewrite !for_each_cons.
    destruct (lump_index_spec depth f1 ht bound seen _ n Hinv Hd)
      as ([[p1 index1] mapping1] & Hs1 & Hinv1).
    destruct (lump_index_spec depth' f1' ht' bound' seen _ n Hinv' Hd')
      as ([[p1' index1'] mapping1'] & Hs1' & Hinv1').
    destruct (lump_index_canonical _ _ _ _ _ _ _ _ _ _ _ _ _ _ _ _ _
                Hinv Hinv' Hd Hd' Hsize Hsame Hs1 Hs1') as [Hm Hsz].
    simpl in Hm, Hsz. subst mapping1'.
    rewrite Hs1, Hs1'. cbn [mbind result_bind].
    by apply (IH (seen ++ [n])).
Qed.

Lemma compute_lumps_canonical nodes hp comps hp' comps' :
  (∀ x y, conn (wire_edges hp comps) x y ↔ conn (wire_edges hp' comps') x y) →
  compute_lumps nodes hp' comps' = compute_lumps nodes hp comps.
Proof.
  intros Hconn. unfold compute_lumps.
  destruct (lump_wires_run nodes hp comps)
    as (p1 & ht1 & bound1 & Hw & Hrk1 & Hb1 & Hsame1).
  destruct (lump_wires_run nodes hp' comps')
    as (p1' & ht1' & bound1' & Hw' & Hrk1' & Hb1' & Hsame1').
  rewrite Hw, Hw'. cbn [mbind result_bind].
  destruct (lump_indexes_spec (S (length comps)) (par p1) ht1 bound1 nodes []
              (p1, ∅, ∅)) as ([[p2 index] mapping] & Hi & _);
    [by apply index_inv_init|lia|].
  destruct (lump_indexes_spec (S (length comps')) (par p1') ht1' bound1' nodes []
              (p1', ∅, ∅)) as ([[p2' index'] mapping'] & Hi' & _);
    [by apply index_inv_init|lia|].
  destruct (lump_indexes_canonical (S (length comps)) (S (length comps'))
              (par p1) (par p1') ht1 ht1' bound1 bound1' nodes Hb1 Hb1')
    with (seen := @nil Node) (p := p1) (index := (∅ : gmap Node nat))
         (p' := p1') (index' := (∅ : gmap Node nat))
         (mapping := (∅ : gmap Node nat))
         (st := (p2, index, mapping)) (st' := (p2', index', mapping'))
    as [Hm Hsz]; [|by apply index_inv_init|by apply index_inv_init|done|done|done|].
  { intros x y. by rewrite Hsame1, Hsame1', Hconn. }
  rewrite Hi, Hi'. cbn [mbind result_bind]. simpl in Hm, Hsz. congruence.
Qed.

End Lumps.

(** ** build_matrix: the unknowns and the stamps *)

Section Assembly.
Context {B : Backend}.
Implicit Types (s : Solver) (w : World) (hp : list Component)
  (A : list (list num)) (z : list num).

(** [node_index] numbers the classes other than ground, in order. *)
Lemma index_nodes_spec K g n :
  index_nodes K g !! n =
  if decide (n < K ∧ n ≠ g)
  then Some (if decide (n < g) then n else n - 1) else None.
Proof.
  unfold index_nodes.
  set (body := λ '(node_index, idx) n,
         if decide (n = g) then (node_index, idx)
         else (<[n := idx]> node_index, S idx)).
  assert (Hgen : ∀ k,
    let r := foldl body (∅, 0) (seq 0 k) in
    r.2 = (if decide (g < k) then k - 1 else k) ∧
    ∀ n, r.1 !! n = if decide (n < k ∧ n ≠ g)
                    then Some (if decide (n < g) then n else n - 1) else None).
  { induction k as [|k [IHi IHl]].
    - simpl. split; [done|]. intros m. by rewrite lookup_empty.
    - rewrite seq_S, foldl_app. simpl.
      destruct (foldl body (∅, 0) (seq 0 k)) as [ni idx]. simpl in *.
      destruct (decide (k = g)) as [Hk|Hk]; simpl.
      + subst g. split; [repeat case_decide; lia|].
        intros m. rewrite IHl. repeat case_decide; try done; lia.
      + split; [repeat case_decide; lia|].
        intros m. rewrite lookup_insert, IHl, IHi.
        repeat case_decide; try done; try lia; f_equal; lia. }
  apply Hgen.
Qed.

Lemma index_nodes_ground K g : index_nodes K g !! g = None.
Proof. rewrite index_nodes_spec, decide_False; [done|]. by intros [_ ?]. Qed.

Lemma index_nodes_lt K g n i :
  g < K → index_nodes K g !! n = Some i → n < K ∧ n ≠ g ∧ i < K - 1.
Proof.
  rewrite index_nodes_spec. intros Hg. case_decide as Hd; [|done].
  intros [= <-]. case_decide; lia.
Qed.

Lemma index_nodes_Some K g n :
  n < K → n ≠ g → is_Some (index_nodes K g !! n).
Proof. intros. rewrite index_nodes_spec, decide_True; done. Qed.

Lemma index_nodes_inj K g n m i :
  index_nodes K g !! n = Some i → index_nodes K g !! m = Some i → n = m.
Proof.
  rewrite !index_nodes_spec. repeat case_decide; try done; intros [= <-] [= ?]; lia.
Qed.

Lemma index_nodes_onto K g i :
  g < K → i < K - 1 → ∃ n, index_nodes K g !! n = Some i.
Proof.
  intros Hg Hi. exists (if decide (i < g) then i else S i).
  rewrite index_nodes_spec. repeat case_decide; try done; try lia.
  f_equal. lia.
Qed.

(** A square matrix of side [n]. *)
Definition square (n : nat) (A : list (list num)) : Prop :=
  length A = n ∧ ∀ i row, A !! i = Some row → length row = n.

Lemma square_zeros2 n : square n (zeros2 n).
Proof.
  unfold zeros2, zeros. split; [by rewrite length_replicate|].
  intros i row [-> _]%lookup_replicate. by rewrite length_replicate.
Qed.

Lemma mat_update_square f i j n A :
  square n A → i < n → j < n →
  ∃ A', mat_update f i j A = Ok A' ∧ square n A'.
Proof.
  intros [Hlen Hrows] Hi Hj. unfold mat_update, getitem.
  destruct (lookup_lt_is_Some_2 A i) as [row Hrow]; [lia|].
  rewrite Hrow. cbn [mbind result_bind].
  pose proof (Hrows _ _ Hrow) as Hr.
  destruct (lookup_lt_is_Some_2 row j) as [v Hv]; [lia|].
  rewrite Hv. cbn [mbind result_bind]. eexists. split; [done|]. split.
  - by rewrite length_insert.
  - intros i' row'. destruct (decide (i = i')) as [<-|Hne].
    + rewrite list_lookup_insert_eq by lia. intros [= <-].
      by rewrite length_insert.
    + rewrite list_lookup_insert_ne by done. apply Hrows.
Qed.

(** Loops that can only fail with one exception [e]. *)
Lemma for_each_either {X S} (P : S → Prop) (e : exn) (f : S → X → result S)
    (l : list X) (t : S) :
  P t →
  (∀ t x, x ∈ l → P t → (∃ t', f t x = Ok t' ∧ P t') ∨ f t x = Raise e) →
  (∃ t', for_each f l t = Ok t' ∧ P t') ∨ for_each f l t = Raise e.
Proof.
  revert t. induction l as [|x l IH]; intros t Ht Hf.
  - left. by exists t.
  - rewrite for_each_cons.
    destruct (Hf t x) as [(t1 & -> & Ht1)| ->]; [by left|done| |by right].
    apply IH; [done|]. intros t2 y Hy. apply Hf. by right.
Qed.

Lemma enumerate_from_cons {X} (j : nat) (x : X) (l : list X) :
  zip (seq j (length (x :: l))) (x :: l) = (j, x) :: zip (seq (S j) (length l)) l.
Proof. done. Qed.

(** Invariant rules for [for k, x in enumerate(l)]. *)
Lemma for_each_enumerate_inv {X St} (P : nat → St → Prop)
    (f : St → nat * X → result St) (l : list X) (t t' : St) :
  P 0 t →
  (∀ k x u u', l !! k = Some x → P k u → f u (k, x) = Ok u' → P (S k) u') →
  for_each f (enumerate l) t = Ok t' → P (length l) t'.
Proof.
  unfold enumerate. intros Ht Hstep.
  assert (Hgen : ∀ l2 l1 u,
    l = l1 ++ l2 → P (length l1) u →
    for_each f (zip (seq (length l1) (length l2)) l2) u = Ok t' →
    P (length l) t').
  { induction l2 as [|x l2 IH]; intros l1 u Hl Hu Hrun.
    - simpl in Hrun. injection Hrun as <-. by rewrite Hl, app_nil_r.
    - rewrite enumerate_from_cons, for_each_cons in Hrun.
      apply bind_Ok in Hrun as (u1 & Hu1 & Hrun).
      apply (IH (l1 ++ [x]) u1).
      + by rewrite <- app_assoc.
      + rewrite length_app. simpl. rewrite Nat.add_1_r.
        eapply Hstep; [|done..]. by rewrite Hl, list_lookup_middle.
      + rewrite length_app. simpl. by rewrite Nat.add_1_r. }
  intros Hrun. by apply (Hgen l [] t).
Qed.

Lemma for_each_enumerate_total {X St} (P : nat → St → Prop)
    (f : St → nat * X → result St) (l : list X) (t : St) :
  P 0 t →
  (∀ k x u, l !! k = Some x → P k u → ∃ u', f u (k, x) = Ok u' ∧ P (S k) u') →
  ∃ t', for_each f (enumerate l) t = Ok t' ∧ P (length l) t'.
Proof.
  unfold enumerate. intros Ht Hstep.
  assert (Hgen : ∀ l2 l1 u,
    l = l1 ++ l2 → P (length l1) u →
    ∃ t', for_each f (zip (seq (length l1) (length l2)) l2) u = Ok t' ∧
          P (length l) t').
  { induction l2 as [|x l2 IH]; intros l1 u Hl Hu.
    - exists u. by rewrite Hl, app_nil_r.
    - rewrite enumerate_from_cons, for_each_cons.
      destruct (Hstep (length l1) x u) as (u1 & -> & Hu1);
        [by rewrite Hl, list_lookup_middle|done|].
      cbn [mbind result_bind].
      destruct (IH (l1 ++ [x]) u1) as (t' & Ht' & HP).
      + by rewrite <- app_assoc.
      + rewrite length_app. simpl. by rewrite Nat.add_1_r.
      + exists t'. rewrite length_app in Ht'. simpl in Ht'.
        rewrite Nat.add_1_r in Ht'. done. }
  by apply (Hgen l [] t).
Qed.

(** The voltage of a source object. *)
Definition source_voltage (c : Component) : num :=
  match c_kind c with
  | VoltageSource voltage => voltage
  | _ => nzero
  end.

(** A solver that fits the circuit: every class index is below
    [num_nodes], and every endpoint of a component has one. *)
Definition solver_wf (s : Solver) (w : World) : Prop :=
  ground_idx s < num_nodes s ∧
  node_map s !! ground s = Some (ground_idx s) ∧
  (∀ n i, node_map s !! n = Some i → i < num_nodes s) ∧
  (∀ l, l ∈ components w →
        is_Some (node_map s !! c_a (deref (heap w) l)) ∧
        is_Some (node_map s !! c_b (deref (heap w) l))).

Lemma solver_wf_frame s w w' :
  frame_eq (heap w) (heap w') → components w' = components w →
  solver_wf s w → solver_wf s w'.
Proof.
  intros Hf Hc (H1 & H2 & H3 & H4). split_and!; [done..|].
  intros l Hl. rewrite Hc in Hl.
  destruct (erase_fields _ _ (frame_eq_deref _ _ l Hf)) as (-> & -> & _).
  by apply H4.
Qed.

Lemma Solver_init_Ok w g s :
  Solver_init w g = Ok s →
  compute_lumps (elements (Circuit_nodes w)) (heap w) (components w)
    = Ok (node_map s, num_nodes s) ∧
  ground s = g ∧ node_map s !! g = Some (ground_idx s).
Proof.
  unfold Solver_init. intros Hs.
  apply bind_Ok in Hs as ([nm K] & Hl & Hs).
  apply bind_Ok in Hs as (gi & Hg%getitem_Ok & [= <-]). done.
Qed.

Lemma Solver_init_wf w g s : Solver_init w g = Ok s → solver_wf s w.
Proof.
  intros (Hl & Hg & Hgi)%Solver_init_Ok.
  destruct (compute_lumps_spec (elements (Circuit_nodes w)) (heap w)
              (components w)) as (m & K & Hl' & Hdom & Hlt & _).
  rewrite Hl in Hl'. injection Hl' as <- <-.
  split_and!; [by eapply Hlt|by rewrite Hg|done|].
  intros l Hl'. split; apply Hdom, elem_of_elements, elem_of_Circuit_nodes;
    exists l; eauto.
Qed.

Section stamps.
Variable s : Solver.
Variable n : nat.
Hypothesis Hground : ground_idx s < num_nodes s.
Hypothesis Hn : num_nodes s - 1 ≤ n.
Let node_index := index_nodes (num_nodes s) (ground_idx s).

Lemma add_conductance_square i j g A :
  i < num_nodes s → j < num_nodes s → square n A →
  ∃ A', add_conductance s node_index i j g A = Ok A' ∧ square n A'.
Proof using Hground Hn.
  intros Hi Hj HA. unfold add_conductance, getitem.
  assert (Hidx : ∀ k, k < num_nodes s → k ≠ ground_idx s →
                      ∃ kk, node_index !! k = Some kk ∧ kk < n).
  { intros k Hk Hne. destruct (index_nodes_Some _ _ k Hk Hne) as [kk Hkk].
    exists kk. split; [done|]. apply index_nodes_lt in Hkk; [lia|done]. }
  assert (H1 : ∃ A1,
    (if decide (i ≠ ground_idx s) then
       ii ← match node_index !! i with Some v => Ok v | None => Raise KeyError end;
       mat_update (λ v, nadd v g) ii ii A
     else Ok A) = Ok A1 ∧ square n A1).
  { case_decide as Hd; [|by exists A].
    destruct (Hidx i Hi Hd) as (ii & -> & Hii). by apply mat_update_square. }
  destruct H1 as (A1 & -> & HA1). cbn [mbind result_bind].
  assert (H2 : ∃ A2,
    (if decide (j ≠ ground_idx s) then
       jj ← match node_index !! j with Some v => Ok v | None => Raise KeyError end;
       mat_update (λ v, nadd v g) jj jj A1
     else Ok A1) = Ok A2 ∧ square n A2).
  { case_decide as Hd; [|by exists A1].
    destruct (Hidx j Hj Hd) as (jj & -> & Hjj). by apply mat_update_square. }
  destruct H2 as (A2 & -> & HA2). cbn [mbind result_bind].
  case_decide as Hd; [|by exists A2]. destruct Hd as [Hdi Hdj].
  destruct (Hidx i Hi Hdi) as (ii & -> & Hii).
  destruct (Hidx j Hj Hdj) as (jj & -> & Hjj). cbn [mbind result_bind].
  destruct (mat_update_square (λ v, nsub v g) ii jj n A2) as (A3 & -> & HA3);
    [done..|].
  by apply mat_update_square.
Qed.

Lemma stamp_component_square w A l :
  solver_wf s w → l ∈ components w → square n A →
  (∃ A', stamp_component s node_index (heap w) A l = Ok A' ∧ square n A') ∨
  stamp_component s node_index (heap w) A l = Raise ZeroDivisionError.
Proof using Hground Hn.
  intros (_ & _ & Hlt & Hdom) Hl HA. unfold stamp_component, getitem.
  destruct (Hdom l Hl) as [[a Ha] [b Hb]]. rewrite Ha, Hb.
  cbn [mbind result_bind].
  pose proof (Hlt _ _ Ha). pose proof (Hlt _ _ Hb).
  destruct (c_kind (deref (heap w) l)) as [|r|v|r t on]; [left; by exists A| |left; by exists A|].
  - unfold py_div. destruct (is_zero r); [by right|]. left.
    by apply add_conductance_square.
  - unfold py_div. destruct (is_zero _); [by right|]. left.
    by apply add_conductance_square.
Qed.

Lemma stamp_source_square w N A z k l :
  solver_wf s w → N = num_nodes s - 1 → N + k < n →
  l ∈ components w → is_VoltageSource (deref (heap w) l) →
  square n A → length z = n →
  ∃ A', stamp_source s node_index (heap w) N (A, z) (k, l)
        = Ok (A', <[N + k := source_voltage (deref (heap w) l)]> z) ∧
        square n A'.
Proof using Hground Hn.
  intros (_ & _ & Hlt & Hdom) -> Hk Hl Hvs HA Hz.
  unfold stamp_source, getitem.
  destruct (Hdom l Hl) as [[a Ha] [b Hb]]. rewrite Ha, Hb.
  cbn [mbind result_bind].
  pose proof (Hlt _ _ Ha). pose proof (Hlt _ _ Hb).
  assert (Hidx : ∀ k, k < num_nodes s → k ≠ ground_idx s →
                      ∃ kk, node_index !! k = Some kk ∧ kk < n).
  { intros i Hi Hne. destruct (index_nodes_Some _ _ i Hi Hne) as [kk Hkk].
    exists kk. split; [done|]. apply index_nodes_lt in Hkk; [lia|done]. }
  assert (Hside : ∀ (v : num) c A0, c < num_nodes s → square n A0 →
    ∃ A1,
      (if decide (c ≠ ground_idx s) then
         ic ← match node_index !! c with Some v => Ok v | None => Raise KeyError end;
         A' ← mat_update (λ _, v) (num_nodes s - 1 + k) ic A0;
         ic' ← match node_index !! c with Some v => Ok v | None => Raise KeyError end;
         mat_update (λ _, v) ic' (num_nodes s - 1 + k) A'
       else Ok A0) = Ok A1 ∧ square n A1).
  { intros v c A0 Hc HA0. case_decide as Hd; [|by exists A0].
    destruct (Hidx c Hc Hd) as (ic & -> & Hic). cbn [mbind result_bind].
    destruct (mat_update_square (λ _, v) (num_nodes s - 1 + k) ic n A0)
      as (A' & -> & HA'); [done..|].
    cbn [mbind result_bind]. by apply mat_update_square. }
  destruct (Hside none a A) as (A1 & -> & HA1); [done..|].
  cbn [mbind result_bind].
  destruct (Hside nmone b A1) as (A2 & -> & HA2); [done..|].
  cbn [mbind result_bind].
  unfold is_VoltageSource, source_voltage in *.
  destruct (c_kind (deref (heap w) l)); try done.
  unfold vec_set. rewrite decide_True by lia. cbn [mbind result_bind].
  by exists A2.
Qed.

End stamps.

Lemma stamp_source_z s node_index hp N A z k l A' z' :
  stamp_source s node_index hp N (A, z) (k, l) = Ok (A', z') →
  N + k < length z ∧ z' = <[N + k := source_voltage (deref hp l)]> z.
Proof.
  unfold stamp_source. intros Hs.
  apply bind_Ok in Hs as (a & _ & Hs). apply bind_Ok in Hs as (b & _ & Hs).
  apply bind_Ok in Hs as (A1 & _ & Hs). apply bind_Ok in Hs as (A2 & _ & Hs).
  unfold source_voltage. destruct (c_kind (deref hp l)); try done.
  apply bind_Ok in Hs as (z1 & Hz & [= <- <-]).
  unfold vec_set in Hz. case_decide; [|done]. by injection Hz as <-.
Qed.

Lemma elem_of_voltage_sources w l :
  l ∈ voltage_sources w ↔
  l ∈ components w ∧ is_VoltageSource (deref (heap w) l).
Proof. unfold voltage_sources. by rewrite list_elem_of_filter, (comm and). Qed.

(** The right-hand side: row [N + k] holds the voltage of the [k]-th
    element of the list of voltage sources. *)
Lemma build_matrix_z s w A z node_index :
  build_matrix s w = Ok (A, z, node_index) →
  node_index = index_nodes (num_nodes s) (ground_idx s) ∧
  length z = num_nodes s - 1 + length (voltage_sources w) ∧
  ∀ k l, voltage_sources w !! k = Some l →
         z !! (num_nodes s - 1 + k) = Some (source_voltage (deref (heap w) l)).
Proof.
  unfold build_matrix. intros Hb.
  apply bind_Ok in Hb as (A0 & _ & Hb).
  apply bind_Ok in Hb as ([A1 z1] & Hs & [= <- <- <-]). split; [done|].
  set (N := num_nodes s - 1) in *. set (vss := voltage_sources w) in *.
  apply (for_each_enumerate_inv
    (λ k '(_, z), length z = N + length vss ∧
       ∀ k' l, k' < k → vss !! k' = Some l →
               z !! (N + k') = Some (source_voltage (deref (heap w) l))))
    in Hs.
  - destruct Hs as [Hlen Hz]. split; [done|]. intros k l Hk.
    apply Hz; [|done]. by apply lookup_lt_Some in Hk.
  - split; [|lia]. unfold zeros. by rewrite length_replicate.
  - intros k l [Au zu] [Au' zu'] Hl [Hlen Hz] Hst.
    apply stamp_source_z in Hst as [Hk ->]. rewrite length_insert.
    split; [done|]. intros k' l' Hk' Hl'.
    destruct (decide (k' = k)) as [->|Hne].
    + rewrite list_lookup_insert_eq by done. congruence.
    + rewrite list_lookup_insert_ne by lia. apply Hz; [lia|done].
Qed.

(** build_matrix on a fitting solver: the only exception it can raise is
    ZeroDivisionError; otherwise the system has [(K - 1) + M] rows and
    columns. *)
Lemma build_matrix_total s w :
  solver_wf s w →
  (∃ A z, build_matrix s w
          = Ok (A, z, index_nodes (num_nodes s) (ground_idx s)) ∧
          square (num_nodes s - 1 + length (voltage_sources w)) A ∧
          length z = num_nodes s - 1 + length (voltage_sources w)) ∨
  build_matrix s w = Raise ZeroDivisionError.
Proof.
  intros Hwf. pose proof Hwf as (Hg & _ & _ & _). unfold build_matrix.
  set (N := num_nodes s - 1). set (vss := voltage_sources w).
  set (n := N + length vss).
  destruct (for_each_either (square n) ZeroDivisionError
              (stamp_component s (index_nodes (num_nodes s) (ground_idx s)) (heap w))
              (components w) (zeros2 n)) as [(A & -> & HA)| ->];
    [apply square_zeros2| |cbn [mbind result_bind]|by right].
  { intros A l Hl HA. apply stamp_component_square; [done|unfold n, N; lia|done..]. }
  left.
  destruct (for_each_enumerate_total
    (λ (k : nat) '(A', z'), square n A' ∧ length z' = n)
    (stamp_source s (index_nodes (num_nodes s) (ground_idx s)) (heap w) N)
    vss (A, zeros n)) as ([A' z'] & -> & HA' & Hz').
  - split; [done|]. unfold zeros. by rewrite length_replicate.
  - intros k l [Au zu] Hl [HAu Hzu].
    pose proof (lookup_lt_Some _ _ _ Hl) as Hk.
    apply list_elem_of_lookup_2, elem_of_voltage_sources in Hl as [Hl Hvs].
    destruct (stamp_source_square s n Hg ltac:(unfold n, N; lia) w N Au zu k l)
      as (A' & -> & HA'); [done|done|unfold n; lia|done..|].
    eexists. split; [done|]. split; [done|]. by rewrite length_insert.
  - cbn [mbind result_bind]. by exists A', z'.
Qed.

End Assembly.

(** ** Potentials, cell voltages and currents *)

Section Results.
Context {B : Backend}.
Implicit Types (s : Solver) (w : World) (V : gmap nat num) (x : list num).

(** A dict filled key by key from the items of another. *)
Lemma for_each_fill {K X C} `{Countable K} (g : X → result C)
    (kvs : list (K * X)) (m0 m : gmap K C) :
  for_each (λ m '(k, a), v ← g a; Ok (<[k := v]> m)) kvs m0 = Ok m →
  NoDup kvs.*1 →
  (∀ k a, (k, a) ∈ kvs → ∃ v, g a = Ok v ∧ m !! k = Some v) ∧
  (∀ k, k ∉ kvs.*1 → m !! k = m0 !! k).
Proof.
  revert m0. induction kvs as [|[k a] kvs IH]; intros m0 Hrun Hnd.
  - simpl in Hrun. injection Hrun as <-. split; [|done].
    by intros ? ? ?%elem_of_nil.
  - rewrite for_each_cons in Hrun. apply bind_Ok in Hrun as (m1 & Hm1 & Hrun).
    apply bind_Ok in Hm1 as (v & Hv & [= <-]).
    apply NoDup_cons in Hnd as [Hk Hnd]. simpl in Hk.
    destruct (IH _ Hrun Hnd) as [Hin Hout]. split.
    + intros k' a' [[= -> ->]|Hi]%elem_of_cons; [|by apply Hin].
      exists v. split; [done|]. by rewrite Hout, lookup_insert_eq.
    + intros k' Hk'. simpl in Hk'. apply not_elem_of_cons in Hk' as [Hne Hk'].
      by rewrite Hout, lookup_insert_ne.
Qed.

Lemma potentials_spec s node_index x V :
  potentials s node_index x = Ok V →
  node_index !! ground_idx s = None →
  V !! ground_idx s = Some nzero ∧
  ∀ n idx, node_index !! n = Some idx →
           ∃ v, x !! idx = Some v ∧ V !! n = Some v.
Proof.
  unfold potentials. intros Hp Hg.
  apply (for_each_fill (getitem IndexError x)) in Hp as [Hin Hout];
    [|apply NoDup_fst_map_to_list].
  split.
  - rewrite Hout; [by rewrite lookup_singleton_eq|].
    intros ([n idx] & Heq & Hi%elem_of_map_to_list)%list_elem_of_fmap.
    simpl in Heq. congruence.
  - intros n idx Hn%elem_of_map_to_list.
    destruct (Hin _ _ Hn) as (v & Hv%getitem_Ok & HV). by exists v.
Qed.

Lemma cell_voltages_spec (voltages : option (gmap nat num))
    (node_map : gmap Node nat) (cell : gmap Node num) :
  cell_voltages voltages node_map = Ok cell →
  ∀ pos idx, node_map !! pos = Some idx →
             ∃ V v, voltages = Some V ∧ V !! idx = Some v ∧
                    cell !! pos = Some v.
Proof.
  unfold cell_voltages. intros Hc pos idx Hpos%elem_of_map_to_list.
  apply (for_each_fill (λ idx, V ← from_option Ok (Raise TypeError) voltages;
                               getitem KeyError V idx)) in Hc as [Hin _];
    [|apply NoDup_fst_map_to_list].
  destruct (Hin _ _ Hpos) as (v & Hv & Hcell).
  apply bind_Ok in Hv as (V & HV%from_option_Ok & Hv%getitem_Ok).
  by exists V, v.
Qed.

(** list.index finds the first position of the object. *)
Lemma list_index_Ok (comp : loc) (l : list loc) (i : nat) :
  list_index comp l = Ok i ↔
  l !! i = Some comp ∧ ∀ j, j < i → l !! j ≠ Some comp.
Proof.
  unfold list_index.
  destruct (list_find (λ c, c = comp) l) as [[i' c]|] eqn:Hf.
  - apply list_find_Some in Hf as (Hi & -> & Hbefore). split.
    + intros [= <-]. split; [done|]. intros j Hj Hl. by eapply Hbefore.
    + intros [Hl Hfirst]. f_equal.
      destruct (Nat.lt_trichotomy i i') as [Hlt|[->|Hgt]]; [|done|].
      * by destruct (Hbefore _ _ Hl Hlt).
      * by destruct (Hfirst _ Hgt).
  - split; [done|]. intros [Hl _].
    apply list_find_None in Hf. rewrite Forall_forall in Hf.
    destruct (Hf comp); [|done]. by eapply list_elem_of_lookup_2.
Qed.

(** A component that is a wire, or bears another name, leaves the entry
    of the name [nm] alone. *)
Lemma record_current_other s w cur currents l currents' nm :
  record_current s w cur currents l = Ok currents' →
  is_Wire (deref (heap w) l) ∨ c_name (deref (heap w) l) ≠ nm →
  currents' !! nm = currents !! nm.
Proof.
  unfold record_current, is_Wire. intros Hr Hnm.
  apply bind_Ok in Hr as (ca & _ & Hr).
  apply bind_Ok in Hr as ([V x] & _ & Hr).
  apply bind_Ok in Hr as (va & _ & Hr).
  apply bind_Ok in Hr as (cb & _ & Hr).
  apply bind_Ok in Hr as (vb & _ & Hr).
  destruct (c_kind (deref (heap w) l)).
  - by injection Hr as <-.
  - apply bind_Ok in Hr as (i & _ & [= <-]).
    destruct Hnm as [|Hnm]; [done|]. by rewrite lookup_insert_ne.
  - apply bind_Ok in Hr as (idx & _ & Hr).
    apply bind_Ok in Hr as (i & _ & [= <-]).
    destruct Hnm as [|Hnm]; [done|]. by rewrite lookup_insert_ne.
  - apply bind_Ok in Hr as (i & _ & [= <-]).
    destruct Hnm as [|Hnm]; [done|]. by rewrite lookup_insert_ne.
Qed.

(** A voltage source is given entry [N + idx] of the solution, [idx]
    being its first position among the voltage sources. *)
Lemma record_current_source s w cur currents l currents' voltage :
  record_current s w cur currents l = Ok currents' →
  c_kind (deref (heap w) l) = VoltageSource voltage →
  ∃ V x idx i,
    cur = Some (V, x) ∧
    list_index l (voltage_sources w) = Ok idx ∧
    x !! (num_nodes s - 1 + idx) = Some i ∧
    currents' = <[c_name (deref (heap w) l) := i]> currents.
Proof.
  unfold record_current. intros Hr Hk. rewrite Hk in Hr.
  apply bind_Ok in Hr as (ca & _ & Hr).
  apply bind_Ok in Hr as ([V x] & Hcur%from_option_Ok & Hr).
  apply bind_Ok in Hr as (va & _ & Hr).
  apply bind_Ok in Hr as (cb & _ & Hr).
  apply bind_Ok in Hr as (vb & _ & Hr).
  apply bind_Ok in Hr as (idx & Hidx & Hr).
  apply bind_Ok in Hr as (i & Hi%getitem_Ok & [= <-]).
  by exists V, x, idx, i.
Qed.

(** The entry of a name is written by the last component that bears it
    and is no wire. *)
Lemma record_currents_source s w cur pre l post currents voltage :
  for_each (record_current s w cur) (pre ++ l :: post) ∅ = Ok currents →
  c_kind (deref (heap w) l) = VoltageSource voltage →
  (∀ l', l' ∈ post →
         is_Wire (deref (heap w) l') ∨
         c_name (deref (heap w) l') ≠ c_name (deref (heap w) l)) →
  ∃ V x idx i,
    cur = Some (V, x) ∧
    list_index l (voltage_sources w) = Ok idx ∧
    x !! (num_nodes s - 1 + idx) = Some i ∧
    currents !! c_name (deref (heap w) l) = Some i.
Proof.
  intros Hrun Hk Hpost. rewrite for_each_app in Hrun.
  apply bind_Ok in Hrun as (c1 & _ & Hrun). rewrite for_each_cons in Hrun.
  apply bind_Ok in Hrun as (c2 & Hl & Hrun).
  destruct (record_current_source _ _ _ _ _ _ _ Hl Hk)
    as (V & x & idx & i & Hcur & Hidx & Hi & ->).
  exists V, x, idx, i. split_and!; [done..|].
  eapply (for_each_inv (λ c, c !! c_name (deref (heap w) l) = Some i));
    [|..|exact Hrun].
  - by rewrite lookup_insert_eq.
  - intros c l' c' Hl' Hc Hr.
    rewrite (record_current_other _ _ _ _ _ _ _ Hr); [done|]. by apply Hpost.
Qed.

End Results.

(** ** Ground, and the currents of voltage sources *)

Section SolverClaims.
Context {B : Backend}.
Implicit Types (s : Solver) (w : World) (V : gmap nat num) (x : list num).

(** The potentials a call returns come from a pass: a system assembled
    on a world that differs from the caller's in LED states only, and the
    solution the linear solver gave for it. *)
Lemma solve_last_pass s max_iter w V currents w' :
  solve s max_iter w = Ok (Some V, currents, w') →
  ∃ out w1 A z x states,
    loop s (led_list w) max_iter w None None 0 = Ok out ∧
    lo_cur out = Some (V, x) ∧ lo_world out = w' ∧
    components w1 = components w ∧ frame_eq (heap w) (heap w1) ∧
    build_matrix s w1
      = Ok (A, z, index_nodes (num_nodes s) (ground_idx s)) ∧
    linalg_solve A z = Some x ∧
    potentials s (index_nodes (num_nodes s) (ground_idx s)) x = Ok V ∧
    step s (led_list w) w1 = Ok (V, x, states, w').
Proof.
  intros (out & Hl & _ & HV & ->)%solve_Ok.
  pose proof Hl as (k & _ & _ & _ & Hlast)%loop_spec. destruct k as [|k].
  - destruct Hlast as [Hc _]. by rewrite Hc in HV.
  - destruct Hlast as (w1 & V' & x & st & Hw1 & Hs & Hc).
    rewrite Hc in HV. injection HV as ->.
    apply world_after_frame in Hw1 as [Hcs Hf].
    pose proof Hs as (A & z & ni & hp & Hb & Hx & HV & _ & _)%step_Ok.
    pose proof (build_matrix_z _ _ _ _ _ Hb) as (-> & _).
    by exists out, w1, A, z, x, st.
Qed.

(** C4.  For a solver made for the circuit: the ground class has no
    unknown ([node_index] has no entry for it, the other classes are
    numbered below [N = K - 1]); in every pass build_matrix assembles a
    system of [N + M] rows and columns, never looking up or writing an
    index outside it (KeyError and IndexError cannot occur: the only
    exception is the ZeroDivisionError of a zero resistance); and the
    potential returned for the ground class, and through it for every
    node of that class, is exactly 0. *)
Theorem ground_class_excluded w ground s :
  Solver_init w ground = Ok s →
  let K := num_nodes s in
  let N := K - 1 in
  let M := length (voltage_sources w) in
  let node_index := index_nodes K (ground_idx s) in
  (ground_idx s < K ∧
   node_map s !! ground = Some (ground_idx s) ∧
   node_index !! ground_idx s = None ∧
   (∀ c, c < K → c ≠ ground_idx s → ∃ i, node_index !! c = Some i ∧ i < N) ∧
   (∀ c i, node_index !! c = Some i → c < K ∧ c ≠ ground_idx s ∧ i < N)) ∧
  (∀ w', frame_eq (heap w) (heap w') → components w' = components w →
     (∃ A z, build_matrix s w' = Ok (A, z, node_index) ∧
             square (N + M) A ∧ length z = N + M) ∨
     build_matrix s w' = Raise ZeroDivisionError) ∧
  (∀ max_iter V currents w',
     solve s max_iter w = Ok (Some V, currents, w') →
     V !! ground_idx s = Some nzero ∧
     ∀ n, node_map s !! n = Some (ground_idx s) →
          potential_at s V n = Ok nzero) ∧
  (∀ width height cell currents s' hp',
     GridCircuit_solve (heap w) (mkGrid width height (components w)) ground
       = Ok (cell, currents, Some s', hp') →
     ∀ pos, node_map s' !! pos = Some (ground_idx s') →
            cell !! pos = Some nzero).
Proof.
  intros Hs K N M node_index.
  pose proof (Solver_init_wf _ _ _ Hs) as Hwf.
  pose proof Hwf as (Hg & _ & _ & _).
  pose proof (Solver_init_Ok _ _ _ Hs) as (_ & _ & Hgi).
  assert (Hzero : ∀ s0 max_iter V currents w',
    solve s0 max_iter w = Ok (Some V, currents, w') →
    V !! ground_idx s0 = Some nzero).
  { intros s0 max_iter V currents w' Hsol.
    apply solve_last_pass in Hsol
      as (out & w1 & A & z & x & st & _ & _ & _ & _ & _ & _ & _ & HV & _).
    apply potentials_spec in HV as [HV _]; [done|apply index_nodes_ground]. }
  split_and!.
  - done.
  - done.
  - apply index_nodes_ground.
  - intros c Hc Hne. destruct (index_nodes_Some K (ground_idx s) c Hc Hne) as [i Hi].
    exists i. split; [done|]. by apply index_nodes_lt in Hi as (_ & _ & ?).
  - intros c i Hi. by apply index_nodes_lt in Hi.
  - intros w' Hf Hc. unfold M.
    rewrite <- (voltage_sources_frame _ _ Hf Hc).
    apply build_matrix_total. by eapply solver_wf_frame.
  - intros max_iter V currents w' Hsol.
    pose proof (Hzero _ _ _ _ _ Hsol) as HV. split; [done|].
    intros n Hn. unfold potential_at, getitem. rewrite Hn.
    cbn [mbind result_bind]. by rewrite HV.
  - intros width height cell currents s' hp'. unfold GridCircuit_solve.
    rewrite to_circuit_eq. simpl. intros Hgrid. case_decide; [done|].
    assert (mkWorld (heap w) (components w) = w) as Hw by (by destruct w).
    rewrite Hw in Hgrid.
    apply bind_Ok in Hgrid as (s0 & Hs0 & Hgrid).
    apply bind_Ok in Hgrid as ([[voltages cs] w1] & Hsol & Hgrid).
    apply bind_Ok in Hgrid as (cv & Hcv & [= <- <- <- <-]).
    intros pos Hpos.
    destruct (cell_voltages_spec _ _ _ Hcv _ _ Hpos) as (V & v & -> & Hv & Hcell).
    rewrite (Hzero _ _ _ _ _ Hsol) in Hv. by injection Hv as <-.
Qed.


End SolverClaims.


(** * Rewiring: wires turned around or added in another order *)

Section Rewired.
Context {B : Backend}.
Implicit Types (w : World) (hp : list Component) (l : loc).

(** The components that are no wires, in order. *)
Definition nonwires (w : World) : list loc :=
  filter (λ l, ¬ is_Wire (deref (heap w) l)) (components w).

(** [w'] is [w] rewired: the components other than wires are the same
    objects in the same order, and the wires join the same pairs of nodes,
    whatever their order, their position among the other components and
    the order of their two endpoints. *)
Record rewired (w w' : World) : Prop := mkRewired {
  rw_nonwires : nonwires w' = nonwires w;
  rw_objects : ∀ l, l ∈ nonwires w → deref (heap w') l = deref (heap w) l;
  rw_edges : ∀ a b, (a, b) ∈ wire_edges (heap w) (components w) →
                    (a, b) ∈ wire_edges (heap w') (components w') ∨
                    (b, a) ∈ wire_edges (heap w') (components w');
  rw_edges_back : ∀ a b, (a, b) ∈ wire_edges (heap w') (components w') →
                         (a, b) ∈ wire_edges (heap w) (components w) ∨
                         (b, a) ∈ wire_edges (heap w) (components w)
}.

(** [w1] is [w] after some passes: the same list, the same objects up to
    LED states. *)
Definition variant (w w1 : World) : Prop :=
  components w1 = components w ∧ frame_eq (heap w) (heap w1).

Lemma rewired_sym w w' : rewired w w' → rewired w' w.
Proof.
  intros [Hn Ho He He']. split; [done| |done|done].
  intros l Hl. rewrite Hn in Hl. by rewrite Ho.
Qed.

Lemma elem_of_nonwires w l :
  l ∈ nonwires w ↔ l ∈ components w ∧ is_Wire (deref (heap w) l) = false.
Proof.
  unfold nonwires. rewrite list_elem_of_filter, (comm and).
  by rewrite Is_true_false.
Qed.

Lemma elem_of_wire_edges hp comps a b :
  (a, b) ∈ wire_edges hp comps ↔
  ∃ l, l ∈ comps ∧ is_Wire (deref hp l) = true ∧
       c_a (deref hp l) = a ∧ c_b (deref hp l) = b.
Proof.
  unfold wire_edges. rewrite list_elem_of_omap. split.
  - intros (l & Hl & He). exists l. split; [done|].
    destruct (is_Wire (deref hp l)); [|done]. by injection He as <- <-.
  - intros (l & Hl & Hw & <- & <-). exists l. split; [done|]. by rewrite Hw.
Qed.

Lemma Circuit_nodes_split w n :
  n ∈ Circuit_nodes w ↔
  (∃ l, l ∈ nonwires w ∧
        (n = c_a (deref (heap w) l) ∨ n = c_b (deref (heap w) l))) ∨
  (∃ a b, (a, b) ∈ wire_edges (heap w) (components w) ∧ (n = a ∨ n = b)).
Proof.
  rewrite elem_of_Circuit_nodes. split.
  - intros (l & Hl & Hn). destruct (is_Wire (deref (heap w) l)) eqn:Hw.
    + right. exists (c_a (deref (heap w) l)), (c_b (deref (heap w) l)).
      split; [|done]. apply elem_of_wire_edges. by exists l.
    + left. exists l. split; [|done]. by apply elem_of_nonwires.
  - intros [(l & [Hl _]%elem_of_nonwires & Hn)|(a & b & He & Hn)].
    + by exists l.
    + apply elem_of_wire_edges in He as (l & Hl & _ & <- & <-). by exists l.
Qed.

Lemma rewired_nodes w w' n :
  rewired w w' → n ∈ Circuit_nodes w → n ∈ Circuit_nodes w'.
Proof.
  intros [Hn Ho He _]. rewrite !Circuit_nodes_split.
  intros [(l & Hl & Hend)|(a & b & Hab & Hend)].
  - left. exists l. rewrite Hn, (Ho l Hl). done.
  - right. destruct (He a b Hab) as [H1|H1].
    + by exists a, b.
    + exists b, a. split; [done|]. by destruct Hend; [right|left].
Qed.

Lemma rewired_conn w w' x y :
  rewired w w' →
  conn (wire_edges (heap w) (components w)) x y ↔
  conn (wire_edges (heap w') (components w')) x y.
Proof.
  intros [_ _ He He']. split; apply conn_unoriented; done.
Qed.

Lemma filter_ext_in {X} (P Q : X → Prop) `{∀ x, Decision (P x)}
    `{∀ x, Decision (Q x)} (l : list X) :
  (∀ x, x ∈ l → P x ↔ Q x) → filter P l = filter Q l.
Proof.
  induction l as [|x l IH]; intros HPQ; [done|].
  rewrite !filter_cons. rewrite IH by (intros y Hy; apply HPQ; by right).
  destruct (decide (P x)) as [HP|HP], (decide (Q x)) as [HQ|HQ]; try done.
  - destruct HQ. apply HPQ; [by left|done].
  - destruct HP. apply HPQ; [by left|done].
Qed.

(** The filters of solve and build_matrix skip the wires. *)
Lemma filter_nonwires (P : Component → bool) w :
  (∀ c, P c → is_Wire c = false) →
  filter (λ l, P (deref (heap w) l)) (components w)
  = filter (λ l, P (deref (heap w) l)) (nonwires w).
Proof.
  intros HP. unfold nonwires. rewrite list_filter_filter.
  apply list_filter_iff. intros l. split; [|by intros [? _]].
  intros Hl. split; [done|]. rewrite (HP _ Hl). by intros [].
Qed.

Lemma filter_rewired (P : Component → bool) w w' :
  (∀ c, P c → is_Wire c = false) →
  rewired w w' →
  filter (λ l, P (deref (heap w') l)) (components w')
  = filter (λ l, P (deref (heap w) l)) (components w).
Proof.
  intros HP [Hn Ho _ _]. rewrite !filter_nonwires by done. rewrite Hn.
  apply filter_ext_in. intros l Hl. by rewrite (Ho l Hl).
Qed.

Lemma voltage_sources_rewired w w' :
  rewired w w' → voltage_sources w' = voltage_sources w.
Proof.
  apply filter_rewired. intros c. unfold is_VoltageSource, is_Wire.
  by destruct (c_kind c).
Qed.

Lemma led_list_rewired w w' : rewired w w' → led_list w' = led_list w.
Proof.
  apply filter_rewired. intros c. unfold is_LED, is_Wire.
  by destruct (c_kind c).
Qed.

Lemma variant_refl w : variant w w.
Proof. done. Qed.

(** Passes keep two rewired circuits rewired, as long as they leave the
    same states in the LEDs. *)
Lemma rewired_variant w w' w1 w1' :
  rewired w w' → variant w w1 → variant w' w1' →
  (∀ l, l ∈ nonwires w → deref (heap w1') l = deref (heap w1) l) →
  rewired w1 w1'.
Proof.
  intros [Hn Ho He He'] [Hc Hf] [Hc' Hf'] Hsame.
  assert (Hnw : ∀ v v1, components v1 = components v →
                        frame_eq (heap v) (heap v1) → nonwires v1 = nonwires v).
  { intros v v1 Hcv Hfv. unfold nonwires. rewrite Hcv.
    apply list_filter_iff. intros l.
    destruct (erase_fields _ _ (frame_eq_deref _ _ l Hfv)) as (_ & _ & _ & -> & _).
    done. }
  assert (Hwe : ∀ v v1, components v1 = components v →
                        frame_eq (heap v) (heap v1) →
                        wire_edges (heap v1) (components v1)
                        = wire_edges (heap v) (components v)).
  { intros v v1 Hcv Hfv. unfold wire_edges. rewrite Hcv.
    apply list_omap_ext, Forall2_same_length_lookup_2; [done|].
    intros i x y Hx Hy. rewrite Hx in Hy. injection Hy as <-.
    pose proof (frame_eq_deref _ _ x Hfv) as Her.
    destruct (is_LED (deref (heap v) x)) eqn:Hled.
    - pose proof (erase_fields _ _ Her) as (? & ? & ? & Hw & _).
      assert (is_Wire (deref (heap v) x) = false) as Hw'.
      { unfold is_LED, is_Wire in *. by destruct (c_kind (deref (heap v) x)). }
      cbv zeta. by rewrite Hw, Hw'.
    - by rewrite <- (erase_not_LED _ _ (eq_sym Her) Hled). }
  split.
  - rewrite (Hnw _ _ Hc' Hf'), (Hnw _ _ Hc Hf). done.
  - intros l Hl. rewrite (Hnw _ _ Hc Hf) in Hl. by apply Hsame.
  - rewrite (Hwe _ _ Hc Hf), (Hwe _ _ Hc' Hf'). done.
  - rewrite (Hwe _ _ Hc Hf), (Hwe _ _ Hc' Hf'). done.
Qed.

End Rewired.

(** ** Two solvers for two rewired circuits *)

Section Relabel.
Context {B : Backend}.

(** [s] numbers the classes of [w]: its map is defined on the nodes of
    the circuit, takes every value below [num_nodes], gives two nodes the
    same index exactly when wires connect them, and [ground_idx] is the
    index of the ground node [g].  Nothing is said of which class gets
    which index. *)
Definition numbers (s : Solver) (w : World) (g : Node) : Prop :=
  ground s = g ∧
  (∀ n, is_Some (node_map s !! n) ↔ n ∈ Circuit_nodes w) ∧
  (∀ n i, node_map s !! n = Some i → i < num_nodes s) ∧
  (∀ i, i < num_nodes s → ∃ n, node_map s !! n = Some i) ∧
  (∀ x y i j, node_map s !! x = Some i → node_map s !! y = Some j →
              i = j ↔ conn (wire_edges (heap w) (components w)) x y) ∧
  node_map s !! g = Some (ground_idx s).

Lemma numbers_spec (w : World) (g : Node) (s : Solver) :
  numbers s w g →
  (∀ n, is_Some (node_map s !! n) ↔ n ∈ Circuit_nodes w) ∧
  (∀ n i, node_map s !! n = Some i → i < num_nodes s) ∧
  (∀ i, i < num_nodes s → ∃ n, node_map s !! n = Some i) ∧
  (∀ x y i j, node_map s !! x = Some i → node_map s !! y = Some j →
              i = j ↔ conn (wire_edges (heap w) (components w)) x y) ∧
  node_map s !! g = Some (ground_idx s).
Proof. by intros [_ H]. Qed.

(** Whatever the order in which the node set is iterated, what
    compute_lumps returns numbers the classes. *)
Lemma compute_lumps_numbers (nodes : list Node) (w : World) (g : Node)
    (node_map : gmap Node nat) (K gi : nat) :
  (∀ n, n ∈ nodes ↔ n ∈ Circuit_nodes w) →
  compute_lumps nodes (heap w) (components w) = Ok (node_map, K) →
  node_map !! g = Some gi →
  numbers (mkSolver g node_map K gi) w g.
Proof.
  intros Hnodes Hl Hg.
  destruct (compute_lumps_spec nodes (heap w) (components w))
    as (m & K' & Hl' & Hdom & Hlt & Hsur & Hconn).
  rewrite Hl in Hl'. injection Hl' as <- <-.
  split_and!; [done| |done..]. intros n. simpl. by rewrite Hdom.
Qed.

Lemma Solver_init_numbers (w : World) (g : Node) (s : Solver) :
  Solver_init w g = Ok s → numbers s w g.
Proof.
  intros Hs. unfold Solver_init in Hs.
  apply bind_Ok in Hs as ([m K] & Hl & Hs).
  apply bind_Ok in Hs as (gi & Hg & [= <-]).
  apply getitem_Ok in Hg.
  apply (compute_lumps_numbers (elements (Circuit_nodes w))); [|done..].
  intros n. apply elem_of_elements.
Qed.

Lemma numbers_wf (w : World) (g : Node) (s : Solver) :
  numbers s w g → solver_wf s w.
Proof.
  intros (Hgr & Hdom & Hlt & _ & _ & Hg). subst g.
  split_and!; [by eapply Hlt|done|done|].
  intros l Hl. split; apply Hdom, elem_of_Circuit_nodes; exists l; eauto.
Qed.

(** Class [c] of the first solver and class [c'] of the second hold a
    common node. *)
Definition relabel (s s' : Solver) (c c' : nat) : Prop :=
  ∃ n, node_map s !! n = Some c ∧ node_map s' !! n = Some c'.

(** Unknown [i] of the first system and unknown [i'] of the second stand
    for the potential of the same class or for the current of the same
    voltage source. *)
Definition same_unknown (s s' : Solver) (i i' : nat) : Prop :=
  (∃ c c', relabel s s' c c' ∧
           index_nodes (num_nodes s) (ground_idx s) !! c = Some i ∧
           index_nodes (num_nodes s') (ground_idx s') !! c' = Some i') ∨
  (∃ k, i = num_nodes s - 1 + k ∧ i' = num_nodes s' - 1 + k).

(** A relation between [0..K) and [0..K') that is total and one-to-one
    needs [K <= K']. *)
Lemma injection_le (R : nat → nat → Prop) (K K' : nat) :
  (∀ c, c < K → ∃ c', c' < K' ∧ R c c') →
  (∀ c1 c2 c', R c1 c' → R c2 c' → c1 = c2) →
  K ≤ K'.
Proof.
  intros Htot Hinj.
  assert (Himg : ∀ k, k ≤ K →
    ∃ l : list nat, length l = k ∧ NoDup l ∧
                    ∀ x, x ∈ l → x < K' ∧ ∃ c, c < k ∧ R c x).
  { induction k as [|k IH]; intros Hk.
    - exists []. split_and!; [done|constructor|]. by intros ? ?%elem_of_nil.
    - destruct IH as (l & Hlen & Hnd & Hl); [lia|].
      destruct (Htot k) as (c' & Hc' & HR); [lia|].
      exists (c' :: l). split_and!.
      + simpl. by rewrite Hlen.
      + constructor; [|done]. intros Hin.
        destruct (Hl _ Hin) as (_ & c & Hc & HR').
        pose proof (Hinj _ _ _ HR HR'). lia.
      + intros x [->|Hx]%elem_of_cons.
        * split; [done|]. exists k. split; [lia|done].
        * destruct (Hl _ Hx) as (? & c & ? & ?). split; [done|].
          exists c. split; [lia|done]. }
  destruct (Himg K) as (l & Hlen & Hnd & Hl); [done|].
  rewrite <- Hlen. replace K' with (length (seq 0 K')) by apply length_seq.
  apply submseteq_length.
  apply NoDup_submseteq; [done|]. intros x Hx.
  apply elem_of_seq. destruct (Hl x Hx). lia.
Qed.

Variables (w0 w0' : World) (ground : Node) (s s' : Solver).
Hypothesis Hrw : rewired w0 w0'.
Hypothesis Hs : numbers s w0 ground.
Hypothesis Hs' : numbers s' w0' ground.

Lemma relabel_node n c :
  node_map s !! n = Some c → ∃ c', node_map s' !! n = Some c'.
Proof using Hrw Hs Hs'.
  intros Hn.
  destruct (numbers_spec _ _ _ Hs) as (Hdom & _).
  destruct (numbers_spec _ _ _ Hs') as (Hdom' & _).
  apply Hdom'. eapply rewired_nodes; [done|]. by apply Hdom.
Qed.

Lemma relabel_node_back n c' :
  node_map s' !! n = Some c' → ∃ c, node_map s !! n = Some c.
Proof using Hrw Hs Hs'.
  intros Hn.
  destruct (numbers_spec _ _ _ Hs) as (Hdom & _).
  destruct (numbers_spec _ _ _ Hs') as (Hdom' & _).
  apply Hdom. eapply rewired_nodes; [by apply rewired_sym|]. by apply Hdom'.
Qed.

Lemma relabel_functional c c1 c2 :
  relabel s s' c c1 → relabel s s' c c2 → c1 = c2.
Proof using Hrw Hs Hs'.
  intros (n1 & H1 & H1') (n2 & H2 & H2').
  destruct (numbers_spec _ _ _ Hs) as (_ & _ & _ & Hconn & _).
  destruct (numbers_spec _ _ _ Hs') as (_ & _ & _ & Hconn' & _).
  apply (Hconn' n1 n2); [done..|]. apply (rewired_conn _ _ _ _ Hrw).
  by apply (Hconn n1 n2 c c).
Qed.

Lemma relabel_injective c1 c2 c' :
  relabel s s' c1 c' → relabel s s' c2 c' → c1 = c2.
Proof using Hrw Hs Hs'.
  intros (n1 & H1 & H1') (n2 & H2 & H2').
  destruct (numbers_spec _ _ _ Hs) as (_ & _ & _ & Hconn & _).
  destruct (numbers_spec _ _ _ Hs') as (_ & _ & _ & Hconn' & _).
  apply (Hconn n1 n2); [done..|]. apply (rewired_conn _ _ _ _ Hrw).
  by apply (Hconn' n1 n2 c' c').
Qed.

Lemma relabel_lt c c' :
  relabel s s' c c' → c < num_nodes s ∧ c' < num_nodes s'.
Proof using Hs Hs'.
  intros (n & H1 & H1').
  destruct (numbers_spec _ _ _ Hs) as (_ & Hlt & _).
  destruct (numbers_spec _ _ _ Hs') as (_ & Hlt' & _).
  split; [by eapply Hlt|by eapply Hlt'].
Qed.

Lemma relabel_total c : c < num_nodes s → ∃ c', relabel s s' c c'.
Proof using Hrw Hs Hs'.
  intros Hc.
  destruct (numbers_spec _ _ _ Hs) as (_ & _ & Hsur & _).
  destruct (Hsur c Hc) as (n & Hn). destruct (relabel_node n c Hn) as (c' & Hn').
  exists c', n. done.
Qed.

Lemma relabel_onto c' : c' < num_nodes s' → ∃ c, relabel s s' c c'.
Proof using Hrw Hs Hs'.
  intros Hc.
  destruct (numbers_spec _ _ _ Hs') as (_ & _ & Hsur & _).
  destruct (Hsur c' Hc) as (n & Hn).
  destruct (relabel_node_back n c' Hn) as (c & Hn').
  exists c, n. done.
Qed.

Lemma relabel_ground : relabel s s' (ground_idx s) (ground_idx s').
Proof using Hs Hs'.
  destruct (numbers_spec _ _ _ Hs) as (_ & _ & _ & _ & Hg).
  destruct (numbers_spec _ _ _ Hs') as (_ & _ & _ & _ & Hg').
  by exists ground.
Qed.

Lemma relabel_ground_iff c c' :
  relabel s s' c c' → c = ground_idx s ↔ c' = ground_idx s'.
Proof using Hrw Hs Hs'.
  intros HR. split; intros ->.
  - eapply relabel_functional; [done|apply relabel_ground].
  - eapply relabel_injective; [done|apply relabel_ground].
Qed.

(** The two circuits have the same number of classes. *)
Lemma relabel_num_nodes : num_nodes s' = num_nodes s.
Proof using Hrw Hs Hs'.
  apply Nat.le_antisymm.
  - apply (injection_le (λ c' c, relabel s s' c c')).
    + intros c' Hc'. destruct (relabel_onto c' Hc') as (c & HR).
      exists c. split; [|done]. by apply relabel_lt in HR as [? _].
    + intros c1 c2 c H1 H2. by eapply relabel_functional.
  - apply (injection_le (relabel s s')).
    + intros c Hc. destruct (relabel_total c Hc) as (c' & HR).
      exists c'. split; [|done]. by apply relabel_lt in HR as [_ ?].
    + intros c1 c2 c H1 H2. by eapply relabel_injective.
Qed.

(** The nodes are lumped alike. *)
Lemma relabel_classes x y :
  x ∈ Circuit_nodes w0 → y ∈ Circuit_nodes w0 →
  node_map s !! x = node_map s !! y ↔ node_map s' !! x = node_map s' !! y.
Proof using Hrw Hs Hs'.
  destruct (numbers_spec _ _ _ Hs) as (Hdom & _ & _ & Hconn & _).
  destruct (numbers_spec _ _ _ Hs') as (Hdom' & _ & _ & Hconn' & _).
  intros [i Hx]%Hdom [j Hy]%Hdom.
  destruct (relabel_node _ _ Hx) as (i' & Hx').
  destruct (relabel_node _ _ Hy) as (j' & Hy').
  rewrite Hx, Hy, Hx', Hy'.
  split; intros [= ->]; f_equal.
  - apply (Hconn' x y); [done..|]. apply (rewired_conn _ _ _ _ Hrw).
    by apply (Hconn x y j j).
  - apply (Hconn x y); [done..|]. apply (rewired_conn _ _ _ _ Hrw).
    by apply (Hconn' x y j' j').
Qed.

(** *** The unknowns *)

Lemma same_unknown_class c c' :
  relabel s s' c c' → c ≠ ground_idx s →
  ∃ i i', index_nodes (num_nodes s) (ground_idx s) !! c = Some i ∧
          index_nodes (num_nodes s') (ground_idx s') !! c' = Some i' ∧
          same_unknown s s' i i'.
Proof using Hrw Hs Hs'.
  intros HR Hne. pose proof (relabel_lt _ _ HR) as [Hc Hc'].
  assert (c' ≠ ground_idx s') as Hne'.
  { intros Heq. by apply (relabel_ground_iff _ _ HR) in Heq. }
  destruct (index_nodes_Some _ _ c Hc Hne) as [i Hi].
  destruct (index_nodes_Some _ _ c' Hc' Hne') as [i' Hi'].
  exists i, i'. split_and!; [done..|]. left. by exists c, c'.
Qed.

Lemma same_unknown_source k :
  same_unknown s s' (num_nodes s - 1 + k) (num_nodes s' - 1 + k).
Proof. right. by exists k. Qed.

Lemma ground_lt : ground_idx s < num_nodes s ∧ ground_idx s' < num_nodes s'.
Proof using Hs Hs'. apply relabel_lt, relabel_ground. Qed.

Lemma same_unknown_functional i i1 i2 :
  same_unknown s s' i i1 → same_unknown s s' i i2 → i1 = i2.
Proof using Hrw Hs Hs'.
  pose proof ground_lt as [Hg Hg'].
  intros [(c1 & c1' & HR1 & Hi1 & Hi1')|(k1 & -> & ->)]
         [(c2 & c2' & HR2 & Hi2 & Hi2')|(k2 & Heq & ->)].
  - pose proof (index_nodes_inj _ _ _ _ _ Hi1 Hi2) as <-.
    pose proof (relabel_functional _ _ _ HR1 HR2) as <-. congruence.
  - apply index_nodes_lt in Hi1; [lia|done].
  - apply index_nodes_lt in Hi2; [lia|done].
  - lia.
Qed.

Lemma same_unknown_injective i1 i2 i' :
  same_unknown s s' i1 i' → same_unknown s s' i2 i' → i1 = i2.
Proof using Hrw Hs Hs'.
  pose proof ground_lt as [Hg Hg'].
  intros [(c1 & c1' & HR1 & Hi1 & Hi1')|(k1 & -> & ->)]
         [(c2 & c2' & HR2 & Hi2 & Hi2')|(k2 & -> & Heq)].
  - pose proof (index_nodes_inj _ _ _ _ _ Hi1' Hi2') as <-.
    pose proof (relabel_injective _ _ _ HR1 HR2) as <-. congruence.
  - apply index_nodes_lt in Hi1'; [lia|done].
  - apply index_nodes_lt in Hi2'; [lia|done].
  - lia.
Qed.

Lemma same_unknown_lt i i' n :
  same_unknown s s' i i' →
  i < num_nodes s - 1 + n ↔ i' < num_nodes s' - 1 + n.
Proof using Hrw Hs Hs'.
  pose proof ground_lt as [Hg Hg'].
  intros [(c & c' & HR & Hi & Hi')|(k & -> & ->)]; [|lia].
  apply index_nodes_lt in Hi; [|done]. apply index_nodes_lt in Hi'; [|done].
  lia.
Qed.

End Relabel.

(** ** The two systems *)

Section Systems.
Context {B : Backend}.

Definition entry (A : list (list num)) (i j : nat) : option num :=
  A !! i ≫= (.!! j).

(** The second system is the first with its unknowns renumbered. *)
Definition same_matrix (s s' : Solver) (A A' : list (list num)) : Prop :=
  ∀ i i' j j', same_unknown s s' i i' → same_unknown s s' j j' →
               entry A' i' j' = entry A i j.

Definition same_vector (s s' : Solver) (x x' : list num) : Prop :=
  ∀ i i', same_unknown s s' i i' → x' !! i' = x !! i.

Lemma entry_zeros2 n i j :
  entry (zeros2 n) i j = if decide (i < n ∧ j < n) then Some nzero else None.
Proof.
  unfold entry, zeros2, zeros.
  destruct (decide (i < n)) as [Hi|Hi].
  - rewrite (lookup_replicate_2 _ _ _ Hi). simpl.
    destruct (decide (j < n)) as [Hj|Hj].
    + rewrite (lookup_replicate_2 _ _ _ Hj). by rewrite decide_True.
    + rewrite decide_False by lia. apply lookup_ge_None.
      rewrite length_replicate. lia.
  - rewrite decide_False by lia.
    rewrite (proj2 (lookup_ge_None _ _)); [done|]. rewrite length_replicate. lia.
Qed.

Lemma mat_update_entry f i j A A1 :
  mat_update f i j A = Ok A1 →
  ∃ v, entry A i j = Some v ∧
       ∀ k m, entry A1 k m
              = if decide (k = i ∧ m = j) then Some (f v) else entry A k m.
Proof.
  unfold mat_update, entry. intros Hu.
  apply bind_Ok in Hu as (row & Hrow%getitem_Ok & Hu).
  apply bind_Ok in Hu as (v & Hv%getitem_Ok & [= <-]).
  exists v. rewrite Hrow. split; [done|]. intros k m.
  pose proof (lookup_lt_Some _ _ _ Hrow) as Hi.
  pose proof (lookup_lt_Some _ _ _ Hv) as Hj.
  destruct (decide (k = i)) as [->|Hk].
  - rewrite list_lookup_insert_eq by done. simpl.
    destruct (decide (m = j)) as [->|Hm].
    + rewrite list_lookup_insert_eq by done. by rewrite decide_True.
    + rewrite list_lookup_insert_ne by done.
      rewrite decide_False by (by intros [_ ?]). by rewrite Hrow.
  - rewrite list_lookup_insert_ne by done.
    by rewrite decide_False by (by intros [? _]).
Qed.

Lemma mat_update_total f i j A v :
  entry A i j = Some v → ∃ A1, mat_update f i j A = Ok A1.
Proof.
  unfold mat_update, entry, getitem. intros He.
  destruct (A !! i) as [row|]; [|done]. simpl in *. rewrite He. simpl.
  by eexists.
Qed.

Lemma for_each_rel {X St St'} (R : St → St' → Prop)
    (f : St → X → result St) (f' : St' → X → result St')
    (l : list X) (t : St) (t' : St') (t1 : St) :
  R t t' →
  (∀ x u u' u1, x ∈ l → R u u' → f u x = Ok u1 →
                ∃ u1', f' u' x = Ok u1' ∧ R u1 u1') →
  for_each f l t = Ok t1 →
  ∃ t1', for_each f' l t' = Ok t1' ∧ R t1 t1'.
Proof.
  revert t t'. induction l as [|x l IH]; intros t t' Ht Hstep Hrun.
  - simpl in Hrun. injection Hrun as <-. by exists t'.
  - rewrite for_each_cons in Hrun. apply bind_Ok in Hrun as (u & Hu & Hrun).
    destruct (Hstep x t t' u) as (u' & Hu' & HR); [by left|done..|].
    destruct (IH u u') as (t1' & Hrun' & HR1); [done| |done|].
    { intros y v v' v1 Hy. apply Hstep. by right. }
    exists t1'. rewrite for_each_cons, Hu'. done.
Qed.

(** Elements on which the body does nothing can be left out. *)
Lemma for_each_skip {X St} (f : St → X → result St) (P : X → Prop)
    `{∀ x, Decision (P x)} (l : list X) (t : St) :
  (∀ u x, x ∈ l → ¬ P x → f u x = Ok u) →
  for_each f l t = for_each f (filter P l) t.
Proof.
  revert t. induction l as [|x l IH]; intros t Hskip; [done|].
  rewrite filter_cons. destruct (decide (P x)) as [HP|HP].
  - rewrite !for_each_cons. destruct (f t x) as [u|e]; [|done]. simpl.
    apply IH. intros v y Hy. apply Hskip. by right.
  - rewrite for_each_cons, (Hskip t x); [|by left|done]. simpl.
    apply IH. intros v y Hy. apply Hskip. by right.
Qed.

Lemma elem_of_enumerate {X} (l : list X) (k : nat) (x : X) :
  (k, x) ∈ enumerate l → l !! k = Some x.
Proof.
  unfold enumerate. intros [i Hi]%list_elem_of_lookup.
  apply lookup_zip_with_Some in Hi as (k' & x' & [= <- <-] & Hk & Hx).
  apply lookup_seq in Hk as [-> _]. done.
Qed.

Variables (w0 w0' : World) (ground : Node) (s s' : Solver).
Hypothesis Hrw : rewired w0 w0'.
Hypothesis Hs : numbers s w0 ground.
Hypothesis Hs' : numbers s' w0' ground.

Let node_index := index_nodes (num_nodes s) (ground_idx s).
Let node_index' := index_nodes (num_nodes s') (ground_idx s').

Lemma mat_update_rel f i j i' j' A A' A1 :
  same_unknown s s' i i' → same_unknown s s' j j' →
  same_matrix s s' A A' →
  mat_update f i j A = Ok A1 →
  ∃ A1', mat_update f i' j' A' = Ok A1' ∧ same_matrix s s' A1 A1'.
Proof using Hrw Hs Hs'.
  intros Hi Hj HA Hu.
  apply mat_update_entry in Hu as (v & Hv & HA1).
  destruct (mat_update_total f i' j' A' v) as (A1' & Hu');
    [by rewrite (HA _ _ _ _ Hi Hj)|].
  exists A1'. split; [done|].
  apply mat_update_entry in Hu' as (v' & Hv' & HA1').
  rewrite (HA _ _ _ _ Hi Hj), Hv in Hv'. injection Hv' as <-.
  intros k k' m m' Hk Hm. rewrite HA1, HA1'.
  destruct (decide (k = i ∧ m = j)) as [[-> ->]|Hne].
  - rewrite decide_True; [done|].
    split; by eapply (same_unknown_functional w0 w0' ground s s').
  - rewrite decide_False; [by apply HA|]. intros [-> ->]. apply Hne.
    split; by eapply (same_unknown_injective w0 w0' ground s s').
Qed.

(** The inner steps of add_conductance and of the stamp of a source:
    an update guarded by [c != ground_idx]. *)
Lemma guarded_rel {X}
    (body : nat → list (list num) → result X)
    (body' : nat → list (list num) → result X)
    (skip : list (list num) → X) (RX : X → X → Prop)
    c c' A A' r :
  relabel s s' c c' →
  same_matrix s s' A A' →
  (∀ i i' r, same_unknown s s' i i' → body i A = Ok r →
             ∃ r', body' i' A' = Ok r' ∧ RX r r') →
  RX (skip A) (skip A') →
  (if decide (c ≠ ground_idx s) then
     ic ← getitem KeyError node_index c; body ic A
   else Ok (skip A)) = Ok r →
  ∃ r', (if decide (c' ≠ ground_idx s') then
           ic ← getitem KeyError node_index' c'; body' ic A'
         else Ok (skip A')) = Ok r' ∧ RX r r'.
Proof using Hrw Hs Hs'.
  intros HR HA Hbody Hskip Hrun.
  pose proof (relabel_ground_iff w0 w0' ground s s' Hrw Hs Hs' _ _ HR) as Hg.
  destruct (decide (c ≠ ground_idx s)) as [Hne|Heq].
  - rewrite decide_True by (by rewrite <- Hg).
    destruct (same_unknown_class w0 w0' ground s s' Hrw Hs Hs' _ _ HR Hne)
      as (i & i' & Hi & Hi' & Hii).
    fold node_index in Hi. fold node_index' in Hi'.
    unfold getitem in *. rewrite Hi in Hrun. rewrite Hi'. simpl in *.
    by eapply Hbody.
  - apply dec_stable in Heq. rewrite decide_False by (rewrite <- Hg; by intros []).
    injection Hrun as <-. by eexists.
Qed.

Lemma add_conductance_rel a b a' b' g A A' A1 :
  relabel s s' a a' → relabel s s' b b' →
  same_matrix s s' A A' →
  add_conductance s node_index a b g A = Ok A1 →
  ∃ A1', add_conductance s' node_index' a' b' g A' = Ok A1' ∧
         same_matrix s s' A1 A1'.
Proof using Hrw Hs Hs'.
  intros Ha Hb HA Hrun. unfold add_conductance in Hrun.
  apply bind_Ok in Hrun as (A2 & H1 & Hrun).
  apply bind_Ok in Hrun as (A3 & H2 & Hrun).
  apply (guarded_rel (λ ii A, mat_update (λ v, nadd v g) ii ii A)
                     (λ ii A, mat_update (λ v, nadd v g) ii ii A)
                     id (same_matrix s s') a a' A A') in H1
    as (A2' & E1 & HA2); [|done..| |done].
  2:{ intros i i' r Hi. by apply mat_update_rel. }
  apply (guarded_rel (λ ii A, mat_update (λ v, nadd v g) ii ii A)
                     (λ ii A, mat_update (λ v, nadd v g) ii ii A)
                     id (same_matrix s s') b b' A2 A2') in H2
    as (A3' & E2 & HA3); [|done..| |done].
  2:{ intros i i' r Hi. by apply mat_update_rel. }
  pose proof (relabel_ground_iff w0 w0' ground s s' Hrw Hs Hs' _ _ Ha) as Hga.
  pose proof (relabel_ground_iff w0 w0' ground s s' Hrw Hs Hs' _ _ Hb) as Hgb.
  assert (E3 : ∃ A1',
    (if decide (a' ≠ ground_idx s' ∧ b' ≠ ground_idx s') then
       ii ← getitem KeyError node_index' a';
       jj ← getitem KeyError node_index' b';
       A3 ← mat_update (λ v, nsub v g) ii jj A3';
       mat_update (λ v, nsub v g) jj ii A3
     else Ok A3') = Ok A1' ∧ same_matrix s s' A1 A1').
  { destruct (decide (a ≠ ground_idx s ∧ b ≠ ground_idx s)) as [[Hna Hnb]|Hn].
    - rewrite decide_True by (by rewrite <- Hga, <- Hgb).
      destruct (same_unknown_class w0 w0' ground s s' Hrw Hs Hs' _ _ Ha Hna)
        as (i & i' & Hi & Hi' & Hii).
      destruct (same_unknown_class w0 w0' ground s s' Hrw Hs Hs' _ _ Hb Hnb)
        as (j & j' & Hj & Hj' & Hjj).
      fold node_index in Hi, Hj. fold node_index' in Hi', Hj'.
      unfold getitem in *. rewrite Hi, Hj in Hrun. rewrite Hi', Hj'.
      cbn [mbind result_bind] in *.
      apply bind_Ok in Hrun as (A4 & H4 & Hrun).
      destruct (mat_update_rel _ _ _ _ _ _ _ _ Hii Hjj HA3 H4)
        as (A4' & -> & HA4).
      cbn [mbind result_bind]. by eapply mat_update_rel.
    - rewrite decide_False by (by rewrite <- Hga, <- Hgb).
      injection Hrun as <-. by exists A3'. }
  destruct E3 as (A1' & E3 & HA1). exists A1'. split; [|done].
  unfold add_conductance. simpl in E1, E2. rewrite E1. cbn [mbind result_bind].
  rewrite E2. cbn [mbind result_bind]. done.
Qed.

End Systems.

Lemma stamp_component_wire {B : Backend} (s0 : Solver) (ni : gmap nat nat)
    (w : World) (A : list (list num)) (l : loc) :
  solver_wf s0 w → l ∈ components w → is_Wire (deref (heap w) l) →
  stamp_component s0 ni (heap w) A l = Ok A.
Proof.
  intros (_ & _ & _ & Hdom) Hl Hw. unfold stamp_component, getitem.
  destruct (Hdom l Hl) as [[a ->] [b ->]]. cbn [mbind result_bind].
  unfold is_Wire in Hw. by destruct (c_kind (deref (heap w) l)).
Qed.

(** On two systems, the linear solver fails on both or gives solutions
    that agree unknown by unknown. *)
Definition solver_agrees {B : Backend} (s s' : Solver)
    (A : list (list num)) (z : list num) (A' : list (list num)) (z' : list num)
  : Prop :=
  match linalg_solve A z, linalg_solve A' z' with
  | Some x, Some x' => same_vector s s' x x'
  | None, None => True
  | _, _ => False
  end.

Lemma record_current_wire {B : Backend} (s0 : Solver) (w : World)
    (V : gmap nat num) (x : list num) (currents : gmap string num) (l : loc) :
  solver_wf s0 w →
  (∀ c, c < num_nodes s0 → is_Some (V !! c)) →
  l ∈ components w → is_Wire (deref (heap w) l) →
  record_current s0 w (Some (V, x)) currents l = Ok currents.
Proof.
  intros (_ & _ & Hlt & Hdom) HV Hl Hw. unfold record_current, getitem.
  destruct (Hdom l Hl) as [[a Ha] [b Hb]]. rewrite Ha, Hb.
  cbn [mbind result_bind from_option].
  destruct (HV a (Hlt _ _ Ha)) as [va ->].
  destruct (HV b (Hlt _ _ Hb)) as [vb ->]. cbn [mbind result_bind].
  unfold is_Wire in Hw. by destruct (c_kind (deref (heap w) l)).
Qed.

Section Passes.
Context {B : Backend}.
Variables (w0 w0' : World) (ground : Node) (s s' : Solver).
Hypothesis Hrw : rewired w0 w0'.
Hypothesis Hs : numbers s w0 ground.
Hypothesis Hs' : numbers s' w0' ground.

Let node_index := index_nodes (num_nodes s) (ground_idx s).
Let node_index' := index_nodes (num_nodes s') (ground_idx s').

Lemma node_class_rel n a :
  node_map s !! n = Some a →
  ∃ a', node_map s' !! n = Some a' ∧ relabel s s' a a'.
Proof using Hrw Hs Hs'.
  intros Hn. destruct (relabel_node w0 w0' ground s s' Hrw Hs Hs' n a Hn)
    as (a' & Hn').
  exists a'. split; [done|]. by exists n.
Qed.

Lemma stamp_component_rel hp hp' l A A' A1 :
  deref hp' l = deref hp l →
  same_matrix s s' A A' →
  stamp_component s node_index hp A l = Ok A1 →
  ∃ A1', stamp_component s' node_index' hp' A' l = Ok A1' ∧
         same_matrix s s' A1 A1'.
Proof using Hrw Hs Hs'.
  intros Hd HA Hrun. unfold stamp_component in *. rewrite Hd.
  apply bind_Ok in Hrun as (a & Ha%getitem_Ok & Hrun).
  apply bind_Ok in Hrun as (b & Hb%getitem_Ok & Hrun).
  destruct (node_class_rel _ _ Ha) as (a' & Ha' & HRa).
  destruct (node_class_rel _ _ Hb) as (b' & Hb' & HRb).
  unfold getitem. rewrite Ha', Hb'. cbn [mbind result_bind].
  destruct (c_kind (deref hp l)) as [|r|v|r t on].
  - injection Hrun as <-. by exists A'.
  - apply bind_Ok in Hrun as (g & -> & Hrun). cbn [mbind result_bind].
    by eapply (add_conductance_rel w0 w0' ground s s' Hrw Hs Hs' a b).
  - injection Hrun as <-. by exists A'.
  - apply bind_Ok in Hrun as (g & -> & Hrun). cbn [mbind result_bind].
    by eapply (add_conductance_rel w0 w0' ground s s' Hrw Hs Hs' a b).
Qed.

Lemma vec_set_rel i i' v z z' z1 :
  same_unknown s s' i i' → same_vector s s' z z' →
  vec_set i v z = Ok z1 →
  ∃ z1', vec_set i' v z' = Ok z1' ∧ same_vector s s' z1 z1'.
Proof using Hrw Hs Hs'.
  intros Hi Hz Hset. unfold vec_set in *.
  case_decide as Hlt; [|done]. injection Hset as <-.
  assert (i' < length z') as Hlt'.
  { apply lookup_lt_is_Some. rewrite (Hz _ _ Hi). by apply lookup_lt_is_Some. }
  rewrite decide_True by done. eexists. split; [done|].
  intros k k' Hk. destruct (decide (k = i)) as [->|Hne].
  - rewrite (same_unknown_functional w0 w0' ground s s' Hrw Hs Hs' _ _ _ Hk Hi).
    by rewrite !list_lookup_insert_eq.
  - rewrite !list_lookup_insert_ne; [by apply Hz|done|].
    intros ->. apply Hne.
    by eapply (same_unknown_injective w0 w0' ground s s').
Qed.

Lemma stamp_source_rel hp hp' k l A z A' z' A1 z1 :
  deref hp' l = deref hp l →
  same_matrix s s' A A' → same_vector s s' z z' →
  stamp_source s node_index hp (num_nodes s - 1) (A, z) (k, l) = Ok (A1, z1) →
  ∃ A1' z1',
    stamp_source s' node_index' hp' (num_nodes s' - 1) (A', z') (k, l)
    = Ok (A1', z1') ∧
    same_matrix s s' A1 A1' ∧ same_vector s s' z1 z1'.
Proof using Hrw Hs Hs'.
  intros Hd HA Hz Hrun. unfold stamp_source in Hrun.
  apply bind_Ok in Hrun as (a & Ha%getitem_Ok & Hrun).
  apply bind_Ok in Hrun as (b & Hb%getitem_Ok & Hrun).
  apply bind_Ok in Hrun as (A2 & H1 & Hrun).
  apply bind_Ok in Hrun as (A3 & H2 & Hrun).
  destruct (node_class_rel _ _ Ha) as (a' & Ha' & HRa).
  destruct (node_class_rel _ _ Hb) as (b' & Hb' & HRb).
  pose proof (same_unknown_source s s' k) as Hrow.
  pose proof (ground_lt w0 w0' ground s s' Hs Hs') as [Hg Hg'].
  assert (Hside : ∀ (v : num) c c' M M' M1,
    relabel s s' c c' → same_matrix s s' M M' →
    (if decide (c ≠ ground_idx s) then
       ic ← getitem KeyError node_index c;
       A' ← mat_update (λ _, v) (num_nodes s - 1 + k) ic M;
       ic' ← getitem KeyError node_index c;
       mat_update (λ _, v) ic' (num_nodes s - 1 + k) A'
     else Ok M) = Ok M1 →
    ∃ M1',
      (if decide (c' ≠ ground_idx s') then
         ic ← getitem KeyError node_index' c';
         A' ← mat_update (λ _, v) (num_nodes s' - 1 + k) ic M';
         ic' ← getitem KeyError node_index' c';
         mat_update (λ _, v) ic' (num_nodes s' - 1 + k) A'
       else Ok M') = Ok M1' ∧ same_matrix s s' M1 M1').
  { intros v c c' M M' M1 HR HM Hside.
    apply (guarded_rel w0 w0' ground s s' Hrw Hs Hs'
             (λ ic M, A' ← mat_update (λ _, v) (num_nodes s - 1 + k) ic M;
                      ic' ← getitem KeyError node_index c;
                      mat_update (λ _, v) ic' (num_nodes s - 1 + k) A')
             (λ ic M, A' ← mat_update (λ _, v) (num_nodes s' - 1 + k) ic M;
                      ic' ← getitem KeyError node_index' c';
                      mat_update (λ _, v) ic' (num_nodes s' - 1 + k) A')
             id (same_matrix s s') c c' M M'); [done|done| |done|done].
    intros i i' r Hi Hbody.
    apply bind_Ok in Hbody as (M2 & Hu1 & Hbody).
    apply bind_Ok in Hbody as (i2 & Hi2%getitem_Ok & Hu2).
    destruct (mat_update_rel w0 w0' ground s s' Hrw Hs Hs'
                _ _ _ _ _ _ _ _ Hrow Hi HM Hu1) as (M2' & -> & HM2).
    cbn [mbind result_bind].
    assert (c ≠ ground_idx s) as Hne.
    { apply index_nodes_lt in Hi2; [tauto|done]. }
    destruct (same_unknown_class w0 w0' ground s s' Hrw Hs Hs' _ _ HR Hne)
      as (j & j' & Hj & Hj' & Hjj).
    fold node_index in Hj. fold node_index' in Hj'.
    rewrite Hi2 in Hj. injection Hj as <-.
    unfold getitem. rewrite Hj'. cbn [mbind result_bind].
    by eapply (mat_update_rel w0 w0' ground s s'). }
  destruct (Hside _ _ _ _ _ _ HRa HA H1) as (A2' & E1 & HA2).
  destruct (Hside _ _ _ _ _ _ HRb HA2 H2) as (A3' & E2 & HA3).
  destruct (c_kind (deref hp l)) as [| |voltage|] eqn:Hk; try done.
  apply bind_Ok in Hrun as (z2 & Hset & [= <- <-]).
  destruct (vec_set_rel _ _ _ _ _ _ Hrow Hz Hset) as (z1' & E3 & Hz1).
  exists A3', z1'. split; [|done].
  apply (getitem_Ok KeyError) in Ha', Hb'.
  unfold stamp_source. rewrite Hd, Hk, Ha', Hb'. cbn [mbind result_bind].
  rewrite E1. cbn [mbind result_bind]. rewrite E2. cbn [mbind result_bind].
  by rewrite E3.
Qed.

(** The system assembled for the rewired circuit is the system of the
    first one, renumbered. *)
Lemma build_matrix_rel w1 w1' A z ni0 :
  rewired w1 w1' → solver_wf s w1 → solver_wf s' w1' →
  build_matrix s w1 = Ok (A, z, ni0) →
  ∃ A' z', build_matrix s' w1' = Ok (A', z', node_index') ∧
           same_matrix s s' A A' ∧ same_vector s s' z z'.
Proof using Hrw Hs Hs'.
  intros Hrw1 Hwf Hwf' Hb. unfold build_matrix in Hb.
  apply bind_Ok in Hb as (A0 & Hcomp & Hb).
  apply bind_Ok in Hb as ([A1 z1] & Hsrc & [= <- <- <-]).
  pose proof (voltage_sources_rewired _ _ Hrw1) as Hvss.
  set (n := num_nodes s - 1 + length (voltage_sources w1)) in *.
  set (n' := num_nodes s' - 1 + length (voltage_sources w1)).
  assert (Hlt : ∀ i i', same_unknown s s' i i' → i < n ↔ i' < n').
  { intros i i'. apply (same_unknown_lt w0 w0' ground s s' Hrw Hs Hs'). }
  rewrite (for_each_skip _ (λ l, ¬ is_Wire (deref (heap w1) l))) in Hcomp.
  2:{ intros u l Hl Hw. apply dec_stable in Hw.
      by apply stamp_component_wire. }
  fold (nonwires w1) in Hcomp.
  apply (for_each_rel (same_matrix s s') _
           (stamp_component s' node_index' (heap w1'))
           _ _ (zeros2 n')) in Hcomp as (A0' & Hcomp' & HA0).
  2:{ intros i i' j j' Hi Hj. rewrite !entry_zeros2.
      apply Hlt in Hi, Hj. repeat case_decide; try done; tauto. }
  2:{ intros l u u' u1 Hl Hu Hst.
      eapply (stamp_component_rel (heap w1) (heap w1')); [|done..].
      by apply (rw_objects _ _ Hrw1). }
  apply (for_each_rel
           (λ '(M, v) '(M', v'), same_matrix s s' M M' ∧ same_vector s s' v v')
           _ (stamp_source s' node_index' (heap w1') (num_nodes s' - 1))
           _ _ (A0', zeros n')) in Hsrc as ([A1' z1'] & Hsrc' & HA1 & Hz1).
  2:{ split; [done|]. intros i i' Hi. unfold zeros.
      apply Hlt in Hi.
      destruct (decide (i < n)) as [Hin|Hin].
      - by rewrite !lookup_replicate_2 by tauto.
      - rewrite !(proj2 (lookup_ge_None _ _)); [done|..];
          rewrite length_replicate; lia. }
  2:{ intros [k l] [M v] [M' v'] [M1 v1] Hkl [HM Hv] Hst.
      apply elem_of_enumerate, list_elem_of_lookup_2 in Hkl.
      destruct (stamp_source_rel (heap w1) (heap w1') k l M v M' v' M1 v1)
        as (M1' & v1' & ? & ? & ?); [|done..|by exists (M1', v1')].
      apply (rw_objects _ _ Hrw1).
      apply elem_of_voltage_sources in Hkl as [Hl Hvs].
      apply elem_of_nonwires. split; [done|].
      unfold is_VoltageSource, is_Wire in *.
      by destruct (c_kind (deref (heap w1) l)). }
  exists A1', z1'. split; [|done]. unfold build_matrix.
  rewrite (for_each_skip _ (λ l, ¬ is_Wire (deref (heap w1') l))).
  2:{ intros u l Hl Hw. apply dec_stable in Hw.
      by apply stamp_component_wire. }
  fold (nonwires w1'). rewrite (rw_nonwires _ _ Hrw1), Hvss.
  fold n'. fold node_index'. rewrite Hcomp'. cbn [mbind result_bind].
  by rewrite Hsrc'.
Qed.

(** The potentials of a class and of its relabelled class are equal,
    and both dicts cover their classes. *)
Definition same_potentials (V V' : gmap nat num) : Prop :=
  (∀ c c', relabel s s' c c' → V' !! c' = V !! c) ∧
  (∀ c, c < num_nodes s → is_Some (V !! c)) ∧
  (∀ c', c' < num_nodes s' → is_Some (V' !! c')).

Lemma for_each_fill_total {K X C} `{Countable K} (g : X → result C)
    (kvs : list (K * X)) (m0 : gmap K C) :
  (∀ k a, (k, a) ∈ kvs → ∃ v, g a = Ok v) →
  ∃ m, for_each (λ m '(k, a), v ← g a; Ok (<[k := v]> m)) kvs m0 = Ok m.
Proof.
  revert m0. induction kvs as [|[k a] kvs IH]; intros m0 Hg.
  - by exists m0.
  - rewrite for_each_cons. destruct (Hg k a) as (v & ->); [by left|].
    cbn [mbind result_bind]. apply IH. intros k' a' Hi. apply (Hg k'). by right.
Qed.

Lemma potentials_total (s0 : Solver) (x : list num) (V : gmap nat num) :
  ground_idx s0 < num_nodes s0 →
  potentials s0 (index_nodes (num_nodes s0) (ground_idx s0)) x = Ok V →
  ∀ c, c < num_nodes s0 → is_Some (V !! c).
Proof.
  intros Hg HV c Hc.
  apply potentials_spec in HV as [Hgr Hcls]; [|apply index_nodes_ground].
  destruct (decide (c = ground_idx s0)) as [->|Hne]; [by eexists|].
  destruct (index_nodes_Some _ _ c Hc Hne) as [i Hi].
  destruct (Hcls _ _ Hi) as (v & _ & Hv). by exists v.
Qed.

Lemma potentials_rel x x' V :
  same_vector s s' x x' →
  potentials s node_index x = Ok V →
  ∃ V', potentials s' node_index' x' = Ok V' ∧ same_potentials V V'.
Proof using Hrw Hs Hs'.
  intros Hx HV.
  pose proof (ground_lt w0 w0' ground s s' Hs Hs') as [Hg Hg'].
  pose proof (potentials_total s x V Hg HV) as Htot.
  pose proof HV as [Hgr Hcls]%potentials_spec; [|apply index_nodes_ground].
  assert (Hex : ∃ V', potentials s' node_index' x' = Ok V').
  { unfold potentials. apply for_each_fill_total.
    intros c' i' Hc'%elem_of_map_to_list.
    pose proof (index_nodes_lt _ _ _ _ Hg' Hc') as (Hlt' & Hne' & _).
    destruct (relabel_onto w0 w0' ground s s' Hrw Hs Hs' c' Hlt') as (c & HR).
    assert (c ≠ ground_idx s) as Hne.
    { intros Heq. by apply (relabel_ground_iff w0 w0' ground s s' Hrw Hs Hs' _ _ HR) in Heq. }
    destruct (same_unknown_class w0 w0' ground s s' Hrw Hs Hs' _ _ HR Hne)
      as (i & j' & Hi & Hj' & Hij).
    fold node_index' in Hj'. rewrite Hc' in Hj'. injection Hj' as <-.
    destruct (Hcls _ _ Hi) as (v & Hv & _). exists v.
    apply getitem_Ok. by rewrite (Hx _ _ Hij). }
  destruct Hex as (V' & HV'). exists V'. split; [done|].
  pose proof (potentials_total s' x' V' Hg' HV') as Htot'.
  pose proof HV' as [Hgr' Hcls']%potentials_spec; [|apply index_nodes_ground].
  split_and!; [|done..].
  intros c c' HR. destruct (decide (c = ground_idx s)) as [->|Hne].
  - assert (c' = ground_idx s') as ->.
    { by apply (relabel_ground_iff w0 w0' ground s s' Hrw Hs Hs' _ _ HR). }
    by rewrite Hgr, Hgr'.
  - destruct (same_unknown_class w0 w0' ground s s' Hrw Hs Hs' _ _ HR Hne)
      as (i & i' & Hi & Hi' & Hii).
    destruct (Hcls _ _ Hi) as (v & Hv & ->).
    destruct (Hcls' _ _ Hi') as (v' & Hv' & ->).
    rewrite (Hx _ _ Hii) in Hv'. congruence.
Qed.

Lemma potential_at_rel V V' n :
  same_potentials V V' → potential_at s' V' n = potential_at s V n.
Proof using Hrw Hs Hs'.
  intros (HV & _ & _). unfold potential_at, getitem.
  destruct (node_map s !! n) as [c|] eqn:Hn.
  - destruct (node_class_rel _ _ Hn) as (c' & -> & HR).
    cbn [mbind result_bind]. by rewrite (HV _ _ HR).
  - destruct (node_map s' !! n) as [c'|] eqn:Hn'; [|done].
    destruct (relabel_node_back w0 w0' ground s s' Hrw Hs Hs' _ _ Hn')
      as (c & Hc). congruence.
Qed.

Lemma next_on_rel V V' c :
  same_potentials V V' → next_on s' V' c = next_on s V c.
Proof using Hrw Hs Hs'.
  intros HV. unfold next_on. by rewrite !(potential_at_rel V V').
Qed.

(** The heaps hold the same objects at the locations [L]. *)
Definition agree (L : list loc) (hp hp' : list Component) : Prop :=
  ∀ l, l ∈ L → deref hp' l = deref hp l.

Lemma update_leds_rel L V V' leds hp hp' hp1 states :
  same_potentials V V' →
  (∀ l, l ∈ leds → l ∈ L) →
  agree L hp hp' →
  for_each (update_led s V) leds (hp, []) = Ok (hp1, states) →
  ∃ hp1', for_each (update_led s' V') leds (hp', []) = Ok (hp1', states) ∧
          agree L hp1 hp1'.
Proof using Hrw Hs Hs'.
  intros HV Hsub Hag Hrun.
  apply (for_each_rel (λ '(h, st) '(h', st'), agree L h h' ∧ st = st')
           _ (update_led s' V') _ _ (hp', [])) in Hrun
    as ([hp1' st'] & Hrun' & Hag1 & <-); [by exists hp1'|done|].
  intros l [h st] [h' st'] [h1 st1] Hl [Hh <-] Hu.
  rewrite update_led_next_on in Hu.
  apply bind_Ok in Hu as (on & Hon & [= <- <-]).
  exists (<[l := set_on on (deref h' l)]> h', st ++ [on]).
  rewrite update_led_next_on, (Hh l (Hsub l Hl)), (next_on_rel V V'), Hon by done.
  split; [done|]. split; [|done].
  intros l2 Hl2. rewrite !deref_insert.
  pose proof (next_on_is_LED _ _ _ _ Hon) as Hled.
  pose proof (deref_LED_lt _ _ Hled) as Hlt.
  rewrite <- (Hh l (Hsub l Hl)) in Hled.
  pose proof (deref_LED_lt _ _ Hled) as Hlt'.
  destruct (decide (l = l2)) as [->|Hne].
  - by rewrite !decide_True.
  - rewrite !decide_False by (by intros [? _]). by apply Hh.
Qed.

Lemma nonwires_variant (w w1 : World) : variant w w1 → nonwires w1 = nonwires w.
Proof.
  intros [Hc Hf]. unfold nonwires. rewrite Hc. apply list_filter_iff. intros l.
  destruct (erase_fields _ _ (frame_eq_deref _ _ l Hf)) as (_ & _ & _ & -> & _).
  done.
Qed.

Lemma variant_trans (w w1 w2 : World) :
  variant w w1 → variant w1 w2 → variant w w2.
Proof.
  intros [Hc Hf] [Hc' Hf']. split; [congruence|by eapply frame_eq_trans].
Qed.

Lemma step_variant (s0 : Solver) leds (w1 : World) V x st w2 :
  step s0 leds w1 = Ok (V, x, st, w2) → variant w1 w2.
Proof. intros (? & ? & _)%step_frame. done. Qed.

(** The assumption on the linear solver: on the systems assembled for the
    two circuits in the same LED states, its answers agree. *)
Hypothesis Hsolver : ∀ w1 w1' A z A' z' ni ni',
  variant w0 w1 → variant w0' w1' → rewired w1 w1' →
  build_matrix s w1 = Ok (A, z, ni) →
  build_matrix s' w1' = Ok (A', z', ni') →
  solver_agrees s s' A z A' z'.

Lemma step_rel leds w1 w1' V x st w2 :
  variant w0 w1 → variant w0' w1' → rewired w1 w1' →
  (∀ l, l ∈ leds → l ∈ nonwires w0) →
  step s leds w1 = Ok (V, x, st, w2) →
  ∃ V' x' w2',
    step s' leds w1' = Ok (V', x', st, w2') ∧
    same_potentials V V' ∧ same_vector s s' x x' ∧
    variant w0 w2 ∧ variant w0' w2' ∧ rewired w2 w2'.
Proof using Hrw Hs Hs' Hsolver.
  intros Hv Hv' Hrw1 Hleds Hstep.
  pose proof (step_variant _ _ _ _ _ _ _ Hstep) as Hv12.
  apply step_Ok in Hstep as (A & z & ni & hp & Hb & Hx & HV & Hu & ->).
  pose proof (build_matrix_z _ _ _ _ _ Hb) as (-> & _).
  assert (Hwf : solver_wf s w1).
  { destruct Hv. eapply solver_wf_frame; [done..|]. by eapply numbers_wf. }
  assert (Hwf' : solver_wf s' w1').
  { destruct Hv'. eapply solver_wf_frame; [done..|]. by eapply numbers_wf. }
  destruct (build_matrix_rel _ _ _ _ _ Hrw1 Hwf Hwf' Hb) as (A' & z' & Hb' & HA & Hz).
  pose proof (Hsolver _ _ _ _ _ _ _ _ Hv Hv' Hrw1 Hb Hb') as Hag.
  unfold solver_agrees in Hag. rewrite Hx in Hag.
  destruct (linalg_solve A' z') as [x'|] eqn:Hx'; [|done].
  destruct (potentials_rel _ _ _ Hag HV) as (V' & HV' & HVV).
  destruct (update_leds_rel (nonwires w0) V V' leds (heap w1) (heap w1') hp st)
    as (hp' & Hu' & Hag1); [done|done| |done|].
  { intros l Hl. apply (rw_objects _ _ Hrw1). by rewrite (nonwires_variant w0 w1). }
  assert (Hstep' : step s' leds w1'
                   = Ok (V', x', st, mkWorld hp' (components w1'))).
  { apply step_Ok. by exists A', z', node_index', hp'. }
  pose proof (step_variant _ _ _ _ _ _ _ Hstep') as Hv12'.
  exists V', x', (mkWorld hp' (components w1')).
  split_and!; [done..| | |].
  - by eapply variant_trans.
  - by eapply variant_trans.
  - eapply (rewired_variant w0 w0'); [done|by eapply variant_trans..|].
    intros l Hl. by apply Hag1.
Qed.

Definition same_cur (cur cur' : option (gmap nat num * list num)) : Prop :=
  match cur, cur' with
  | Some (V, x), Some (V', x') => same_potentials V V' ∧ same_vector s s' x x'
  | None, None => True
  | _, _ => False
  end.

Lemma loop_rel leds n w1 w1' last cur cur' passes out :
  variant w0 w1 → variant w0' w1' → rewired w1 w1' →
  (∀ l, l ∈ leds → l ∈ nonwires w0) →
  same_cur cur cur' →
  loop s leds n w1 last cur passes = Ok out →
  ∃ out',
    loop s' leds n w1' last cur' passes = Ok out' ∧
    same_cur (lo_cur out) (lo_cur out') ∧
    variant w0 (lo_world out) ∧ variant w0' (lo_world out') ∧
    rewired (lo_world out) (lo_world out').
Proof using Hrw Hs Hs' Hsolver.
  revert w1 w1' last cur cur' passes.
  induction n as [|n IH]; intros w1 w1' last cur cur' passes Hv Hv' Hrw1 Hleds Hcur Hl.
  - simpl in Hl. injection Hl as <-. eexists. split; [done|]. done.
  - rewrite loop_S in Hl. apply bind_Ok in Hl as ([[[V x] st] w2] & Hstep & Hl).
    destruct (step_rel _ _ _ _ _ _ _ Hv Hv' Hrw1 Hleds Hstep)
      as (V' & x' & w2' & Hstep' & HVV & Hxx & Hv2 & Hv2' & Hrw2).
    case_decide as Hd.
    + injection Hl as <-. eexists. rewrite loop_S, Hstep'.
      cbn [mbind result_bind]. rewrite decide_True by done.
      split; [done|]. done.
    + destruct (IH w2 w2' (Some st) (Some (V, x)) (Some (V', x')) (S passes))
        as (out' & Hl' & ?); [done..|].
      exists out'. rewrite loop_S, Hstep'. cbn [mbind result_bind].
      by rewrite decide_False.
Qed.

Lemma record_current_rel w2 w2' V x V' x' l currents currents1 :
  rewired w2 w2' → l ∈ nonwires w2 →
  same_potentials V V' → same_vector s s' x x' →
  record_current s w2 (Some (V, x)) currents l = Ok currents1 →
  record_current s' w2' (Some (V', x')) currents l = Ok currents1.
Proof using Hrw Hs Hs'.
  intros Hrw2 Hl (HV & _ & _) Hx Hrec. unfold record_current in *.
  rewrite (rw_objects _ _ Hrw2 l Hl), (voltage_sources_rewired _ _ Hrw2).
  apply bind_Ok in Hrec as (ca & Hca%getitem_Ok & Hrec).
  cbn [mbind result_bind from_option] in Hrec.
  apply bind_Ok in Hrec as (va & Hva%getitem_Ok & Hrec).
  apply bind_Ok in Hrec as (cb & Hcb%getitem_Ok & Hrec).
  apply bind_Ok in Hrec as (vb & Hvb%getitem_Ok & Hrec).
  destruct (node_class_rel _ _ Hca) as (ca' & Hca' & HRa).
  destruct (node_class_rel _ _ Hcb) as (cb' & Hcb' & HRb).
  unfold getitem. rewrite Hca'. cbn [mbind result_bind from_option].
  rewrite (HV _ _ HRa), Hva. cbn [mbind result_bind].
  rewrite Hcb'. cbn [mbind result_bind].
  rewrite (HV _ _ HRb), Hvb. cbn [mbind result_bind].
  assert (bool_decide (ca' = ground_idx s' ∧ cb' = ground_idx s')
          = bool_decide (ca = ground_idx s ∧ cb = ground_idx s)) as ->.
  { apply bool_decide_ext.
    by rewrite (relabel_ground_iff w0 w0' ground s s' Hrw Hs Hs' _ _ HRa),
               (relabel_ground_iff w0 w0' ground s s' Hrw Hs Hs' _ _ HRb). }
  destruct (c_kind (deref (heap w2) l)); [done..| |done].
  apply bind_Ok in Hrec as (idx & -> & Hrec).
  apply bind_Ok in Hrec as (i & Hi%getitem_Ok & [= <-]).
  cbn [mbind result_bind].
  by rewrite (Hx _ _ (same_unknown_source s s' idx)), Hi.
Qed.

Lemma record_currents_rel w2 w2' V x V' x' currents :
  variant w0 w2 → variant w0' w2' → rewired w2 w2' →
  same_potentials V V' → same_vector s s' x x' →
  for_each (record_current s w2 (Some (V, x))) (components w2) ∅
  = Ok currents →
  for_each (record_current s' w2' (Some (V', x'))) (components w2') ∅
  = Ok currents.
Proof using Hrw Hs Hs'.
  intros Hv Hv' Hrw2 HVV Hxx Hrun.
  assert (Hwf : solver_wf s w2).
  { destruct Hv. eapply solver_wf_frame; [done..|]. by eapply numbers_wf. }
  assert (Hwf' : solver_wf s' w2').
  { destruct Hv'. eapply solver_wf_frame; [done..|]. by eapply numbers_wf. }
  destruct HVV as (HV & Htot & Htot').
  rewrite (for_each_skip _ (λ l, ¬ is_Wire (deref (heap w2) l))) in Hrun.
  2:{ intros u l Hl Hw. apply dec_stable in Hw. by apply record_current_wire. }
  rewrite (for_each_skip _ (λ l, ¬ is_Wire (deref (heap w2') l))).
  2:{ intros u l Hl Hw. apply dec_stable in Hw. by apply record_current_wire. }
  fold (nonwires w2) in Hrun. fold (nonwires w2').
  rewrite (rw_nonwires _ _ Hrw2).
  apply (for_each_rel eq _ (record_current s' w2' (Some (V', x'))) _ _ ∅)
    in Hrun as (? & -> & <-); [done|done|].
  intros l u ? u1 Hl <- Hrec. exists u1. split; [|done].
  by apply (record_current_rel w2 w2' V x).
Qed.

(** solve on the rewired circuit returns what solve on the first returns:
    the same potential for every node, and the same currents. *)
Lemma solve_rel max_iter V currents w2 :
  solve s max_iter w0 = Ok (Some V, currents, w2) →
  ∃ V' w2',
    solve s' max_iter w0' = Ok (Some V', currents, w2') ∧
    (∀ n, potential_at s' V' n = potential_at s V n) ∧
    rewired w2 w2'.
Proof using Hrw Hs Hs' Hsolver.
  intros (out & Hl & Hc & HV & ->)%solve_Ok.
  destruct (loop_rel (led_list w0) max_iter w0 w0' None None None 0 out)
    as (out' & Hl' & Hcur & Hv & Hv' & Hrw2); [done..| |done|done|].
  { intros l [Hl1 Hled]%elem_of_led_list. apply elem_of_nonwires.
    split; [done|]. unfold is_LED, is_Wire in *.
    by destruct (c_kind (deref (heap w0) l)). }
  destruct (lo_cur out) as [[V0 x]|] eqn:Hcur0; [|done].
  injection HV as <-.
  destruct (lo_cur out') as [[V' x']|] eqn:Hcur0'; [|done].
  destruct Hcur as [HVV Hxx].
  exists V', (lo_world out'). split_and!; [|by intros n; apply potential_at_rel|done].
  apply solve_Ok. exists out'. rewrite (led_list_rewired _ _ Hrw).
  split_and!; [done| |by rewrite Hcur0'|done].
  rewrite Hcur0'. by apply (record_currents_rel (lo_world out) _ V x).
Qed.

End Passes.

(** The classes of two rewired circuits, and what solve returns for them,
    on a linear solver whose answers do not depend on how the unknowns
    are numbered. *)
Lemma rewiring_invariance {B : Backend} (w w' : World) (ground : Node)
    (s s' : Solver) :
  rewired w w' →
  numbers s w ground →
  numbers s' w' ground →
  (∀ w1 w1' A z A' z' ni ni',
     variant w w1 → variant w' w1' → rewired w1 w1' →
     build_matrix s w1 = Ok (A, z, ni) →
     build_matrix s' w1' = Ok (A', z', ni') →
     solver_agrees s s' A z A' z') →
  num_nodes s' = num_nodes s ∧
  (∀ x y, x ∈ Circuit_nodes w → y ∈ Circuit_nodes w →
          node_map s !! x = node_map s !! y ↔
          node_map s' !! x = node_map s' !! y) ∧
  ∀ max_iter V currents w2,
    solve s max_iter w = Ok (Some V, currents, w2) →
    ∃ V' w2',
      solve s' max_iter w' = Ok (Some V', currents, w2') ∧
      (∀ n, potential_at s' V' n = potential_at s V n) ∧
      rewired w2 w2'.
Proof.
  intros Hrw Hs Hs' Hsolver. split_and!.
  - by eapply relabel_num_nodes.
  - by eapply relabel_classes.
  - intros max_iter V currents w2. by eapply solve_rel.
Qed.

(** ** The numbering that compute_lumps gives *)

Section SameNumbering.
Context {B : Backend}.
Implicit Types (w : World) (s : Solver).

Lemma rewired_refl w : rewired w w.
Proof. split; [done|done|by left|by left]. Qed.

Lemma rewired_trans w1 w2 w3 : rewired w1 w2 → rewired w2 w3 → rewired w1 w3.
Proof.
  intros [Hn Ho He He'] [Hn' Ho' Hf Hf']. split.
  - by rewrite Hn'.
  - intros l Hl. rewrite Ho' by (by rewrite Hn). by apply Ho.
  - intros a b Hab. destruct (He a b Hab) as [H|H];
      destruct (Hf _ _ H); auto.
  - intros a b Hab. destruct (Hf' a b Hab) as [H|H];
      destruct (He' _ _ H); auto.
Qed.

(** The wires added in another order, the other components kept in
    theirs. *)
Lemma rewired_permute w w' :
  heap w' = heap w →
  components w' ≡ₚ components w →
  nonwires w' = nonwires w →
  rewired w w'.
Proof.
  intros Hh Hp Hn. split; [done|by rewrite Hh|..];
    intros a b Hab; left; rewrite elem_of_wire_edges in *;
    destruct Hab as (l & Hl & Hw); exists l.
  - by rewrite Hp, Hh.
  - by rewrite <- Hp, <- Hh.
Qed.

(** A component with its two endpoints exchanged. *)
Definition swap_ends (c : Component) : Component :=
  mkComponent (c_b c) (c_a c) (c_name c) (c_kind c).

(** The wire object at [l] replaced by one made with the endpoint
    arguments in the other order. *)
Definition turn_wire (w : World) (l : loc) : World :=
  mkWorld (<[l := swap_ends (deref (heap w) l)]> (heap w)) (components w).

Lemma deref_turn_wire w l l0 :
  l < length (heap w) →
  deref (heap (turn_wire w l)) l0
  = if decide (l0 = l) then swap_ends (deref (heap w) l) else deref (heap w) l0.
Proof.
  intros Hl. unfold deref, turn_wire. simpl. case_decide as Heq.
  - subst l0. by rewrite list_lookup_total_insert_eq.
  - by rewrite list_lookup_total_insert_ne.
Qed.

Lemma rewired_turn_wire w l :
  l < length (heap w) →
  is_Wire (deref (heap w) l) = true →
  rewired w (turn_wire w l).
Proof.
  intros Hl Hw.
  assert (Hkind : ∀ l0, is_Wire (deref (heap (turn_wire w l)) l0)
                        = is_Wire (deref (heap w) l0)).
  { intros l0. rewrite deref_turn_wire by done. case_decide; by subst. }
  assert (Hobj : ∀ l0, is_Wire (deref (heap w) l0) = false →
                       deref (heap (turn_wire w l)) l0 = deref (heap w) l0).
  { intros l0 H0. rewrite deref_turn_wire by done.
    case_decide; [|done]. subst. congruence. }
  split.
  - unfold nonwires. apply filter_ext_in. intros l0 _. by rewrite Hkind.
  - intros l0 [_ H0]%elem_of_nonwires. by apply Hobj.
  - intros a b (l0 & Hl0 & Hw0 & Ha & Hb)%elem_of_wire_edges.
    destruct (decide (l0 = l)) as [->|Hne].
    + right. apply elem_of_wire_edges. exists l.
      rewrite Hkind, deref_turn_wire, decide_True by done. by subst.
    + left. apply elem_of_wire_edges. exists l0.
      rewrite Hkind, deref_turn_wire, decide_False by done. done.
  - intros a b (l0 & Hl0 & Hw0 & Ha & Hb)%elem_of_wire_edges.
    rewrite Hkind in Hw0. rewrite deref_turn_wire in Ha, Hb by done.
    destruct (decide (l0 = l)) as [->|Hne].
    + right. apply elem_of_wire_edges. exists l. by subst.
    + left. apply elem_of_wire_edges. by exists l0.
Qed.

(** Rewired circuits have the same node set, so that compute_lumps goes
    through the same nodes in the same order, and the same classes: they
    get the same solver. *)
Lemma Circuit_nodes_rewired w w' :
  rewired w w' → Circuit_nodes w' = Circuit_nodes w.
Proof.
  intros Hrw. apply set_eq. intros n. split.
  - by apply rewired_nodes, rewired_sym.
  - by apply rewired_nodes.
Qed.

Lemma Solver_init_rewired w w' g :
  rewired w w' → Solver_init w' g = Solver_init w g.
Proof.
  intros Hrw. unfold Solver_init.
  rewrite (Circuit_nodes_rewired _ _ Hrw).
  rewrite (compute_lumps_canonical _ (heap w) (components w)); [done|].
  intros x y. by apply rewired_conn.
Qed.

(** Under one numbering an unknown stands for itself only. *)
Lemma same_unknown_diag s i i' : same_unknown s s i i' → i' = i.
Proof.
  intros [(c & c' & (n & Hc & Hc') & Hi & Hi')|(k & -> & ->)]; [|done].
  congruence.
Qed.

Lemma for_each_ext {X St} (f g : St → X → result St) (l : list X) (t : St) :
  (∀ u x, x ∈ l → f u x = g u x) → for_each f l t = for_each g l t.
Proof.
  revert t. induction l as [|x l IH]; intros t Hfg; [done|].
  rewrite !for_each_cons, (Hfg t x) by (by left).
  destruct (g t x) as [u|e]; [|done]. simpl. apply IH.
  intros v y Hy. apply Hfg. by right.
Qed.

(** With the same solver, two rewired circuits give the same system. *)
Lemma build_matrix_rewired s w w' :
  rewired w w' → solver_wf s w → solver_wf s w' →
  build_matrix s w' = build_matrix s w.
Proof.
  intros Hrw Hwf Hwf'. unfold build_matrix.
  rewrite (voltage_sources_rewired _ _ Hrw).
  set (ni := index_nodes (num_nodes s) (ground_idx s)).
  set (n := num_nodes s - 1 + length (voltage_sources w)).
  assert (for_each (stamp_component s ni (heap w')) (components w') (zeros2 n)
          = for_each (stamp_component s ni (heap w)) (components w) (zeros2 n))
    as ->.
  { rewrite (for_each_skip _ (λ l, ¬ is_Wire (deref (heap w') l))
               (components w')).
    2:{ intros u l Hl Hw. apply dec_stable in Hw.
        by apply stamp_component_wire. }
    rewrite (for_each_skip _ (λ l, ¬ is_Wire (deref (heap w) l))
               (components w)).
    2:{ intros u l Hl Hw. apply dec_stable in Hw.
        by apply stamp_component_wire. }
    fold (nonwires w') (nonwires w). rewrite (rw_nonwires _ _ Hrw).
    apply for_each_ext. intros u l Hl. unfold stamp_component.
    by rewrite (rw_objects _ _ Hrw l Hl). }
  destruct (for_each _ (components w) _) as [A|e]; [|done].
  cbn [mbind result_bind].
  rewrite (for_each_ext (stamp_source s ni (heap w') (num_nodes s - 1))
             (stamp_source s ni (heap w) (num_nodes s - 1))); [done|].
  intros [M v] [k l] Hkl. unfold stamp_source.
  rewrite (rw_objects _ _ Hrw l); [done|].
  apply elem_of_enumerate, list_elem_of_lookup_2 in Hkl.
  apply elem_of_voltage_sources in Hkl as [Hl Hvs].
  apply elem_of_nonwires. split; [done|].
  unfold is_VoltageSource, is_Wire in *.
  by destruct (c_kind (deref (heap w) l)).
Qed.

End SameNumbering.

(** * Concrete circuits, on the exact backend *)

Section Building.
Context {B : Backend}.

(** [c.add(SomeComponent(...))]: allocate the object, append it. *)
Definition add_new (c : Component) (w : World) : World :=
  let '(l, hp) := new c (heap w) in
  Circuit_add (mkWorld hp (components w)) l.

Definition empty_circuit : World := mkWorld [] [].

(** The solver that [Solver(circuit, ground)] constructs, when it does. *)
Definition solver_of (w : World) (ground : Node) : Solver :=
  match Solver_init w ground with
  | Ok s => s
  | Raise _ => mkSolver ground ∅ 0 0
  end.

End Building.

Definition origin : Node := (0, 0)%Z.

(** circuit_led of simulator.py *)
Definition circuit_led : @World exact :=
  add_new (LED_init (2, 0)%Z origin 50%Q (16 # 10)%Q "D1")
  (add_new (Resistor_init (1, 0)%Z (2, 0)%Z 100%Q "R1")
  (add_new (VoltageSource_init (1, 0)%Z origin 5%Q "V1") empty_circuit)).

(** circuit_parallel_series of simulator.py *)
Definition circuit_parallel_series : @World exact :=
  add_new (Wire_init (4, 0)%Z origin EmptyString)
  (add_new (Resistor_init (3, 0)%Z (4, 0)%Z 300%Q "R4")
  (add_new (Resistor_init (2, 0)%Z (3, 0)%Z 200%Q "R3")
  (add_new (Wire_init (1, -1)%Z (2, 0)%Z EmptyString)
  (add_new (Wire_init (1, 1)%Z (2, 0)%Z EmptyString)
  (add_new (Resistor_init (1, 0)%Z (1, -1)%Z 100%Q "R2")
  (add_new (Resistor_init (1, 0)%Z (1, 1)%Z 100%Q "R1")
  (add_new (VoltageSource_init (1, 0)%Z origin 10%Q "V1") empty_circuit))))))).

(** The same, with the wires added in another order and the last one
    turned around. *)
Definition circuit_parallel_series_rewired : @World exact :=
  add_new (Wire_init (1, 1)%Z (2, 0)%Z EmptyString)
  (add_new (Resistor_init (3, 0)%Z (4, 0)%Z 300%Q "R4")
  (add_new (Resistor_init (2, 0)%Z (3, 0)%Z 200%Q "R3")
  (add_new (Wire_init origin (4, 0)%Z EmptyString)
  (add_new (Wire_init (1, -1)%Z (2, 0)%Z EmptyString)
  (add_new (Resistor_init (1, 0)%Z (1, -1)%Z 100%Q "R2")
  (add_new (Resistor_init (1, 0)%Z (1, 1)%Z 100%Q "R1")
  (add_new (VoltageSource_init (1, 0)%Z origin 10%Q "V1") empty_circuit))))))).

(** grid_circuit_led of simulator.py: the objects and the grid. *)
Definition grid_led_world : @World exact :=
  add_new (LED_init (2, 1)%Z (0, 1)%Z 50%Q (16 # 10)%Q "D1")
  (add_new (Resistor_init (1, 1)%Z (2, 1)%Z 100%Q "R1")
  (add_new (VoltageSource_init (1, 1)%Z (0, 1)%Z 5%Q "V1") empty_circuit)).

Definition grid_circuit_led : GridCircuit :=
  mkGrid 5 3 (components grid_led_world).

(** Two sources of 5 V, neither given a name: both are called V(5). *)
Definition two_sources : @World exact :=
  add_new (Resistor_init (2, 0)%Z origin 200%Q EmptyString)
  (add_new (VoltageSource_init (2, 0)%Z origin 5%Q EmptyString)
  (add_new (Resistor_init (1, 0)%Z origin 100%Q EmptyString)
  (add_new (VoltageSource_init (1, 0)%Z origin 5%Q EmptyString) empty_circuit))).

(** A source alone: its positive node reaches ground through the source
    only. *)
Definition lone_source : @World exact :=
  add_new (VoltageSource_init (1, 0)%Z origin 5%Q "V1") empty_circuit.

(** A resistor that touches nothing, next to a grounded one. *)
Definition floating_resistor : @World exact :=
  add_new (Resistor_init (2, 0)%Z (3, 0)%Z 100%Q "R2")
  (add_new (Resistor_init (1, 0)%Z origin 100%Q "R1") empty_circuit).

(** A 10 V source behind 100 ohm feeds two LEDs across the same node pair:
    D1 forward (10 ohm when on, on from 6 V), D2 reversed (100 ohm when
    on, on while the node is at 2 V or less).  The states go
    off/off, on/off, off/on, off/off, ... and never repeat. *)
Definition oscillator : @World exact :=
  add_new (LED_init origin (2, 0)%Z 100%Q (-2)%Q "D2")
  (add_new (LED_init (2, 0)%Z origin 10%Q 6%Q "D1")
  (add_new (Resistor_init (1, 0)%Z (2, 0)%Z 100%Q "R1")
  (add_new (VoltageSource_init (1, 0)%Z origin 10%Q "V1") empty_circuit))).

(** The edges a current can take without a source or an LED. *)
Definition conducting_edges {B : Backend} (hp : list Component)
    (comps : list loc) : list (Node * Node) :=
  omap (λ l, let c := deref hp l in
             if is_Wire c || is_Resistor c then Some (c_a c, c_b c) else None)
       comps.

(** * The claims on concrete circuits *)

(** On the exact backend [>=] is the order of the rationals. *)
Lemma exact_ge_sub (va vb threshold : Q) :
  @nge exact (@nsub exact va vb) threshold = true ↔ (threshold <= va - vb)%Q.
Proof.
  simpl. unfold Exact.ge, Exact.sub. rewrite Qle_bool_iff.
  by rewrite Qred_correct.
Qed.


(** The values of a run of solve, kept as constants. *)
Definition run_voltages (s : Solver) (n : nat) (w : @World exact)
  : option (gmap nat Q) :=
  match solve s n w with
  | Ok (voltages, _, _) => voltages
  | Raise _ => None
  end.

Definition run_currents (s : Solver) (n : nat) (w : @World exact)
  : gmap string Q :=
  match solve s n w with
  | Ok (_, currents, _) => currents
  | Raise _ => ∅
  end.

Definition run_world (s : Solver) (n : nat) (w : @World exact) : @World exact :=
  match solve s n w with
  | Ok (_, _, w') => w'
  | Raise _ => w
  end.

Definition solver_led : Solver := Eval vm_compute in solver_of circuit_led origin.
Definition led_voltages : gmap nat Q :=
  Eval vm_compute in default ∅ (run_voltages solver_led 10 circuit_led).
Definition led_currents : gmap string Q :=
  Eval vm_compute in run_currents solver_led 10 circuit_led.
Definition led_world : @World exact :=
  Eval vm_compute in run_world solver_led 10 circuit_led.

Lemma solver_led_init : Solver_init circuit_led origin = Ok solver_led.
Proof. reflexivity. Qed.

Lemma led_solve :
  solve solver_led 10 circuit_led = Ok (Some led_voltages, led_currents, led_world).
Proof. reflexivity. Qed.

Definition led_pass : gmap nat Q * list Q * list bool * @World exact :=
  Eval vm_compute in
    match step solver_led (led_list circuit_led) circuit_led with
    | Ok r => r
    | Raise _ => (∅, [], [], circuit_led)
    end.

Lemma led_step :
  step solver_led (led_list circuit_led) circuit_led = Ok led_pass.
Proof. reflexivity. Qed.



Lemma solve_frame_witness :
  solve solver_led 10 circuit_led = Ok (Some led_voltages, led_currents, led_world) ∧
  components led_world = components circuit_led ∧
  length (heap led_world) = length (heap circuit_led) ∧
  ∀ l, let c := deref (heap circuit_led) l in
       let c' := deref (heap led_world) l in
       c_a c' = c_a c ∧ c_b c' = c_b c ∧ c_name c' = c_name c ∧
       c_kind c' = match c_kind c with
                   | LED r_on threshold _ => LED r_on threshold (get_on c')
                   | k => k
                   end.
Proof.
  split; [exact led_solve|].
  exact (solve_frame solver_led 10 circuit_led _ _ _ led_solve).
Defined.

Definition led_loop : LoopOut :=
  Eval vm_compute in
    match loop solver_led (led_list circuit_led) 10 circuit_led None None 0 with
    | Ok out => out
    | Raise _ => mkLoopOut None circuit_led 0 false
    end.

Lemma led_loop_eq :
  loop solver_led (led_list circuit_led) 10 circuit_led None None 0 = Ok led_loop.
Proof. reflexivity. Qed.

Lemma solve_twice_converged_witness :
  loop solver_led (led_list circuit_led) 10 circuit_led None None 0 = Ok led_loop ∧
  lo_stable led_loop = true ∧
  solve solver_led 10 circuit_led = Ok (Some led_voltages, led_currents, led_world) ∧
  solve solver_led 10 led_world = Ok (Some led_voltages, led_currents, led_world).
Proof.
  split; [exact led_loop_eq|]. split; [reflexivity|]. split; [exact led_solve|].
  exact (solve_twice_converged solver_led 10 circuit_led led_loop _ _ _
           led_loop_eq eq_refl led_solve).
Defined.


Definition solver_floating : Solver :=
  Eval vm_compute in solver_of floating_resistor origin.

Definition floating_system : list (list Q) * list Q * gmap nat nat :=
  Eval vm_compute in
    match build_matrix solver_floating floating_resistor with
    | Ok r => r
    | Raise _ => ([], [], ∅)
    end.

Lemma floating_build :
  build_matrix solver_floating floating_resistor
  = Ok (floating_system.1.1, floating_system.1.2, floating_system.2).
Proof. reflexivity. Qed.

Lemma floating_singular :
  @linalg_solve exact floating_system.1.1 floating_system.1.2 = None.
Proof. reflexivity. Qed.


Lemma grid_solve_missing_ground_witness :
  (∀ l, l ∈ grid_components grid_circuit_led →
        (4, 2)%Z ≠ c_a (deref (heap grid_led_world) l) ∧
        (4, 2)%Z ≠ c_b (deref (heap grid_led_world) l)) ∧
  GridCircuit_solve (heap grid_led_world) grid_circuit_led (4, 2)%Z
  = Ok (∅, ∅, None, heap grid_led_world).
Proof.
  assert (Hfree : ∀ l, l ∈ grid_components grid_circuit_led →
            (4, 2)%Z ≠ c_a (deref (heap grid_led_world) l) ∧
            (4, 2)%Z ≠ c_b (deref (heap grid_led_world) l)).
  { apply Forall_forall. apply (bool_decide_unpack _). exact I. }
  split; [exact Hfree|].
  exact (grid_solve_missing_ground (heap grid_led_world) grid_circuit_led
           (4, 2)%Z Hfree).
Defined.

Lemma ground_class_excluded_witness :
  Solver_init circuit_led origin = Ok solver_led ∧
  led_voltages !! ground_idx solver_led = Some 0%Q.
Proof.
  split; [exact solver_led_init|].
  pose proof (ground_class_excluded circuit_led origin solver_led
                solver_led_init) as (_ & _ & Hzero & _).
  exact (proj1 (Hzero 10 led_voltages led_currents led_world led_solve)).
Defined.

Lemma led_names_differ :
  ∀ l', l' ∈ [1; 2] →
        is_Wire (deref (heap circuit_led) l') ∨
        c_name (deref (heap circuit_led) l') ≠ c_name (deref (heap circuit_led) 0).
Proof. apply Forall_forall. apply (bool_decide_unpack _). exact I. Qed.


(** ** Where the claims fail *)

Definition solver_two : Solver := Eval vm_compute in solver_of two_sources origin.
Definition two_voltages : gmap nat Q :=
  Eval vm_compute in default ∅ (run_voltages solver_two 10 two_sources).
Definition two_currents : gmap string Q :=
  Eval vm_compute in run_currents solver_two 10 two_sources.
Definition two_world : @World exact :=
  Eval vm_compute in run_world solver_two 10 two_sources.
Definition two_loop : LoopOut :=
  Eval vm_compute in
    match loop solver_two (led_list two_sources) 10 two_sources None None 0 with
    | Ok out => out
    | Raise _ => mkLoopOut None two_sources 0 false
    end.



Definition solver_lone : Solver := Eval vm_compute in solver_of lone_source origin.
Definition lone_voltages : gmap nat Q :=
  Eval vm_compute in default ∅ (run_voltages solver_lone 10 lone_source).
Definition lone_currents : gmap string Q :=
  Eval vm_compute in run_currents solver_lone 10 lone_source.
Definition lone_world : @World exact :=
  Eval vm_compute in run_world solver_lone 10 lone_source.


Definition solver_osc : Solver := Eval vm_compute in solver_of oscillator origin.
Definition osc_voltages : gmap nat Q :=
  Eval vm_compute in default ∅ (run_voltages solver_osc 10 oscillator).
Definition osc_currents : gmap string Q :=
  Eval vm_compute in run_currents solver_osc 10 oscillator.
Definition osc_world : @World exact :=
  Eval vm_compute in run_world solver_osc 10 oscillator.
Definition osc_voltages2 : gmap nat Q :=
  Eval vm_compute in default ∅ (run_voltages solver_osc 10 osc_world).
Definition osc_currents2 : gmap string Q :=
  Eval vm_compute in run_currents solver_osc 10 osc_world.
Definition osc_world2 : @World exact :=
  Eval vm_compute in run_world solver_osc 10 osc_world.

(** C7 fails when the loop runs into its cap.  The LED states of
    [oscillator] cycle with period 3, so ten passes end at another point of
    the cycle than they began.  The first solve returns about 10 V for node
    (2, 0), the second, on the untouched circuit, about 0.9 V; the reported
    currents differ too. *)
Lemma oscillator_solves_differ :
  Solver_init oscillator origin = Ok solver_osc ∧
  solve solver_osc 10 oscillator
  = Ok (Some osc_voltages, osc_currents, osc_world) ∧
  solve solver_osc 10 osc_world
  = Ok (Some osc_voltages2, osc_currents2, osc_world2) ∧
  potential_at solver_osc osc_voltages (2, 0)%Z = Ok (50000000 # 5000001)%Q ∧
  potential_at solver_osc osc_voltages2 (2, 0)%Z = Ok (100000000 # 110000001)%Q ∧
  osc_voltages ≠ osc_voltages2 ∧
  osc_currents !! "D1" = Some (5000000 # 5000001)%Q ∧
  osc_currents2 !! "D1" = Some 0%Q ∧
  osc_currents ≠ osc_currents2.
Proof.
  split_and!; try reflexivity.
  - intros Heq. apply (f_equal (λ V, V !! 1)) in Heq.
    vm_compute in Heq. discriminate Heq.
  - intros Heq. apply (f_equal (λ c : gmap string Q, c !! "D1")) in Heq.
    vm_compute in Heq. discriminate Heq.
Qed.

(** circuit_parallel_series and the same circuit rewired. *)
Definition solver_series : Solver :=
  Eval vm_compute in solver_of circuit_parallel_series origin.
Definition series_voltages : gmap nat Q :=
  Eval vm_compute in
    default ∅ (run_voltages solver_series 10 circuit_parallel_series).
Definition series_currents : gmap string Q :=
  Eval vm_compute in run_currents solver_series 10 circuit_parallel_series.
Definition series_world : @World exact :=
  Eval vm_compute in run_world solver_series 10 circuit_parallel_series.

Lemma solver_series_init :
  Solver_init circuit_parallel_series origin = Ok solver_series.
Proof. reflexivity. Qed.

Lemma series_solve :
  solve solver_series 10 circuit_parallel_series
  = Ok (Some series_voltages, series_currents, series_world).
Proof. reflexivity. Qed.

Lemma series_rewired :
  rewired circuit_parallel_series circuit_parallel_series_rewired.
Proof.
  split.
  - reflexivity.
  - apply Forall_forall. repeat constructor.
  - intros a b Hab.
    refine (proj1 (Forall_forall (λ e : Node * Node,
      e ∈ wire_edges (heap circuit_parallel_series_rewired)
                     (components circuit_parallel_series_rewired) ∨
      (e.2, e.1) ∈ wire_edges (heap circuit_parallel_series_rewired)
                              (components circuit_parallel_series_rewired))
      (wire_edges (heap circuit_parallel_series)
                  (components circuit_parallel_series))) _ (a, b) Hab).
    apply (bool_decide_unpack _). exact I.
  - intros a b Hab.
    refine (proj1 (Forall_forall (λ e : Node * Node,
      e ∈ wire_edges (heap circuit_parallel_series)
                     (components circuit_parallel_series) ∨
      (e.2, e.1) ∈ wire_edges (heap circuit_parallel_series)
                              (components circuit_parallel_series))
      (wire_edges (heap circuit_parallel_series_rewired)
                  (components circuit_parallel_series_rewired))) _ (a, b) Hab).
    apply (bool_decide_unpack _). exact I.
Qed.

(** * Further properties of the code *)

(** ** UnionFind *)

Section UnionFindMore.
Context {B : Backend}.

(** X1. UnionFind.find on a parent map without cycles: find(x) returns
    the representative [r] of [x]; on return [parent[x]] is [r]; a node
    keeps its parent or is given its own representative as parent; and
    every node has the representative it had. *)
Theorem find_returns_root depth p x ht bound :
  ranked (par p) ht bound →
  bound - ht x < depth →
  ∃ r p', find depth p x = Ok (r, p') ∧
    root (par p) x r ∧
    p' !! x = Some r ∧
    (∀ y, par p' y = par p y ∨ (par p y ≠ y ∧ root (par p) y (par p' y))) ∧
    (∀ y r', root (par p') y r' ↔ root (par p) y r').
Proof.
  intros Hrk Hd.
  destruct (find_spec depth p x ht bound Hrk Hd) as (r & p' & Hf & Hr & Hc).
  exists r, p'. split_and!; [done|done| |done|].
  - destruct depth as [|depth]; [lia|]. simpl in Hf.
    rewrite setdefault_lookup in Hf. simpl in Hf.
    destruct (decide (par p x ≠ x)) as [Hne|Heq].
    + apply bind_Ok in Hf as ([r1 p1] & _ & [= <- <-]).
      by rewrite lookup_insert_eq.
    + apply dec_stable in Heq. injection Hf as <- <-.
      by rewrite setdefault_lookup.
  - intros y r'. symmetry. by eapply compressed_root.
Qed.

(** X2. UnionFind.union on a parent map without cycles: afterwards [a]
    and [b] have one representative, the one [a] had; two nodes are in
    one class if and only if they were, or one was with [a] and the other
    with [b]; and the map is still without cycles. *)
Theorem union_merges_classes depth p a b ht bound :
  ranked (par p) ht bound →
  bound < depth →
  ∃ p', union depth p a b = Ok p' ∧
    (∃ ht', ranked (par p') ht' (S bound)) ∧
    (∃ ra, root (par p) a ra ∧ root (par p') a ra ∧ root (par p') b ra) ∧
    ∀ x y, same (par p') x y ↔
           same (par p) x y ∨ (same (par p) x a ∧ same (par p) b y)
                            ∨ (same (par p) x b ∧ same (par p) a y).
Proof.
  intros Hrk Hd.
  destruct (union_spec depth p a b ht bound Hrk Hd)
    as (p' & ht' & Hu & Hrk' & Hsame).
  exists p'. split_and!; [done|by exists ht'| |done].
  unfold union in Hu.
  destruct (find_spec depth p a ht bound Hrk) as (ra & p1 & Hfa & Hra & Hc1);
    [lia|].
  pose proof (compressed_ranked _ _ _ _ Hrk Hc1) as Hrk1.
  destruct (find_spec depth p1 b ht bound Hrk1) as (rb & p2 & Hfb & Hrb & Hc2);
    [lia|].
  rewrite Hfa in Hu. simpl in Hu. rewrite Hfb in Hu. simpl in Hu.
  injection Hu as <-. exists ra. split; [done|].
  assert (Hra2 : root (par p2) a ra).
  { apply (compressed_root _ _ _ _ a ra Hrk1 Hc2).
    by apply (compressed_root _ _ _ _ a ra Hrk Hc1). }
  assert (Hrb2 : root (par p2) b rb).
  { by apply (compressed_root _ _ _ _ b rb Hrk1 Hc2). }
  case_decide as Hab.
  - assert (Hg : ∀ y, par (<[rb := ra]> p2) y
                      = if decide (rb = y) then ra else par p2 y).
    { intros y. apply par_insert. }
    pose proof (root_fixed _ _ _ Hra2) as Hfa2.
    pose proof (root_fixed _ _ _ Hrb2) as Hfb2.
    split.
    + by apply (link_root_other (par p2) _ ra rb a ra).
    + by apply (link_root_moved (par p2) _ ra rb b).
  - by subst rb.
Qed.

End UnionFindMore.

(** ** compute_lumps *)

Section LumpsMore.
Context {B : Backend}.

(** The dict [index] only grows, by one entry a node at most. *)
Lemma lump_indexes_grow depth l :
  ∀ p index mapping p' index' mapping',
    for_each (lump_index depth) l (p, index, mapping)
    = Ok (p', index', mapping') →
    size index' ≤ size index + length l ∧
    ∀ r i, index !! r = Some i → index' !! r = Some i.
Proof.
  induction l as [|n l IH]; intros p index mapping p' index' mapping' Hrun.
  - injection Hrun as <- <- <-. split; [simpl; lia|done].
  - rewrite for_each_cons in Hrun.
    apply bind_Ok in Hrun as ([[p1 index1] mapping1] & Hstep & Hrun).
    apply IH in Hrun as [Hsize Hkeep]. unfold lump_index in Hstep.
    apply bind_Ok in Hstep as ([r p2] & _ & Hstep).
    apply bind_Ok in Hstep as (i & _ & [= <- <- <-]).
    destruct (index !! r) as [i0|] eqn:Hr.
    + split; [simpl; lia|done].
    + rewrite map_size_insert_None in Hsize by done.
      split; [simpl; lia|]. intros r' i' Hr'. apply Hkeep.
      rewrite lookup_insert_ne; [done|]. intros ->. congruence.
Qed.

(** The numbers are given in the order in which compute_lumps meets the
    nodes. *)
Lemma compute_lumps_first_encounter nodes hp comps mapping K :
  compute_lumps nodes hp comps = Ok (mapping, K) →
  (∀ k n i, nodes !! k = Some n → mapping !! n = Some i → i ≤ k) ∧
  K ≤ length nodes.
Proof.
  intros Hrun.
  assert (Hpos : ∀ k n i, nodes !! k = Some n → mapping !! n = Some i → i ≤ k).
  { intros k n i Hk Hi. unfold compute_lumps in Hrun.
    destruct (lump_wires_run nodes hp comps)
      as (p1 & ht1 & bound1 & Hw & Hrk1 & Hb1 & _).
    rewrite Hw in Hrun. cbn [mbind result_bind] in Hrun.
    set (depth := S (length comps)) in *.
    pose proof (take_drop_middle nodes k n Hk) as Hsplit.
    set (pre := take k nodes) in *. set (post := drop (S k) nodes) in *.
    assert (Hlen : length pre = k).
    { unfold pre. rewrite length_take. apply lookup_lt_Some in Hk. lia. }
    destruct (lump_indexes_spec depth (par p1) ht1 bound1 pre [] (p1, ∅, ∅))
      as ([[pa indexa] mappinga] & Ha & Hinva);
      [by apply index_inv_init|done|].
    destruct (lump_index_spec depth (par p1) ht1 bound1 ([] ++ pre) _ n Hinva)
      as ([[pb indexb] mappingb] & Hb & Hinvb); [done|].
    destruct (lump_indexes_spec depth (par p1) ht1 bound1 post _ _ Hinvb)
      as ([[pc indexc] mappingc] & Hc & Hinvc); [done|].
    rewrite <- Hsplit, for_each_app, Ha in Hrun.
    cbn [mbind result_bind] in Hrun.
    rewrite for_each_cons, Hb in Hrun. cbn [mbind result_bind] in Hrun.
    rewrite Hc in Hrun. cbn [mbind result_bind] in Hrun.
    injection Hrun as <- <-.
    apply lump_indexes_grow in Ha as [Hsa _].
    pose proof (lump_indexes_grow depth [n] pa indexa mappinga pb indexb mappingb)
      as [Hsb _]; [by rewrite for_each_cons, Hb|].
    apply lump_indexes_grow in Hc as [_ Hkeep].
    destruct Hinvb as (_ & _ & Hltb & _ & _ & Hseenb & _).
    destruct Hinvc as (_ & _ & _ & _ & _ & Hseenc & _).
    destruct (Hseenb n) as (r & ib & Hr & Hib & _).
    { apply elem_of_app. right. by apply list_elem_of_singleton. }
    destruct (Hseenc n) as (r' & ic & Hr' & Hic & Hmc).
    { apply elem_of_app. left. apply elem_of_app. right.
      by apply list_elem_of_singleton. }
    rewrite (root_functional _ _ _ _ Hr' Hr) in Hic.
    rewrite (Hkeep _ _ Hib) in Hic. injection Hic as <-.
    rewrite Hi in Hmc. injection Hmc as ->.
    apply Hltb in Hib. rewrite map_size_empty in Hsa. simpl in Hsb. lia. }
  split; [done|].
  destruct (compute_lumps_spec nodes hp comps)
    as (m & K' & Hrun' & Hdom & _ & Hsur & _).
  rewrite Hrun in Hrun'. injection Hrun' as <- <-.
  destruct K as [|K]; [lia|].
  destruct (Hsur K) as (n & Hn); [lia|].
  assert (n ∈ nodes) as [k Hk]%list_elem_of_lookup by (apply Hdom; eauto).
  pose proof (Hpos k n K Hk Hn). apply lookup_lt_Some in Hk. lia.
Qed.


End LumpsMore.

(** ** Circuit and Solver.__init__ *)

Section SolverInitMore.
Context {B : Backend}.

(** X4. Circuit.nodes is the set of the endpoints of the components: a
    node is in it if and only if it is the [a] or the [b] of a component
    of the list; a circuit without components has no node, and
    Circuit.add adds the two endpoints of the new component, and nothing
    else, to the set. *)
Theorem Circuit_nodes_endpoints (w : World) :
  (∀ n, n ∈ Circuit_nodes w ↔
        ∃ l, l ∈ components w ∧
             (n = c_a (deref (heap w) l) ∨ n = c_b (deref (heap w) l))) ∧
  (components w = [] → Circuit_nodes w = ∅) ∧
  (∀ l, Circuit_nodes (Circuit_add w l)
        = Circuit_nodes w ∪ {[c_a (deref (heap w) l)]}
                          ∪ {[c_b (deref (heap w) l)]}).
Proof.
  split_and!.
  - apply elem_of_Circuit_nodes.
  - intros Hnil. unfold Circuit_nodes. by rewrite Hnil.
  - intros l. unfold Circuit_nodes, Circuit_add. simpl.
    by rewrite foldl_snoc.
Qed.


End SolverInitMore.

(** ** build_matrix *)

Section MatrixMore.
Context {B : Backend}.

(** [A[i, j] == A[j, i]] wherever one of them exists. *)
Definition symmetric (A : list (list num)) : Prop :=
  ∀ i j, entry A i j = entry A j i.

Lemma mat_update_diag_symmetric f i A A1 :
  symmetric A → mat_update f i i A = Ok A1 → symmetric A1.
Proof.
  intros HA (v & _ & HA1)%mat_update_entry k m. rewrite !HA1, (HA k m).
  destruct (decide (k = i ∧ m = i)), (decide (m = i ∧ k = i)); try done; exfalso; lia.
Qed.

Lemma mat_update_pair_symmetric f i j A A1 A2 :
  symmetric A → mat_update f i j A = Ok A1 → mat_update f j i A1 = Ok A2 →
  symmetric A2.
Proof.
  intros HA (v & Hv & HA1)%mat_update_entry (v' & Hv' & HA2)%mat_update_entry.
  rewrite HA1 in Hv'. intros k m. rewrite !HA2, !HA1, (HA k m).
  destruct (decide (i = j)) as [->|Hne].
  - rewrite decide_True in Hv' by done. injection Hv' as <-.
    destruct (decide (k = j ∧ m = j)), (decide (m = j ∧ k = j)); try done; exfalso; lia.
  - rewrite decide_False, (HA j i), Hv in Hv' by (intros [? ?]; congruence).
    injection Hv' as <-.
    destruct (decide (k = j ∧ m = i)), (decide (m = j ∧ k = i)),
             (decide (k = i ∧ m = j)), (decide (m = i ∧ k = j)); try done; exfalso; lia.
Qed.

Lemma add_conductance_symmetric s ni i j g A A' :
  symmetric A → add_conductance s ni i j g A = Ok A' → symmetric A'.
Proof.
  intros HA Hadd. unfold add_conductance in Hadd.
  apply bind_Ok in Hadd as (A1 & H1 & Hadd).
  apply bind_Ok in Hadd as (A2 & H2 & Hadd).
  assert (HA1 : symmetric A1).
  { destruct (decide (i ≠ ground_idx s)); [|by injection H1 as <-].
    apply bind_Ok in H1 as (ii & _ & H1).
    by eapply mat_update_diag_symmetric. }
  assert (HA2 : symmetric A2).
  { destruct (decide (j ≠ ground_idx s)); [|by injection H2 as <-].
    apply bind_Ok in H2 as (jj & _ & H2).
    by eapply mat_update_diag_symmetric. }
  destruct (decide (i ≠ ground_idx s ∧ j ≠ ground_idx s));
    [|by injection Hadd as <-].
  apply bind_Ok in Hadd as (ii & _ & Hadd).
  apply bind_Ok in Hadd as (jj & _ & Hadd).
  apply bind_Ok in Hadd as (A3 & H3 & H4).
  by eapply mat_update_pair_symmetric.
Qed.

Lemma stamp_component_symmetric s ni hp A l A' :
  symmetric A → stamp_component s ni hp A l = Ok A' → symmetric A'.
Proof.
  intros HA Hst. unfold stamp_component in Hst.
  apply bind_Ok in Hst as (a & _ & Hst). apply bind_Ok in Hst as (b & _ & Hst).
  destruct (c_kind (deref hp l)) as [|r|v|r t on].
  - by injection Hst as <-.
  - apply bind_Ok in Hst as (g & _ & Hst). by eapply add_conductance_symmetric.
  - by injection Hst as <-.
  - apply bind_Ok in Hst as (g & _ & Hst). by eapply add_conductance_symmetric.
Qed.

Lemma stamp_source_symmetric s ni hp N A z k l A' z' :
  symmetric A → stamp_source s ni hp N (A, z) (k, l) = Ok (A', z') →
  symmetric A'.
Proof.
  intros HA Hst. unfold stamp_source in Hst.
  apply bind_Ok in Hst as (a & _ & Hst). apply bind_Ok in Hst as (b & _ & Hst).
  apply bind_Ok in Hst as (A1 & H1 & Hst).
  apply bind_Ok in Hst as (A2 & H2 & Hst).
  assert (HA1 : symmetric A1).
  { destruct (decide (a ≠ ground_idx s)); [|by injection H1 as <-].
    apply bind_Ok in H1 as (ia & Hia & H1).
    apply bind_Ok in H1 as (A0 & H0 & H1).
    apply bind_Ok in H1 as (ia' & Hia' & H1).
    rewrite Hia in Hia'. injection Hia' as <-.
    by eapply mat_update_pair_symmetric. }
  assert (HA2 : symmetric A2).
  { destruct (decide (b ≠ ground_idx s)); [|by injection H2 as <-].
    apply bind_Ok in H2 as (ib & Hib & H2).
    apply bind_Ok in H2 as (A0 & H0 & H2).
    apply bind_Ok in H2 as (ib' & Hib' & H2).
    rewrite Hib in Hib'. injection Hib' as <-.
    by eapply mat_update_pair_symmetric. }
  destruct (c_kind (deref hp l)); try done.
  apply bind_Ok in Hst as (z1 & _ & [= <- <-]). done.
Qed.

(** X6. The matrix that build_matrix assembles is symmetric: every
    conductance is stamped at [ii, jj] and at [jj, ii], and every
    coefficient of a voltage source in its row and in its column. *)
Theorem build_matrix_symmetric s w A z node_index :
  build_matrix s w = Ok (A, z, node_index) →
  ∀ i j, entry A i j = entry A j i.
Proof.
  intros Hb. unfold build_matrix in Hb.
  apply bind_Ok in Hb as (A0 & Hcomp & Hb).
  apply bind_Ok in Hb as ([A1 z1] & Hsrc & [= <- <- <-]).
  apply (for_each_inv symmetric) in Hcomp.
  - apply (for_each_inv (λ '(M, _), symmetric M)) in Hsrc; [done|done|].
    intros [M v] [k l] [M' v'] _ HM Hst. by eapply stamp_source_symmetric.
  - intros i j. rewrite !entry_zeros2.
    set (n := num_nodes s - 1 + length (voltage_sources w)).
    destruct (decide (i < n ∧ j < n)), (decide (j < n ∧ i < n)); try done; exfalso; lia.
  - intros M l M' _ HM Hst. by eapply stamp_component_symmetric.
Qed.

End MatrixMore.

Section MatrixEdges.
Context {B : Backend}.

(** X7. The right-hand side that build_matrix returns: zero in the rows
    of the classes, and in row [N + k] the voltage of the [k]-th voltage
    source of the component list. *)
Theorem build_matrix_rhs s w A z node_index :
  build_matrix s w = Ok (A, z, node_index) →
  z = replicate (num_nodes s - 1) nzero
      ++ ((λ l, source_voltage (deref (heap w) l)) <$> voltage_sources w).
Proof.
  intros Hb. pose proof (build_matrix_z _ _ _ _ _ Hb) as (_ & Hlen & Hsrc).
  set (N := num_nodes s - 1) in *.
  assert (Hzero : ∀ i, i < N → z !! i = Some nzero).
  { unfold build_matrix in Hb. apply bind_Ok in Hb as (A0 & _ & Hb).
    apply bind_Ok in Hb as ([A1 z1] & Hs & [= <- <- <-]).
    apply (for_each_enumerate_inv
             (λ _ '(_, v), ∀ i, i < N → v !! i = Some nzero)) in Hs; [done|..].
    - intros i Hi. unfold zeros. apply lookup_replicate_2. fold N. lia.
    - intros k l [Au zu] [Au' zu'] _ Hz Hst i Hi.
      apply stamp_source_z in Hst as [_ ->]. fold N.
      rewrite list_lookup_insert_ne by lia. by apply Hz. }
  apply list_eq. intros i. destruct (decide (i < N)) as [Hi|Hi].
  - rewrite lookup_app_l by (rewrite length_replicate; lia).
    rewrite (Hzero i Hi). symmetry. by apply lookup_replicate_2.
  - rewrite lookup_app_r by (rewrite length_replicate; lia).
    rewrite length_replicate, list_lookup_fmap.
    replace i with (N + (i - N)) at 1 by lia.
    destruct (voltage_sources w !! (i - N)) as [l|] eqn:Hl; simpl.
    + by apply Hsrc.
    + apply lookup_ge_None. apply lookup_ge_None in Hl. lia.
Qed.

(** A component through which build_matrix divides by zero. *)
Definition zero_resistance (c : Component) : bool :=
  match c_kind c with
  | Resistor resistance => is_zero resistance
  | LED r_on _ on => is_zero (effective_resistance r_on on)
  | _ => false
  end.

Lemma for_each_total {X St} (P : St → Prop) (f : St → X → result St)
    (l : list X) (t : St) :
  P t →
  (∀ u x, x ∈ l → P u → ∃ u', f u x = Ok u' ∧ P u') →
  ∃ t', for_each f l t = Ok t' ∧ P t'.
Proof.
  revert t. induction l as [|x l IH]; intros t Ht Hf; [by exists t|].
  rewrite for_each_cons. destruct (Hf t x) as (u & -> & Hu); [by left|done|].
  apply IH; [done|]. intros v y Hy. apply Hf. by right.
Qed.

Lemma for_each_Ok_elem {X St} (f : St → X → result St) (l : list X)
    (t t' : St) (x : X) :
  for_each f l t = Ok t' → x ∈ l → ∃ u u', f u x = Ok u'.
Proof.
  revert t. induction l as [|y l IH]; intros t Hrun Hx.
  - by apply elem_of_nil in Hx.
  - rewrite for_each_cons in Hrun. apply bind_Ok in Hrun as (u & Hu & Hrun).
    apply elem_of_cons in Hx as [->|Hx]; [by exists t, u|by eapply IH].
Qed.

Lemma stamp_component_nonzero s n w u l :
  solver_wf s w → num_nodes s - 1 ≤ n → l ∈ components w → square n u →
  zero_resistance (deref (heap w) l) = false →
  ∃ u', stamp_component s (index_nodes (num_nodes s) (ground_idx s))
                        (heap w) u l = Ok u' ∧ square n u'.
Proof.
  intros (Hg & _ & Hlt & Hdom) Hn Hl Hu Hnz.
  destruct (Hdom l Hl) as [[a Ha] [b Hb]].
  unfold stamp_component, getitem. rewrite Ha, Hb.
  cbn [mbind result_bind]. unfold zero_resistance in Hnz.
  pose proof (Hlt _ _ Ha). pose proof (Hlt _ _ Hb).
  destruct (c_kind (deref (heap w) l)); try (by exists u);
    unfold py_div; rewrite Hnz; cbn [mbind result_bind];
    by apply (add_conductance_square s n Hg).
Qed.


End MatrixEdges.

(** ** Solver.solve: the loop *)

Section SolveLoopMore.
Context {B : Backend}.

(** X9. solve with [max_iter = 0] makes no pass, so that [voltages] is
    still None when the currents are computed: on a circuit with a
    component it raises TypeError at the first [self.voltages[...]]; on a
    circuit without components it returns None and an empty dict. *)
Theorem solve_zero_iterations s w :
  solver_wf s w →
  (components w ≠ [] → solve s 0 w = Raise TypeError) ∧
  (components w = [] → solve s 0 w = Ok (None, ∅, w)).
Proof.
  intros (_ & _ & _ & Hdom). unfold solve.
  change (loop s (led_list w) 0 w None None 0)
    with (Ok (mkLoopOut None w 0 false)).
  cbn [mbind result_bind lo_world lo_cur]. split.
  - destruct (components w) as [|l ls] eqn:Hc; [done|]. intros _.
    rewrite for_each_cons. unfold record_current.
    destruct (Hdom l) as [[a Ha] _]; [by left|].
    unfold getitem. by rewrite Ha.
  - by intros ->.
Qed.

(** X10. A circuit without LEDs: whatever the cap, from 2 on, solve makes
    exactly two passes, which assemble and solve the same system (the
    empty list of states of the first pass differs from None, that of the
    second equals that of the first); the cap has no influence on what
    solve returns or raises. *)
Theorem solve_without_leds s n w :
  led_list w = [] →
  solve s (S (S n)) w = solve s 2 w ∧
  ∀ out, loop s (led_list w) (S (S n)) w None None 0 = Ok out →
         lo_iters out = 2 ∧ lo_stable out = true ∧ lo_world out = w ∧
         ∃ V x, lo_cur out = Some (V, x) ∧ step s [] w = Ok (V, x, [], w).
Proof.
  intros Hleds.
  assert (Hloop : ∀ m, loop s [] (S (S m)) w None None 0
                       = match step s [] w with
                         | Ok (V, x, _, _) => Ok (mkLoopOut (Some (V, x)) w 2 true)
                         | Raise e => Raise e
                         end).
  { intros m. destruct (step s [] w) as [[[[V x] st] w1]|e] eqn:Hstep.
    - pose proof (step_frame _ _ _ _ _ _ _ Hstep) as (_ & _ & Hst).
      simpl in Hst. subst st.
      pose proof (step_same_world _ _ _ _ _ _ _ Hstep eq_refl) as ->.
      by apply loop_fixed.
    - rewrite loop_S, Hstep. done. }
  split.
  - unfold solve. rewrite Hleds. by rewrite !Hloop.
  - intros out. rewrite Hleds, Hloop.
    destruct (step s [] w) as [[[[V x] st] w1]|e] eqn:Hstep; [|done].
    intros [= <-]. simpl. split_and!; [done..|].
    exists V, x. split; [done|].
    pose proof (step_frame _ _ _ _ _ _ _ Hstep) as (_ & _ & Hst).
    simpl in Hst. subst st.
    by pose proof (step_same_world _ _ _ _ _ _ _ Hstep eq_refl) as ->.
Qed.

(** X11. When the loop of solve ended because the LED states repeated,
    what solve returns is consistent with the circuit as it leaves it:
    the potentials are those read from a solution of the system that
    build_matrix assembles for the final LED states, and every LED is in
    the state that these potentials give it. *)
Theorem solve_converged_consistent s max_iter w out voltages currents w' :
  loop s (led_list w) max_iter w None None 0 = Ok out →
  lo_stable out = true →
  solve s max_iter w = Ok (voltages, currents, w') →
  ∃ V A z node_index x,
    voltages = Some V ∧
    build_matrix s w' = Ok (A, z, node_index) ∧
    linalg_solve A z = Some x ∧
    potentials s node_index x = Ok V ∧
    ∀ l, l ∈ led_list w' →
         next_on s V (deref (heap w') l) = Ok (get_on (deref (heap w') l)).
Proof.
  intros Hloop Hst (out' & Hloop' & _ & -> & ->)%solve_Ok.
  rewrite Hloop in Hloop'. injection Hloop' as <-.
  pose proof (loop_frame _ _ _ _ _ _ _ _ Hloop) as [Hcs Hf].
  pose proof (led_list_frame _ _ Hf Hcs) as Hleds.
  destruct (loop_stable _ _ _ _ _ _ _ _ Hloop Hst) as (V & x & Hcur & Hstep);
    [by left|].
  apply step_Ok in Hstep as (A & z & ni & hp & Hb & Hx & HV & Hu & Hw).
  exists V, A, z, ni, x. rewrite Hcur. split_and!; [done..|].
  intros l Hl. rewrite Hleds in Hl.
  apply update_leds_spec in Hu as (_ & Hin & _ & _).
  assert (Hhp : heap (lo_world out) = hp) by (by rewrite Hw).
  rewrite (Hin l Hl). by rewrite Hhp.
Qed.

End SolveLoopMore.

(** ** Solver.solve: the results *)

Section SolveResultsMore.
Context {B : Backend}.

(** What one turn of the final loop of solve does to [currents]. *)
Lemma record_current_step s w cur currents l currents' :
  record_current s w cur currents l = Ok currents' →
  let c := deref (heap w) l in
  ∃ V x va vb,
    cur = Some (V, x) ∧
    potential_at s V (c_a c) = Ok va ∧
    potential_at s V (c_b c) = Ok vb ∧
    match c_kind c with
    | Wire => currents' = currents
    | Resistor resistance =>
        currents' = <[c_name c := ndiv (nsub va vb) resistance]> currents
    | LED r_on _ on =>
        let R := effective_resistance r_on on in
        currents' = <[c_name c := if nlt R r_cut then ndiv (nsub va vb) R
                                  else nzero]> currents
    | VoltageSource _ => ∃ i, currents' = <[c_name c := i]> currents
    end.
Proof.
  intros Hrec c. unfold record_current in Hrec. fold c in Hrec.
  apply bind_Ok in Hrec as (ca & Hca & Hrec).
  apply bind_Ok in Hrec as ([V x] & Hcur & Hrec).
  apply bind_Ok in Hrec as (va & Hva & Hrec).
  apply bind_Ok in Hrec as (cb & Hcb & Hrec).
  apply bind_Ok in Hrec as (vb & Hvb & Hrec).
  apply from_option_Ok in Hcur.
  exists V, x, va, vb. unfold potential_at. rewrite Hca, Hcb.
  cbn [mbind result_bind]. split_and!; [done..|].
  destruct (c_kind c) as [|r|v|r t on].
  - by injection Hrec as <-.
  - apply bind_Ok in Hrec as (i & Hi & [= <-]).
    unfold mixed_div, py_div in Hi.
    destruct (bool_decide _); [destruct (is_zero r); [done|]|];
      by injection Hi as <-.
  - apply bind_Ok in Hrec as (idx & _ & Hrec).
    apply bind_Ok in Hrec as (i & _ & [= <-]). by exists i.
  - apply bind_Ok in Hrec as (i & Hi & [= <-]). simpl.
    destruct (nlt (effective_resistance r on) r_cut); [|by injection Hi as <-].
    unfold mixed_div, py_div in Hi.
    destruct (bool_decide _); [destruct (is_zero _); [done|]|];
      by injection Hi as <-.
Qed.

Lemma record_currents_keys s w cur l :
  ∀ c0 c1, for_each (record_current s w cur) l c0 = Ok c1 →
  ∀ nm, is_Some (c1 !! nm) ↔
        is_Some (c0 !! nm) ∨
        ∃ x, x ∈ l ∧ is_Wire (deref (heap w) x) = false ∧
             c_name (deref (heap w) x) = nm.
Proof.
  induction l as [|x l IH]; intros c0 c1 Hrun nm.
  - injection Hrun as <-. split; [by left|].
    intros [?|(y & Hy & _)]; [done|by apply elem_of_nil in Hy].
  - rewrite for_each_cons in Hrun. apply bind_Ok in Hrun as (c & Hx & Hrun).
    rewrite (IH _ _ Hrun nm).
    apply record_current_step in Hx as (V & v & va & vb & _ & _ & _ & Hx).
    simpl in Hx. unfold is_Wire.
    assert (Hc : (c_kind (deref (heap w) x) = Wire ∧ c = c0) ∨
                 (c_kind (deref (heap w) x) ≠ Wire ∧
                  ∃ i, c = <[c_name (deref (heap w) x) := i]> c0)).
    { destruct (c_kind (deref (heap w) x)); [by left|right..];
        (split; [done|]); [by eexists|done|by eexists]. }
    split.
    + intros [Hnm|(y & Hy & Hw & Hn)].
      * destruct Hc as [[_ ->]|[Hk [i ->]]]; [by left|].
        destruct (decide (c_name (deref (heap w) x) = nm)) as [Heq|Hne].
        -- right. exists x. split_and!; [by left| |done].
           by destruct (c_kind (deref (heap w) x)).
        -- rewrite lookup_insert_ne in Hnm by done. by left.
      * right. exists y. split_and!; [by right|done..].
    + intros [Hnm|(y & [->|Hy]%elem_of_cons & Hw & Hn)].
      * left. destruct Hc as [[_ ->]|[Hk [i ->]]]; [done|].
        destruct (decide (c_name (deref (heap w) x) = nm)) as [Heq|Hne].
        -- rewrite Heq, lookup_insert_eq. by eexists.
        -- by rewrite lookup_insert_ne.
      * left. destruct Hc as [[Hk _]|[Hk [i ->]]]; [by rewrite Hk in Hw|].
        rewrite Hn, lookup_insert_eq. by eexists.
      * right. by exists y.
Qed.

(** X12. The dict of currents that solve returns has one key for each
    name borne by a component that is no wire, and no other key: a wire
    never has an entry, and components that share a name share one
    entry. *)
Theorem solve_currents_keys s max_iter w voltages currents w' :
  solve s max_iter w = Ok (voltages, currents, w') →
  ∀ nm, is_Some (currents !! nm) ↔
        ∃ l, l ∈ components w ∧ is_Wire (deref (heap w) l) = false ∧
             c_name (deref (heap w) l) = nm.
Proof.
  intros (out & Hloop & Hrun & _ & ->)%solve_Ok nm.
  apply loop_frame in Hloop as [Hcs Hf].
  rewrite (record_currents_keys _ _ _ _ _ _ Hrun nm), Hcs.
  assert (Hsame : ∀ l, is_Wire (deref (heap (lo_world out)) l)
                       = is_Wire (deref (heap w) l) ∧
                       c_name (deref (heap (lo_world out)) l)
                       = c_name (deref (heap w) l)).
  { intros l. pose proof (frame_eq_deref _ _ l Hf) as He.
    apply erase_fields in He. tauto. }
  split.
  - intros [[v Hv]|(l & Hl & Hw & Hn)]; [by rewrite lookup_empty in Hv|].
    exists l. destruct (Hsame l) as [<- <-]. done.
  - intros (l & Hl & Hw & Hn). right. exists l.
    destruct (Hsame l) as [-> ->]. done.
Qed.

End SolveResultsMore.

Section SolveCurrentsMore.
Context {B : Backend}.

(** The entry of a name is that written for the last component, other
    than a wire, that bears it. *)
Lemma record_currents_last s w cur pre l post currents :
  for_each (record_current s w cur) (pre ++ l :: post) ∅ = Ok currents →
  (∀ l', l' ∈ post →
         is_Wire (deref (heap w) l') ∨
         c_name (deref (heap w) l') ≠ c_name (deref (heap w) l)) →
  ∃ c1 c2, record_current s w cur c1 l = Ok c2 ∧
           currents !! c_name (deref (heap w) l)
           = c2 !! c_name (deref (heap w) l).
Proof.
  intros Hrun Hpost. rewrite for_each_app in Hrun.
  apply bind_Ok in Hrun as (c1 & _ & Hrun). rewrite for_each_cons in Hrun.
  apply bind_Ok in Hrun as (c2 & Hl & Hrun).
  exists c1, c2. split; [done|].
  eapply (for_each_inv (λ c, c !! c_name (deref (heap w) l)
                             = c2 !! c_name (deref (heap w) l)));
    [|..|exact Hrun]; [done|].
  intros c l' c' Hl' Hc Hr.
  rewrite (record_current_other _ _ _ _ _ _ _ Hr); [done|]. by apply Hpost.
Qed.

(** The names and kinds that the final loop sees are those at the call. *)
Lemma solve_post_names s n w out l (post : list loc) :
  loop s (led_list w) n w None None 0 = Ok out →
  (∀ l', l' ∈ post →
         is_Wire (deref (heap w) l') ∨
         c_name (deref (heap w) l') ≠ c_name (deref (heap w) l)) →
  ∀ l', l' ∈ post →
        is_Wire (deref (heap (lo_world out)) l') ∨
        c_name (deref (heap (lo_world out)) l')
        ≠ c_name (deref (heap (lo_world out)) l).
Proof.
  intros [_ Hf]%loop_frame Hpost l' Hl'.
  pose proof (frame_eq_deref _ _ l Hf) as (_ & _ & Hn & _)%erase_fields.
  pose proof (frame_eq_deref _ _ l' Hf) as (_ & _ & Hn' & Hw' & _)%erase_fields.
  rewrite Hn, Hn', Hw'. by apply Hpost.
Qed.

(** X13. The current that solve reports for a resistor (under its name,
    when no later component other than a wire bears that name) is
    [(va - vb) / resistance], with [va] and [vb] the returned potentials
    of its endpoints [a] and [b]. *)
Theorem solve_resistor_current s max_iter w voltages currents w'
    pre l post resistance :
  solve s max_iter w = Ok (voltages, currents, w') →
  components w = pre ++ l :: post →
  c_kind (deref (heap w) l) = Resistor resistance →
  (∀ l', l' ∈ post →
         is_Wire (deref (heap w) l') ∨
         c_name (deref (heap w) l') ≠ c_name (deref (heap w) l)) →
  ∃ V va vb,
    voltages = Some V ∧
    potential_at s V (c_a (deref (heap w) l)) = Ok va ∧
    potential_at s V (c_b (deref (heap w) l)) = Ok vb ∧
    currents !! c_name (deref (heap w) l)
    = Some (ndiv (nsub va vb) resistance).
Proof.
  intros (out & Hloop & Hrun & -> & ->)%solve_Ok Hcs Hk Hpost.
  pose proof (solve_post_names _ _ _ _ _ _ Hloop Hpost) as Hpost'.
  pose proof (loop_frame _ _ _ _ _ _ _ _ Hloop) as [Hcs' Hf].
  assert (Heq : deref (heap (lo_world out)) l = deref (heap w) l).
  { symmetry. apply erase_not_LED; [symmetry; by apply frame_eq_deref|].
    unfold is_LED. by rewrite Hk. }
  rewrite Hcs', Hcs in Hrun.
  destruct (record_currents_last _ _ _ _ _ _ _ Hrun Hpost')
    as (c1 & c2 & Hl & Hlast).
  apply record_current_step in Hl as (V & x & va & vb & Hcur & Hva & Hvb & Hc2).
  simpl in Hc2. rewrite Heq in *. rewrite Hk in Hc2. subst c2.
  rewrite lookup_insert_eq in Hlast.
  exists V, va, vb. by rewrite Hcur.
Qed.

(** X14. The current that solve reports for an LED (under its name, when
    no later component other than a wire bears that name) is computed
    from the returned potentials [va], [vb] of its endpoints and from the
    state [on = (va - vb >= threshold)] that the last pass gave the LED,
    which need not be the state these potentials were computed with: it
    is [(va - vb) / R] when the effective resistance [R] of that state is
    below the cut-off of 1e8, and 0 otherwise. *)
Theorem solve_led_current s max_iter w voltages currents w'
    pre l post r_on threshold on0 :
  solve s max_iter w = Ok (voltages, currents, w') →
  components w = pre ++ l :: post →
  c_kind (deref (heap w) l) = LED r_on threshold on0 →
  (∀ l', l' ∈ post →
         is_Wire (deref (heap w) l') ∨
         c_name (deref (heap w) l') ≠ c_name (deref (heap w) l)) →
  ∃ V va vb,
    voltages = Some V ∧
    potential_at s V (c_a (deref (heap w) l)) = Ok va ∧
    potential_at s V (c_b (deref (heap w) l)) = Ok vb ∧
    let on := nge (nsub va vb) threshold in
    let R := effective_resistance r_on on in
    c_kind (deref (heap w') l) = LED r_on threshold on ∧
    currents !! c_name (deref (heap w) l)
    = Some (if nlt R r_cut then ndiv (nsub va vb) R else nzero).
Proof.
  intros Hsolve Hcs Hk Hpost.
  pose proof Hsolve as (out & Hloop & Hrun & -> & ->)%solve_Ok.
  pose proof (solve_post_names _ _ _ _ _ _ Hloop Hpost) as Hpost'.
  pose proof (loop_frame _ _ _ _ _ _ _ _ Hloop) as [Hcs' Hf].
  pose proof (frame_eq_deref _ _ l Hf) as He.
  pose proof (erase_fields _ _ He) as (Ha & Hb & Hn & _).
  pose proof (erase_LED_kind _ _ _ _ _ He Hk) as Hk'.
  rewrite Hcs', Hcs in Hrun.
  destruct (record_currents_last _ _ _ _ _ _ _ Hrun Hpost')
    as (c1 & c2 & Hl & Hlast).
  apply record_current_step in Hl as (V & x & va & vb & Hcur & Hva & Hvb & Hc2).
  simpl in Hc2. rewrite Hk' in Hc2. subst c2.
  rewrite lookup_insert_eq in Hlast.
  assert (Hon : get_on (deref (heap (lo_world out)) l)
                = nge (nsub va vb) threshold).
  { assert (Hled : l ∈ led_list (lo_world out)).
    { apply elem_of_led_list. split.
      - rewrite Hcs', Hcs. apply elem_of_app. right. by left.
      - unfold is_LED. by rewrite Hk'. }
    assert (Hnext : next_on s V (deref (heap (lo_world out)) l)
                    = Ok (get_on (deref (heap (lo_world out)) l))).
    { rewrite Hcur in Hsolve. simpl in Hsolve.
      apply loop_spec in Hloop as (k & _ & _ & _ & Hlast').
      destruct k as [|k].
      - destruct Hlast' as [Hc _]. by rewrite Hc in Hcur.
      - destruct Hlast' as (w1 & V' & x' & st & Hw1 & Hs & Hc).
        rewrite Hc in Hcur. injection Hcur as -> ->.
        rewrite (led_list_frame _ _ Hf Hcs') in Hled.
        apply step_Ok in Hs as (A & z & ni & hp & _ & _ & _ & Hu & Hw).
        assert (Hhp : heap (lo_world out) = hp) by (by rewrite Hw).
        apply update_leds_spec in Hu as (Hf1 & Hin & _ & _).
        rewrite Hhp. rewrite <- (Hin l Hled).
        apply next_on_erase. by apply frame_eq_deref. }
    unfold next_on in Hnext. rewrite Hva, Hvb, Hk' in Hnext.
    cbn [mbind result_bind] in Hnext. by injection Hnext as <-. }
  rewrite Hon in Hk', Hlast. rewrite Ha in Hva. rewrite Hb in Hvb.
  rewrite Hn in Hlast.
  exists V, va, vb. rewrite Hcur. by split_and!.
Qed.

End SolveCurrentsMore.

Section SolveVoltagesMore.
Context {B : Backend}.

Lemma potentials_keys s x V :
  ground_idx s < num_nodes s →
  potentials s (index_nodes (num_nodes s) (ground_idx s)) x = Ok V →
  ∀ c, is_Some (V !! c) ↔ c < num_nodes s.
Proof.
  intros Hg HV c. split; [|by eapply potentials_total].
  intros Hc. unfold potentials in HV.
  destruct (decide (c ∈ (map_to_list
              (index_nodes (num_nodes s) (ground_idx s))).*1)) as [Hin|Hout].
  - apply list_elem_of_fmap in Hin as ([c' idx] & -> & Hin).
    apply elem_of_map_to_list in Hin. simpl.
    by apply index_nodes_lt in Hin as (? & _).
  - apply (for_each_fill (λ idx, getitem IndexError x idx)) in HV
      as [_ Hrest]; [|apply NoDup_fst_map_to_list].
    rewrite (Hrest c Hout) in Hc. destruct Hc as [v Hv].
    apply lookup_singleton_Some in Hv as [<- _]. done.
Qed.

(** X15. The voltages that solve returns, for a solver made for the
    circuit: the dict has one key for each class, from 0 to [K - 1], and
    no other key; every node of the circuit has a potential; and two
    nodes of the circuit that a chain of wires joins have the same
    potential. *)
Theorem solve_voltages_keys w ground s max_iter V currents w' :
  Solver_init w ground = Ok s →
  solve s max_iter w = Ok (Some V, currents, w') →
  (∀ c, is_Some (V !! c) ↔ c < num_nodes s) ∧
  (∀ n, n ∈ Circuit_nodes w ↔ ∃ v, potential_at s V n = Ok v) ∧
  (∀ x y, x ∈ Circuit_nodes w → y ∈ Circuit_nodes w →
          conn (wire_edges (heap w) (components w)) x y →
          potential_at s V x = potential_at s V y).
Proof.
  intros Hs Hsolve.
  destruct (numbers_spec _ _ _ (Solver_init_numbers _ _ _ Hs))
    as (Hdom & Hlt & _ & Hconn & Hg).
  apply solve_last_pass in Hsolve
    as (out & w1 & A & z & x & st & _ & _ & _ & _ & _ & _ & _ & HV & _).
  pose proof (potentials_keys s x V (Hlt _ _ Hg) HV) as Hkeys.
  split_and!; [done| |].
  - intros n. rewrite <- Hdom. unfold potential_at, getitem. split.
    + intros [c Hc]. rewrite Hc. cbn [mbind result_bind].
      destruct (proj2 (Hkeys c) (Hlt _ _ Hc)) as [v Hv]. exists v.
      by rewrite Hv.
    + intros [v Hv]. destruct (node_map s !! n); [by eexists|done].
  - intros a b [ca Ha]%Hdom [cb Hb]%Hdom Hab.
    apply (Hconn a b ca cb Ha Hb) in Hab as <-.
    unfold potential_at, getitem. by rewrite Ha, Hb.
Qed.

End SolveVoltagesMore.

(** ** GridCircuit *)

Section GridMore.
Context {B : Backend}.

(** Every component of the grid has both endpoints on the grid. *)
Definition grid_in_bounds (hp : list Component) (g : GridCircuit) : Prop :=
  ∀ l, l ∈ grid_components g →
       in_bounds g (c_a (deref hp l)) = true ∧
       in_bounds g (c_b (deref hp l)) = true.

(** X16. GridCircuit.add raises ValueError, and adds nothing, when an
    endpoint of the component lies outside the grid; otherwise the
    component goes to the end of the list and the size of the grid is
    kept.  So a grid that is filled through add, and emptied through
    clear, only ever holds components with both endpoints on the grid. *)
Theorem GridCircuit_add_in_bounds hp g l :
  let inside := in_bounds g (c_a (deref hp l))
                && in_bounds g (c_b (deref hp l)) in
  (inside = false → GridCircuit_add hp g l = Raise ValueError) ∧
  (inside = true →
   GridCircuit_add hp g l
   = Ok (mkGrid (width g) (height g) (grid_components g ++ [l]))) ∧
  (∀ g', grid_in_bounds hp g → GridCircuit_add hp g l = Ok g' →
         grid_in_bounds hp g') ∧
  grid_in_bounds hp (GridCircuit_clear g).
Proof.
  intros inside. unfold GridCircuit_add. fold inside. split_and!.
  - by intros ->.
  - by intros ->.
  - intros g' Hg Hadd. destruct inside eqn:Hin; [|done].
    injection Hadd as <-. intros l' [Hl'|Hl']%elem_of_app.
    + by apply Hg.
    + apply list_elem_of_singleton in Hl' as ->.
      by apply andb_true_iff in Hin.
  - intros l' Hl'. by apply elem_of_nil in Hl'.
Qed.

End GridMore.

Section GridSolveMore.
Context {B : Backend}.

Lemma cell_voltages_keys (voltages : option (gmap nat num))
    (node_map : gmap Node nat) (cell : gmap Node num) :
  cell_voltages voltages node_map = Ok cell →
  ∀ pos, is_Some (cell !! pos) ↔ is_Some (node_map !! pos).
Proof.
  intros Hc pos. split.
  - intros Hpos. unfold cell_voltages in Hc.
    destruct (decide (pos ∈ (map_to_list node_map).*1)) as [Hin|Hout].
    + apply list_elem_of_fmap in Hin as ([p idx] & -> & Hin).
      apply elem_of_map_to_list in Hin. by eexists.
    + apply (for_each_fill
               (λ idx, V ← from_option Ok (Raise TypeError) voltages;
                       getitem KeyError V idx)) in Hc as [_ Hrest];
        [|apply NoDup_fst_map_to_list].
      rewrite (Hrest pos Hout), lookup_empty in Hpos. by destruct Hpos.
  - intros [idx Hidx].
    destruct (cell_voltages_spec _ _ _ Hc pos idx Hidx) as (V & v & _ & _ & Hv).
    by eexists.
Qed.

(** X17. GridCircuit.solve with a ground node that is an endpoint of a
    component: it makes a Solver for the components of the grid and calls
    its solve with the default cap of 10 passes; the currents and the LED
    states are those of that call; the cell voltages have one entry for
    each node of the circuit and no other, the entry of a cell being the
    potential of its class; when the components lie on the grid, so does
    every cell that has a voltage. *)
Theorem grid_solve_cells hp g ground cell currents s hp' :
  GridCircuit_solve hp g ground = Ok (cell, currents, Some s, hp') →
  let w := mkWorld hp (grid_components g) in
  ground ∈ Circuit_nodes w ∧
  Solver_init w ground = Ok s ∧
  ∃ V w',
    solve s 10 w = Ok (Some V, currents, w') ∧
    hp' = heap w' ∧
    (∀ pos, is_Some (cell !! pos) ↔ pos ∈ Circuit_nodes w) ∧
    (∀ pos v, cell !! pos = Some v ↔ potential_at s V pos = Ok v) ∧
    (grid_in_bounds hp g →
     ∀ pos, is_Some (cell !! pos) → in_bounds g pos = true).
Proof.
  intros Hsolve w. unfold GridCircuit_solve in Hsolve.
  rewrite to_circuit_eq in Hsolve. fold w in Hsolve.
  destruct (decide (ground ∉ Circuit_nodes w)) as [|Hg]; [done|].
  apply dec_stable in Hg.
  apply bind_Ok in Hsolve as (s0 & Hs & Hsolve).
  apply bind_Ok in Hsolve as ([[voltages cur] w'] & Hrun & Hsolve).
  apply bind_Ok in Hsolve as (cell0 & Hcell & [= <- <- <- <-]).
  destruct (numbers_spec _ _ _ (Solver_init_numbers _ _ _ Hs))
    as (Hdom & _ & _ & _ & Hgi).
  pose proof (cell_voltages_keys _ _ _ Hcell) as Hkeys.
  destruct (cell_voltages_spec _ _ _ Hcell _ _ Hgi) as (V & v0 & -> & _ & _).
  assert (Hnodes : ∀ pos, is_Some (cell0 !! pos) ↔ pos ∈ Circuit_nodes w).
  { intros pos. by rewrite Hkeys, Hdom. }
  split_and!; [done..|]. exists V, w'. split_and!; [done..| |].
  - intros pos v. unfold potential_at, getitem. split.
    + intros Hv. destruct (proj1 (Hkeys pos)) as [idx Hidx]; [by eexists|].
      destruct (cell_voltages_spec _ _ _ Hcell _ _ Hidx)
        as (V' & v' & [= <-] & HV & Hv').
      rewrite Hidx. cbn [mbind result_bind]. rewrite HV. congruence.
    + destruct (node_map s0 !! pos) as [idx|] eqn:Hidx; [|done].
      cbn [mbind result_bind].
      destruct (cell_voltages_spec _ _ _ Hcell _ _ Hidx)
        as (V' & v' & [= <-] & HV & Hv').
      rewrite HV. by intros [= <-].
  - intros Hin pos Hpos. apply Hnodes, elem_of_Circuit_nodes in Hpos
      as (l & Hl & Hpos). simpl in Hl, Hpos.
    destruct (Hin l Hl) as [Ha Hb]. by destruct Hpos as [-> | ->].
Qed.

End GridSolveMore.

(** ** InteractiveGrid (interactive_grid.py): the erase tool *)

Section EraseTool.
Context {B : Backend}.

(** [{c.a, c.b} == {a, b}] *)
Definition joins (c : Component) (a b : Node) : Prop :=
  ({[c_a c; c_b c]} : gset Node) = {[a; b]}.

#[global] Instance joins_dec c a b : Decision (joins c a b).
Proof. unfold joins. apply _. Defined.

(** The comprehension of on_click for the tool 'erase':
    [[c for c in self.grid.components if not ({c.a, c.b} == {a, b})]]. *)
Definition erase_between (hp : list Component) (a b : Node)
    (comps : list loc) : list loc :=
  filter (λ l, ¬ joins (deref hp l) a b) comps.

Lemma joins_endpoints c a b :
  joins c a b ↔ (c_a c = a ∧ c_b c = b) ∨ (c_a c = b ∧ c_b c = a).
Proof.
  unfold joins. split.
  - intros Heq.
    assert (H1 : c_a c = a ∨ c_a c = b).
    { assert (H : c_a c ∈ ({[a; b]} : gset Node)).
      { rewrite <- Heq. apply elem_of_union_l. by apply elem_of_singleton. }
      by rewrite elem_of_union, !elem_of_singleton in H. }
    assert (H2 : c_b c = a ∨ c_b c = b).
    { assert (H : c_b c ∈ ({[a; b]} : gset Node)).
      { rewrite <- Heq. apply elem_of_union_r. by apply elem_of_singleton. }
      by rewrite elem_of_union, !elem_of_singleton in H. }
    assert (H3 : a = c_a c ∨ a = c_b c).
    { assert (H : a ∈ ({[c_a c; c_b c]} : gset Node)).
      { rewrite Heq. apply elem_of_union_l. by apply elem_of_singleton. }
      by rewrite elem_of_union, !elem_of_singleton in H. }
    assert (H4 : b = c_a c ∨ b = c_b c).
    { assert (H : b ∈ ({[c_a c; c_b c]} : gset Node)).
      { rewrite Heq. apply elem_of_union_r. by apply elem_of_singleton. }
      by rewrite elem_of_union, !elem_of_singleton in H. }
    intuition congruence.
  - intros [[-> ->]|[-> ->]]; [done|]. apply (comm_L (∪)).
Qed.

(** X18. The erase tool of the interactive grid, given the two clicked
    cells [a] and [b], removes exactly the components that join [a] and
    [b], in either direction, and keeps the others in their order; the
    order of the two clicks does not matter, erasing twice is erasing
    once, and what is left lies on the grid if the components did. *)
Theorem erase_between_spec hp a b comps :
  (∀ l, l ∈ erase_between hp a b comps ↔
        l ∈ comps ∧
        ¬ ((c_a (deref hp l) = a ∧ c_b (deref hp l) = b) ∨
           (c_a (deref hp l) = b ∧ c_b (deref hp l) = a))) ∧
  erase_between hp a b comps `sublist_of` comps ∧
  erase_between hp b a comps = erase_between hp a b comps ∧
  erase_between hp a b (erase_between hp a b comps)
  = erase_between hp a b comps ∧
  (∀ width height,
     grid_in_bounds hp (mkGrid width height comps) →
     grid_in_bounds hp (mkGrid width height (erase_between hp a b comps))).
Proof.
  unfold erase_between. split_and!.
  - intros l. by rewrite list_elem_of_filter, joins_endpoints, (comm and).
  - apply sublist_filter.
  - apply list_filter_iff. intros l. rewrite !joins_endpoints. tauto.
  - rewrite list_filter_filter. apply list_filter_iff. tauto.
  - intros wd ht Hin l [_ Hl]%list_elem_of_filter. by apply Hin.
Qed.

End EraseTool.

(** ** build_matrix: the rows of the voltage sources *)

Section SourceRows.
Context {B : Backend}.
Variable s : Solver.
Hypothesis Hground : ground_idx s < num_nodes s.
Let N := num_nodes s - 1.
Let ni := index_nodes (num_nodes s) (ground_idx s).

Lemma mat_update_other_rows f i j A A1 r c :
  mat_update f i j A = Ok A1 → r ≠ i → entry A1 r c = entry A r c.
Proof.
  intros (v & _ & HA1)%mat_update_entry Hr. rewrite HA1.
  destruct (decide (r = i ∧ c = j)) as [[? _]|]; done.
Qed.

Lemma add_conductance_high_rows i j g A A' r c :
  add_conductance s ni i j g A = Ok A' → N ≤ r → entry A' r c = entry A r c.
Proof using Hground.
  intros Hadd Hr. unfold add_conductance in Hadd.
  assert (Hlt : ∀ k kk, getitem KeyError ni k = Ok kk → r ≠ kk).
  { intros k kk Hk%getitem_Ok. apply index_nodes_lt in Hk; [|done].
    unfold N in Hr. lia. }
  apply bind_Ok in Hadd as (A1 & H1 & Hadd).
  apply bind_Ok in Hadd as (A2 & H2 & Hadd).
  assert (E1 : entry A1 r c = entry A r c).
  { destruct (decide (i ≠ ground_idx s)); [|by injection H1 as <-].
    apply bind_Ok in H1 as (ii & Hii & H1).
    eapply mat_update_other_rows; [done|by eapply Hlt]. }
  assert (E2 : entry A2 r c = entry A1 r c).
  { destruct (decide (j ≠ ground_idx s)); [|by injection H2 as <-].
    apply bind_Ok in H2 as (jj & Hjj & H2).
    eapply mat_update_other_rows; [done|by eapply Hlt]. }
  rewrite <- E1, <- E2.
  destruct (decide (i ≠ ground_idx s ∧ j ≠ ground_idx s));
    [|by injection Hadd as <-].
  apply bind_Ok in Hadd as (ii & Hii & Hadd).
  apply bind_Ok in Hadd as (jj & Hjj & Hadd).
  apply bind_Ok in Hadd as (A3 & H3 & H4).
  rewrite (mat_update_other_rows _ _ _ _ _ r c H4) by (by eapply Hlt).
  apply (mat_update_other_rows _ _ _ _ _ r c H3). by eapply Hlt.
Qed.

Lemma stamp_component_high_rows hp A l A' r c :
  stamp_component s ni hp A l = Ok A' → N ≤ r → entry A' r c = entry A r c.
Proof using Hground.
  intros Hst Hr. unfold stamp_component in Hst.
  apply bind_Ok in Hst as (a & _ & Hst). apply bind_Ok in Hst as (b & _ & Hst).
  destruct (c_kind (deref hp l)) as [|res|v|res t on].
  - by injection Hst as <-.
  - apply bind_Ok in Hst as (g & _ & Hst).
    by eapply add_conductance_high_rows.
  - by injection Hst as <-.
  - apply bind_Ok in Hst as (g & _ & Hst).
    by eapply add_conductance_high_rows.
Qed.

(** One endpoint of a voltage source: the coefficient [v] is written in
    the row of the source, at the column of the class, and in the column
    of the source, at the row of the class. *)
Lemma stamp_side_entries (v : num) (row cls : nat) A A1 :
  (if decide (cls ≠ ground_idx s) then
     ic ← getitem KeyError ni cls;
     A' ← mat_update (λ _, v) row ic A;
     ic' ← getitem KeyError ni cls;
     mat_update (λ _, v) ic' row A'
   else Ok A) = Ok A1 →
  ∀ k m, entry A1 k m
         = if decide ((k = row ∧ ni !! cls = Some m) ∨
                      (m = row ∧ ni !! cls = Some k))
           then Some v else entry A k m.
Proof using Hground.
  intros Hside k m. destruct (decide (cls ≠ ground_idx s)) as [Hne|Heq].
  - apply bind_Ok in Hside as (ic & Hic & Hside).
    apply bind_Ok in Hside as (A' & H1 & Hside).
    apply bind_Ok in Hside as (ic' & Hic' & H2).
    rewrite Hic in Hic'. injection Hic' as <-. apply getitem_Ok in Hic.
    apply mat_update_entry in H1 as (v1 & _ & H1).
    apply mat_update_entry in H2 as (v2 & _ & H2).
    rewrite H2, H1, Hic.
    destruct (decide (k = ic ∧ m = row)) as [[-> ->]|H3].
    + rewrite decide_True; [done|]. by right.
    + destruct (decide (k = row ∧ m = ic)) as [[-> ->]|H4].
      * rewrite decide_True; [done|]. by left.
      * rewrite decide_False; [done|].
        intros [[-> [= ->]]|[-> [= ->]]]; tauto.
  - apply dec_stable in Heq. subst cls. injection Hside as <-.
    unfold ni. rewrite index_nodes_ground.
    rewrite decide_False; [done|]. intros [[_ ?]|[_ ?]]; done.
Qed.

(** The coefficient that the source [l] leaves at column [j] of its row. *)
Definition source_coeff (hp : list Component) (l : loc) (j : nat) : num :=
  match node_map s !! c_a (deref hp l), node_map s !! c_b (deref hp l) with
  | Some a, Some b =>
      if decide (ni !! b = Some j) then nmone
      else if decide (ni !! a = Some j) then none
      else nzero
  | _, _ => nzero
  end.

Lemma stamp_source_rows hp A z k l A' z' r j :
  stamp_source s ni hp N (A, z) (k, l) = Ok (A', z') →
  N ≤ r → entry A r j = Some nzero ∨ r ≠ N + k →
  entry A' r j = if decide (r = N + k) then Some (source_coeff hp l j)
                 else entry A r j.
Proof using Hground.
  intros Hst Hr Hold. unfold stamp_source in Hst.
  apply bind_Ok in Hst as (a & Ha%getitem_Ok & Hst).
  apply bind_Ok in Hst as (b & Hb%getitem_Ok & Hst).
  apply bind_Ok in Hst as (A1 & H1 & Hst).
  apply bind_Ok in Hst as (A2 & H2 & Hst).
  assert (A' = A2) as ->.
  { destruct (c_kind (deref hp l)); try done.
    by apply bind_Ok in Hst as (z1 & _ & [= <- <-]). }
  pose proof (stamp_side_entries _ _ _ _ _ H1 r j) as E1.
  pose proof (stamp_side_entries _ _ _ _ _ H2 r j) as E2.
  assert (Hhigh : ∀ cls, ni !! cls ≠ Some r).
  { intros cls Hc. apply index_nodes_lt in Hc; [|done]. unfold N in Hr. lia. }
  rewrite E2, E1. unfold source_coeff. rewrite Ha, Hb.
  destruct (decide (r = N + k)) as [->|Hne].
  - destruct Hold as [Hold|?]; [|done]. rewrite Hold.
    destruct (decide (ni !! b = Some j)) as [Hbj|Hbj].
    + rewrite decide_True; [done|]. by left.
    + rewrite decide_False by (intros [[_ ?]|[_ ?]]; [done|by eapply Hhigh]).
      destruct (decide (ni !! a = Some j)) as [Haj|Haj].
      * rewrite decide_True; [done|]. by left.
      * rewrite decide_False; [done|].
        intros [[_ ?]|[_ ?]]; [done|by eapply Hhigh].
  - rewrite !decide_False; [done|..];
      intros [[? _]|[_ ?]]; [done|by eapply Hhigh|done|by eapply Hhigh].
Qed.

End SourceRows.

Section SourceRowsMain.
Context {B : Backend}.

(** X19. The row that build_matrix writes for a voltage source.  For the
    [k]-th voltage source of the component list, with endpoints in the
    classes [a] and [b], row [N + k] of the matrix holds -1 in the column
    of [b], 1 in the column of [a] (unless that is the column of [b]:
    the -1 is written last), and 0 in every other column; a class that is
    the ground class has no column.  With [z[N + k]], the voltage of the
    source, the row reads V(a) - V(b) = voltage. *)
Theorem build_matrix_source_row s w A z node_index k l :
  solver_wf s w →
  build_matrix s w = Ok (A, z, node_index) →
  voltage_sources w !! k = Some l →
  ∃ a b,
    node_map s !! c_a (deref (heap w) l) = Some a ∧
    node_map s !! c_b (deref (heap w) l) = Some b ∧
    ∀ j, j < num_nodes s - 1 + length (voltage_sources w) →
         entry A (num_nodes s - 1 + k) j
         = Some (if decide (node_index !! b = Some j) then nmone
                 else if decide (node_index !! a = Some j) then none
                 else nzero).
Proof.
  intros Hwf Hb Hk. pose proof Hwf as (Hg & _ & _ & Hdom).
  pose proof (build_matrix_z _ _ _ _ _ Hb) as (-> & _ & _).
  set (N := num_nodes s - 1). set (vss := voltage_sources w) in *.
  set (n := N + length vss). set (ni := index_nodes _ _).
  assert (Hl : l ∈ components w).
  { apply list_elem_of_lookup_2, elem_of_voltage_sources in Hk. tauto. }
  destruct (Hdom l Hl) as [[a Ha] [b Hb']]. exists a, b.
  split_and!; [done..|]. intros j Hj.
  unfold build_matrix in Hb. fold N vss n ni in Hb.
  apply bind_Ok in Hb as (A0 & Hcomp & Hb).
  apply bind_Ok in Hb as ([A1 z1] & Hsrc & [= <- <-]).
  assert (H0 : ∀ r c, N ≤ r → entry A0 r c = entry (zeros2 n) r c).
  { eapply (for_each_inv
              (λ M, ∀ r c, N ≤ r → entry M r c = entry (zeros2 n) r c));
      [|..|exact Hcomp]; [done|].
    intros M l' M' _ HM Hst r c Hr. rewrite <- (HM r c Hr).
    by eapply (stamp_component_high_rows s Hg). }
  set (P := λ (k' : nat) (Mz : list (list num) * list num),
              ∀ k0 l0 c, vss !! k0 = Some l0 → c < n →
                entry Mz.1 (N + k0) c
                = Some (if decide (k0 < k') then source_coeff s (heap w) l0 c
                        else nzero)).
  assert (Hrows : P (length vss) (A1, z1)).
  { apply (for_each_enumerate_inv P (stamp_source s ni (heap w) N) vss
             (A0, zeros n)); [| |exact Hsrc].
    - unfold P. intros k0 l0 c Hk0 Hc. cbn [fst]. rewrite H0 by lia. rewrite entry_zeros2.
      apply lookup_lt_Some in Hk0. rewrite decide_True by (unfold n; lia).
      by rewrite decide_False by lia.
    - unfold P. intros k' l' [M v] [M' v'] Hk' HM Hst k0 l0 c Hk0 Hc.
      cbn [fst] in *.
      rewrite (stamp_source_rows s Hg _ _ _ _ _ _ _ _ _ Hst); [|lia|].
      + destruct (decide (k0 = k')) as [->|Hne].
        * rewrite Hk' in Hk0. injection Hk0 as <-.
          rewrite decide_True by done. by rewrite decide_True by lia.
        * rewrite decide_False by (unfold N; lia).
          rewrite (HM k0 l0 c Hk0 Hc).
          destruct (decide (k0 < k')), (decide (k0 < S k')); try done; lia.
      + destruct (decide (k0 = k')) as [->|Hne]; [left|right; lia].
        rewrite (HM k' l0 c Hk0 Hc). by rewrite decide_False by lia. }
  unfold P in Hrows. cbn [fst] in Hrows. rewrite (Hrows k l j Hk Hj).
  rewrite decide_True by (by eapply lookup_lt_Some).
  unfold source_coeff. by rewrite Ha, Hb'.
Qed.

End SourceRowsMain.

(** ** A solver and a circuit that has changed since *)

Section StaleSolver.
Context {B : Backend}.

(** X20. The solver keeps the classes that compute_lumps found when it
    was made.  After Circuit.add of a component with an endpoint that was
    no node of the circuit then, solve on that solver raises: KeyError at
    the new component in build_matrix, unless the ZeroDivisionError of an
    earlier component of resistance zero comes first. *)
Theorem solve_after_add_raises w ground s c n :
  Solver_init w ground = Ok s →
  (∀ l, l ∈ components w → l < length (heap w)) →
  c_a c ∉ Circuit_nodes w ∨ c_b c ∉ Circuit_nodes w →
  (solve s (S n) (add_new c w) = Raise KeyError ∨
   solve s (S n) (add_new c w) = Raise ZeroDivisionError) ∧
  ((∀ l, l ∈ components w → zero_resistance (deref (heap w) l) = false) →
   solve s (S n) (add_new c w) = Raise KeyError).
Proof.
  intros Hs Hlocs Hnew.
  pose proof (Solver_init_wf _ _ _ Hs) as Hwf.
  destruct (numbers_spec _ _ _ (Solver_init_numbers _ _ _ Hs)) as (Hdom & _).
  set (w2 := add_new c w).
  assert (Hraise : ∀ e, build_matrix s w2 = Raise e →
                        solve s (S n) w2 = Raise e).
  { intros e He. unfold solve. rewrite loop_S. unfold step. by rewrite He. }
  set (ni := index_nodes (num_nodes s) (ground_idx s)).
  set (n2 := num_nodes s - 1 + length (voltage_sources w2)).
  assert (Hold : ∀ u l, l ∈ components w →
            stamp_component s ni (heap w2) u l
            = stamp_component s ni (heap w) u l).
  { intros u l Hl. unfold stamp_component, w2, add_new, new, deref. simpl.
    by rewrite lookup_total_app_l by (by apply Hlocs). }
  assert (Hlast : ∀ u, stamp_component s ni (heap w2) u (length (heap w))
                       = Raise KeyError).
  { intros u. unfold stamp_component, w2, add_new, new, deref. simpl.
    rewrite lookup_total_app_r, Nat.sub_diag by done. simpl. unfold getitem.
    destruct (node_map s !! c_a c) as [a|] eqn:Ha; [|done].
    cbn [mbind result_bind].
    destruct (node_map s !! c_b c) as [b|] eqn:Hb; [|done].
    destruct Hnew as [Hn|Hn]; destruct Hn; apply Hdom; by eexists. }
  assert (Hbuild : ∀ A0,
            for_each (stamp_component s ni (heap w2)) (components w) (zeros2 n2)
            = Ok A0 → build_matrix s w2 = Raise KeyError).
  { intros A0 HA0. unfold build_matrix. fold ni n2.
    replace (components w2) with (components w ++ [length (heap w)]) by done.
    rewrite for_each_app, HA0. cbn [mbind result_bind].
    by rewrite for_each_cons, Hlast. }
  assert (Hzde : ∀ e,
            for_each (stamp_component s ni (heap w2)) (components w) (zeros2 n2)
            = Raise e → build_matrix s w2 = Raise e).
  { intros e He. unfold build_matrix. fold ni n2.
    replace (components w2) with (components w ++ [length (heap w)]) by done.
    by rewrite for_each_app, He. }
  pose proof Hwf as (Hg & _).
  split.
  - destruct (for_each_either (square n2) ZeroDivisionError
                (stamp_component s ni (heap w2)) (components w) (zeros2 n2))
      as [(A0 & HA0 & _)|He]; [apply square_zeros2| |left|right].
    + intros u l Hl Hu. rewrite (Hold u l Hl).
      apply (stamp_component_square s n2 Hg); [unfold n2; lia|done..].
    + by eapply Hraise, Hbuild.
    + by apply Hraise, Hzde.
  - intros Hnz.
    destruct (for_each_total (square n2)
                (stamp_component s ni (heap w2)) (components w) (zeros2 n2))
      as (A0 & HA0 & _); [apply square_zeros2| |by eapply Hraise, Hbuild].
    intros u l Hl Hu. rewrite (Hold u l Hl).
    apply stamp_component_nonzero; [done|unfold n2; lia|done|done|by apply Hnz].
Qed.

End StaleSolver.

(** ** The further properties on concrete inputs *)

(** A parent map with the chain (0, 0) -> (1, 0) -> (2, 0). *)
Definition chain : gmap Node Node :=
  <[(0, 0)%Z := (1, 0)%Z]> (<[(1, 0)%Z := (2, 0)%Z]> ∅).

Definition chain_ht (x : Node) : nat :=
  if decide (x = (0, 0)%Z) then 0 else if decide (x = (1, 0)%Z) then 1 else 2.

Lemma chain_ranked : ranked (par chain) chain_ht 2.
Proof.
  split.
  - intros x Hx.
    destruct (decide (x = (0, 0)%Z)) as [->|H0]; [vm_compute; lia|].
    destruct (decide (x = (1, 0)%Z)) as [->|H1]; [vm_compute; lia|].
    destruct Hx. unfold par, chain.
    rewrite lookup_insert_ne by done. rewrite lookup_insert_ne by done.
    by rewrite lookup_empty.
  - intros x. unfold chain_ht. repeat case_decide; lia.
Qed.

Lemma find_returns_root_witness :
  ranked (par chain) chain_ht 2 ∧
  2 - chain_ht (0, 0)%Z < 3 ∧
  ∃ r p', find 3 chain (0, 0)%Z = Ok (r, p') ∧
    root (par chain) (0, 0)%Z r ∧
    p' !! (0, 0)%Z = Some r ∧
    (∀ y, par p' y = par chain y ∨
          (par chain y ≠ y ∧ root (par chain) y (par p' y))) ∧
    (∀ y r', root (par p') y r' ↔ root (par chain) y r').
Proof.
  split; [exact chain_ranked|]. split; [vm_compute; lia|].
  apply (find_returns_root 3 chain (0, 0)%Z chain_ht 2 chain_ranked).
  vm_compute; lia.
Defined.

Lemma union_merges_classes_witness :
  ranked (par chain) chain_ht 2 ∧
  2 < 3 ∧
  ∃ p', union 3 chain (0, 0)%Z (5, 5)%Z = Ok p' ∧
    (∃ ht', ranked (par p') ht' 3) ∧
    (∃ ra, root (par chain) (0, 0)%Z ra ∧ root (par p') (0, 0)%Z ra ∧
           root (par p') (5, 5)%Z ra) ∧
    ∀ x y, same (par p') x y ↔
           same (par chain) x y ∨
           (same (par chain) x (0, 0)%Z ∧ same (par chain) (5, 5)%Z y) ∨
           (same (par chain) x (5, 5)%Z ∧ same (par chain) (0, 0)%Z y).
Proof.
  split; [exact chain_ranked|]. split; [lia|].
  apply (union_merges_classes 3 chain (0, 0)%Z (5, 5)%Z chain_ht 2 chain_ranked).
  lia.
Defined.

(** The system of the first pass on circuit_led. *)
Definition led_system : list (list Q) * list Q * gmap nat nat :=
  Eval vm_compute in
    match build_matrix solver_led circuit_led with
    | Ok r => r
    | Raise _ => ([], [], ∅)
    end.

Lemma led_build :
  build_matrix solver_led circuit_led
  = Ok (led_system.1.1, led_system.1.2, led_system.2).
Proof. reflexivity. Qed.

Lemma led_wf : solver_wf solver_led circuit_led.
Proof. exact (Solver_init_wf _ _ _ solver_led_init). Qed.

Lemma build_matrix_symmetric_witness :
  build_matrix solver_led circuit_led
  = Ok (led_system.1.1, led_system.1.2, led_system.2) ∧
  ∀ i j, entry led_system.1.1 i j = entry led_system.1.1 j i.
Proof.
  split; [exact led_build|].
  exact (build_matrix_symmetric solver_led circuit_led _ _ _ led_build).
Defined.

Lemma build_matrix_rhs_witness :
  build_matrix solver_led circuit_led
  = Ok (led_system.1.1, led_system.1.2, led_system.2) ∧
  led_system.1.2 = [0; 0; 5]%Q.
Proof.
  split; [exact led_build|].
  exact (build_matrix_rhs solver_led circuit_led _ _ _ led_build).
Defined.


Lemma build_matrix_source_row_witness :
  solver_wf solver_led circuit_led ∧
  build_matrix solver_led circuit_led
  = Ok (led_system.1.1, led_system.1.2, led_system.2) ∧
  voltage_sources circuit_led !! 0 = Some 0 ∧
  ∃ a b,
    node_map solver_led !! c_a (deref (heap circuit_led) 0) = Some a ∧
    node_map solver_led !! c_b (deref (heap circuit_led) 0) = Some b ∧
    ∀ j, j < num_nodes solver_led - 1 + length (voltage_sources circuit_led) →
         entry led_system.1.1 (num_nodes solver_led - 1 + 0) j
         = Some (if decide (led_system.2 !! b = Some j) then (-1)%Q
                 else if decide (led_system.2 !! a = Some j) then 1%Q
                 else 0%Q).
Proof.
  split; [exact led_wf|]. split; [exact led_build|]. split; [reflexivity|].
  exact (build_matrix_source_row solver_led circuit_led _ _ _ 0 0
           led_wf led_build eq_refl).
Defined.

Lemma solve_zero_iterations_witness :
  solver_wf solver_led circuit_led ∧
  components circuit_led ≠ [] ∧
  solve solver_led 0 circuit_led = Raise TypeError.
Proof.
  split; [exact led_wf|]. split; [discriminate|].
  exact (proj1 (solve_zero_iterations solver_led circuit_led led_wf)
           ltac:(discriminate)).
Defined.

Lemma solve_without_leds_witness :
  led_list circuit_parallel_series = [] ∧
  solve solver_series 10 circuit_parallel_series
  = solve solver_series 2 circuit_parallel_series ∧
  ∀ out,
    loop solver_series (led_list circuit_parallel_series) 10
         circuit_parallel_series None None 0 = Ok out →
    lo_iters out = 2 ∧ lo_stable out = true ∧
    lo_world out = circuit_parallel_series ∧
    ∃ V x, lo_cur out = Some (V, x) ∧
           step solver_series [] circuit_parallel_series
           = Ok (V, x, [], circuit_parallel_series).
Proof.
  split; [reflexivity|].
  exact (solve_without_leds solver_series 8 circuit_parallel_series eq_refl).
Defined.

Lemma solve_converged_consistent_witness :
  loop solver_led (led_list circuit_led) 10 circuit_led None None 0
  = Ok led_loop ∧
  lo_stable led_loop = true ∧
  solve solver_led 10 circuit_led
  = Ok (Some led_voltages, led_currents, led_world) ∧
  ∃ V A z node_index x,
    Some led_voltages = Some V ∧
    build_matrix solver_led led_world = Ok (A, z, node_index) ∧
    linalg_solve A z = Some x ∧
    potentials solver_led node_index x = Ok V ∧
    ∀ l, l ∈ led_list led_world →
         next_on solver_led V (deref (heap led_world) l)
         = Ok (get_on (deref (heap led_world) l)).
Proof.
  split; [exact led_loop_eq|]. split; [reflexivity|]. split; [exact led_solve|].
  exact (solve_converged_consistent solver_led 10 circuit_led led_loop _ _ _
           led_loop_eq eq_refl led_solve).
Defined.

Lemma solve_currents_keys_witness :
  solve solver_led 10 circuit_led
  = Ok (Some led_voltages, led_currents, led_world) ∧
  ∀ nm, is_Some (led_currents !! nm) ↔
        ∃ l, l ∈ components circuit_led ∧
             is_Wire (deref (heap circuit_led) l) = false ∧
             c_name (deref (heap circuit_led) l) = nm.
Proof.
  split; [exact led_solve|].
  exact (solve_currents_keys solver_led 10 circuit_led _ _ _ led_solve).
Defined.

Lemma led_later_names (l : loc) (post : list loc) :
  Forall (λ l', bool_decide (is_Wire (deref (heap circuit_led) l') ∨
                             c_name (deref (heap circuit_led) l')
                             ≠ c_name (deref (heap circuit_led) l))) post →
  ∀ l', l' ∈ post →
        is_Wire (deref (heap circuit_led) l') ∨
        c_name (deref (heap circuit_led) l')
        ≠ c_name (deref (heap circuit_led) l).
Proof.
  intros Hall l' Hl'. rewrite Forall_forall in Hall.
  specialize (Hall l' Hl'). by apply bool_decide_unpack in Hall.
Qed.

Lemma solve_resistor_current_witness :
  solve solver_led 10 circuit_led
  = Ok (Some led_voltages, led_currents, led_world) ∧
  components circuit_led = [0] ++ 1 :: [2] ∧
  c_kind (deref (heap circuit_led) 1) = Resistor 100%Q ∧
  ∃ V va vb,
    Some led_voltages = Some V ∧
    potential_at solver_led V (c_a (deref (heap circuit_led) 1)) = Ok va ∧
    potential_at solver_led V (c_b (deref (heap circuit_led) 1)) = Ok vb ∧
    led_currents !! c_name (deref (heap circuit_led) 1)
    = Some (@ndiv exact (@nsub exact va vb) 100%Q).
Proof.
  split; [exact led_solve|]. split; [reflexivity|]. split; [reflexivity|].
  exact (solve_resistor_current solver_led 10 circuit_led _ _ _ [0] 1 [2]
           100%Q led_solve eq_refl eq_refl
           (led_later_names 1 [2] ltac:(repeat constructor))).
Defined.

Lemma solve_led_current_witness :
  solve solver_led 10 circuit_led
  = Ok (Some led_voltages, led_currents, led_world) ∧
  components circuit_led = [0; 1] ++ 2 :: [] ∧
  c_kind (deref (heap circuit_led) 2) = LED 50%Q (16 # 10)%Q false ∧
  ∃ V va vb,
    Some led_voltages = Some V ∧
    potential_at solver_led V (c_a (deref (heap circuit_led) 2)) = Ok va ∧
    potential_at solver_led V (c_b (deref (heap circuit_led) 2)) = Ok vb ∧
    let on := @nge exact (@nsub exact va vb) (16 # 10)%Q in
    let R := @effective_resistance exact 50%Q on in
    c_kind (deref (heap led_world) 2) = LED 50%Q (16 # 10)%Q on ∧
    led_currents !! c_name (deref (heap circuit_led) 2)
    = Some (if @nlt exact R (@r_cut exact)
            then @ndiv exact (@nsub exact va vb) R else 0%Q).
Proof.
  split; [exact led_solve|]. split; [reflexivity|]. split; [reflexivity|].
  exact (solve_led_current solver_led 10 circuit_led _ _ _ [0; 1] 2 []
           50%Q (16 # 10)%Q false led_solve eq_refl eq_refl
           (led_later_names 2 [] ltac:(constructor))).
Defined.

Lemma solve_voltages_keys_witness :
  Solver_init circuit_led origin = Ok solver_led ∧
  solve solver_led 10 circuit_led
  = Ok (Some led_voltages, led_currents, led_world) ∧
  (∀ c, is_Some (led_voltages !! c) ↔ c < num_nodes solver_led) ∧
  (∀ n, n ∈ Circuit_nodes circuit_led ↔
        ∃ v, potential_at solver_led led_voltages n = Ok v) ∧
  (∀ x y, x ∈ Circuit_nodes circuit_led → y ∈ Circuit_nodes circuit_led →
          conn (wire_edges (heap circuit_led) (components circuit_led)) x y →
          potential_at solver_led led_voltages x
          = potential_at solver_led led_voltages y).
Proof.
  split; [exact solver_led_init|]. split; [exact led_solve|].
  exact (solve_voltages_keys circuit_led origin solver_led 10 _ _ _
           solver_led_init led_solve).
Defined.

(** GridCircuit.solve on grid_circuit_led, with the ground at (0, 1). *)
Definition grid_led_out
  : gmap Node Q * gmap string Q * Solver * list (@Component exact) :=
  Eval vm_compute in
    match GridCircuit_solve (heap grid_led_world) grid_circuit_led (0, 1)%Z with
    | Ok (cell, currents, Some s, hp) => (cell, currents, s, hp)
    | _ => (∅, ∅, mkSolver (0, 0)%Z ∅ 0 0, [])
    end.

Lemma grid_led_solve :
  GridCircuit_solve (heap grid_led_world) grid_circuit_led (0, 1)%Z
  = Ok (grid_led_out.1.1.1, grid_led_out.1.1.2, Some grid_led_out.1.2,
        grid_led_out.2).
Proof. reflexivity. Qed.

Lemma grid_solve_cells_witness :
  GridCircuit_solve (heap grid_led_world) grid_circuit_led (0, 1)%Z
  = Ok (grid_led_out.1.1.1, grid_led_out.1.1.2, Some grid_led_out.1.2,
        grid_led_out.2) ∧
  ∀ pos, is_Some (grid_led_out.1.1.1 !! pos) ↔
         pos ∈ Circuit_nodes (mkWorld (heap grid_led_world)
                                      (grid_components grid_circuit_led)).
Proof.
  split; [exact grid_led_solve|].
  destruct (grid_solve_cells (heap grid_led_world) grid_circuit_led (0, 1)%Z
              _ _ _ _ grid_led_solve) as (_ & _ & V & w' & _ & _ & Hkeys & _).
  exact Hkeys.
Defined.

Lemma led_locs : ∀ l, l ∈ components circuit_led → l < length (heap circuit_led).
Proof. apply Forall_forall. apply (bool_decide_unpack _). exact I. Qed.

Lemma solve_after_add_raises_witness :
  Solver_init circuit_led origin = Ok solver_led ∧
  ((5, 5)%Z ∉ Circuit_nodes circuit_led) ∧
  solve solver_led 10
        (add_new (@Resistor_init exact (2, 0)%Z (5, 5)%Z 100%Q "R2") circuit_led)
  = Raise KeyError.
Proof.
  assert (Hnew : (5, 5)%Z ∉ Circuit_nodes circuit_led).
  { apply (bool_decide_unpack _). exact I. }
  split; [exact solver_led_init|]. split; [exact Hnew|].
  apply (solve_after_add_raises circuit_led origin solver_led
           (@Resistor_init exact (2, 0)%Z (5, 5)%Z 100%Q "R2") 9
           solver_led_init led_locs (or_intror Hnew)).
  apply Forall_forall. apply (bool_decide_unpack _). exact I.
Defined.
